(** * Quilt macro-gate detector: a shallow embedding and its properties

    The development follows [Quilt/macro_gate_detector/macro_gate_detector.py]
    and [circuit_json_processing/circuit_json_parsing.py]:

    - [Py]       the few Python built-ins the code relies on ([repr], [str],
                 [sorted], slicing, [range]);
    - [MD5]      RFC 1321, the digest behind [hashlib.md5(..).hexdigest()];
    - [Detector] [MacroGateDetector]: [hash_sequence], [detect_patterns],
                 [find_non_overlapping_macros];
    - [Labeler]  [SemanticLabeler]: [analyze_gate_sequence],
                 [match_known_pattern], [label_macro];
    - [Graph]    [convert_to_app_circuit_format] and [parse_circuit_dag];
    - [Spec], [GraphSpec]  the predicates the statements are written with;
    - [Inputs]   the concrete sequences and analysis results of the examples.

    Python integers are [Z], strings are [string] (read as UTF-8 bytes), dicts
    whose iteration order reaches the output are association lists in
    insertion order, dicts that are only looked up are [gmap]s. *)

From Stdlib Require Import ZArith Ascii String List Lia OrderedTypeEx.
From stdpp Require Import base tactics option list strings gmap pretty sorting.

Local Open Scope Z_scope.
Local Open Scope string_scope.
Local Open Scope list_scope.

(* ===================================================================== *)
(** ** Python built-ins *)
(* ===================================================================== *)

Module Py.

(** [", ".join(items)] *)
Fixpoint join (sep : string) (items : list string) : string :=
  match items with
  | [] => ""
  | [x] => x
  | x :: rest => x +:+ sep +:+ join sep rest
  end.

Definition hex_digit (n : N) : ascii :=
  match n with
  | 0%N => "0" | 1%N => "1" | 2%N => "2" | 3%N => "3" | 4%N => "4"
  | 5%N => "5" | 6%N => "6" | 7%N => "7" | 8%N => "8" | 9%N => "9"
  | 10%N => "a" | 11%N => "b" | 12%N => "c" | 13%N => "d" | 14%N => "e"
  | _ => "f"
  end%char.

(** two lowercase hexadecimal digits of a byte *)
Definition hex_byte (n : N) : string :=
  String (hex_digit (n / 16)) (String (hex_digit (n mod 16)) "").

Fixpoint contains_char (c : ascii) (s : string) : bool :=
  match s with
  | EmptyString => false
  | String d s' => if Ascii.eqb c d then true else contains_char c s'
  end.

(** [repr] picks double quotes only when the text has a single quote and
    no double quote. *)
Definition double_quote : ascii := ascii_of_N 34.

Definition repr_quote (s : string) : ascii :=
  if contains_char "'"%char s && negb (contains_char double_quote s)
  then double_quote else "'"%char.

(** One character of [repr(str)]: backslash and the chosen quote are
    escaped, tab, newline and carriage return get their letter, the other
    ASCII control characters are written [\xNN]; bytes from 0x80 on (UTF-8
    sequences of printable characters) are kept. *)
Definition repr_char (q c : ascii) : string :=
  let n := N_of_ascii c in
  if Ascii.eqb c "\"%char then "\\"
  else if Ascii.eqb c q then String "\"%char (String c "")
  else if N.eqb n 9 then "\t"
  else if N.eqb n 10 then "\n"
  else if N.eqb n 13 then "\r"
  else if (N.ltb n 32 || N.eqb n 127)%bool then "\x" +:+ hex_byte n
  else String c "".

Fixpoint repr_body (q : ascii) (s : string) : string :=
  match s with
  | EmptyString => ""
  | String c s' => repr_char q c +:+ repr_body q s'
  end.

(** [repr(s)] for a [str] *)
Definition repr_str (s : string) : string :=
  let q := repr_quote s in
  String q (repr_body q s) +:+ String q "".

(** [str(t)] for a tuple whose items are already rendered *)
Definition str_tuple (items : list string) : string :=
  match items with
  | [] => "()"
  | [x] => "(" +:+ x +:+ ",)"
  | _ => "(" +:+ join ", " items +:+ ")"
  end.

(** [str(l)] for a list whose items are already rendered *)
Definition str_list (items : list string) : string :=
  "[" +:+ join ", " items +:+ "]".

(** [str(i)] for an [int] *)
Definition str_int (i : Z) : string := pretty i.

(** Insertion of [x] in front of the first element it strictly precedes:
    elements that compare equal stay in arrival order. *)
Fixpoint insert_stable {A} (before : A → A → bool) (x : A) (l : list A)
  : list A :=
  match l with
  | [] => [x]
  | y :: l' => if before x y then x :: l else y :: insert_stable before x l'
  end.

(** [sorted(l)] / [l.sort()]: a stable sort; [before x y] says that [x] has
    to come strictly earlier than [y].  For [key=k] it is [k x < k y], for
    [key=k, reverse=True] it is [k y < k x] (Python keeps the original
    order of equal keys in both directions). *)
Definition sorted {A} (before : A → A → bool) (l : list A) : list A :=
  foldl (λ acc x, insert_stable before x acc) [] l.

(** [range(n)] as naturals, empty for [n <= 0] *)
Definition range (n : Z) : list nat := seq 0 (Z.to_nat n).

(** [range(a, b)] *)
Definition range2 (a b : Z) : list Z :=
  map (λ i, a + Z.of_nat i) (seq 0 (Z.to_nat (b - a))).

(** [l[i:j]] for [0 <= i] *)
Definition slice {A} (l : list A) (i j : nat) : list A :=
  take (j - i) (drop i l).

(** tuple comparison [(a1, a2) < (b1, b2)] *)
Definition pair_ltb (a b : Z * Z) : bool :=
  ((a.1 <? b.1) || ((a.1 =? b.1) && (a.2 <? b.2)))%Z.

(** the [before] of [sorted(key=.., reverse=True)] for a key that is a
    pair of integers: the larger key comes first *)
Definition descending {A} (key : A → Z * Z) (x y : A) : bool :=
  pair_ltb (key y) (key x).

(** [s.upper()] on ASCII text *)
Definition upper_char (c : ascii) : ascii :=
  let n := N_of_ascii c in
  if (N.leb 97 n && N.leb n 122)%bool then ascii_of_N (n - 32) else c.

Fixpoint upper (s : string) : string :=
  match s with
  | EmptyString => ""
  | String c s' => String (upper_char c) (upper s')
  end.

Definition is_digit (c : ascii) : bool :=
  let n := N_of_ascii c in (N.leb 48 n && N.leb n 57)%bool.

Fixpoint all_digits (s : string) : bool :=
  match s with
  | EmptyString => true
  | String c s' => is_digit c && all_digits s'
  end.

(** [s.isdigit()] on ASCII text *)
Definition isdigit (s : string) : bool :=
  match s with
  | EmptyString => false
  | _ => all_digits s
  end.

Fixpoint int_digits (acc : N) (s : string) : N :=
  match s with
  | EmptyString => acc
  | String c s' => int_digits (10 * acc + (N_of_ascii c - 48))%N s'
  end.

(** [int(s)] for a string of digits *)
Definition int_of_str (s : string) : Z := Z.of_N (int_digits 0 s).

End Py.

(* ===================================================================== *)
(** ** MD5 (RFC 1321) *)
(* ===================================================================== *)

Module MD5.

Local Open Scope Z_scope.

Definition w32 (x : Z) : Z := x mod 2 ^ 32.

Definition rotl (x : Z) (c : Z) : Z :=
  w32 (Z.lor (Z.shiftl x c) (Z.shiftr x (32 - c))).

Definition K : list Z :=
  [ 0xd76aa478; 0xe8c7b756; 0x242070db; 0xc1bdceee;
    0xf57c0faf; 0x4787c62a; 0xa8304613; 0xfd469501;
    0x698098d8; 0x8b44f7af; 0xffff5bb1; 0x895cd7be;
    0x6b901122; 0xfd987193; 0xa679438e; 0x49b40821;
    0xf61e2562; 0xc040b340; 0x265e5a51; 0xe9b6c7aa;
    0xd62f105d; 0x02441453; 0xd8a1e681; 0xe7d3fbc8;
    0x21e1cde6; 0xc33707d6; 0xf4d50d87; 0x455a14ed;
    0xa9e3e905; 0xfcefa3f8; 0x676f02d9; 0x8d2a4c8a;
    0xfffa3942; 0x8771f681; 0x6d9d6122; 0xfde5380c;
    0xa4beea44; 0x4bdecfa9; 0xf6bb4b60; 0xbebfbc70;
    0x289b7ec6; 0xeaa127fa; 0xd4ef3085; 0x04881d05;
    0xd9d4d039; 0xe6db99e5; 0x1fa27cf8; 0xc4ac5665;
    0xf4292244; 0x432aff97; 0xab9423a7; 0xfc93a039;
    0x655b59c3; 0x8f0ccc92; 0xffeff47d; 0x85845dd1;
    0x6fa87e4f; 0xfe2ce6e0; 0xa3014314; 0x4e0811a1;
    0xf7537e82; 0xbd3af235; 0x2ad7d2bb; 0xeb86d391 ].

Definition S : list Z :=
  [ 7; 12; 17; 22; 7; 12; 17; 22; 7; 12; 17; 22; 7; 12; 17; 22;
    5; 9; 14; 20; 5; 9; 14; 20; 5; 9; 14; 20; 5; 9; 14; 20;
    4; 11; 16; 23; 4; 11; 16; 23; 4; 11; 16; 23; 4; 11; 16; 23;
    6; 10; 15; 21; 6; 10; 15; 21; 6; 10; 15; 21; 6; 10; 15; 21 ].

Definition bytes_of_string (s : string) : list Z :=
  map (λ c, Z.of_N (N_of_ascii c)) (list_ascii_of_string s).

(** little-endian bytes of [x], [n] of them *)
Fixpoint le_bytes (n : nat) (x : Z) : list Z :=
  match n with
  | O => []
  | Datatypes.S n' => x mod 256 :: le_bytes n' (x / 256)
  end.

Fixpoint le_word (bs : list Z) : Z :=
  match bs with
  | [] => 0
  | b :: bs' => b + 256 * le_word bs'
  end.

(** the message followed by 0x80, zeros up to 56 modulo 64, and the bit
    length on eight bytes *)
Definition pad (msg : list Z) : list Z :=
  let len := Z.of_nat (length msg) in
  let zeros := Z.to_nat ((55 - len) mod 64) in
  msg ++ [128] ++ repeat 0 zeros ++ le_bytes 8 ((8 * len) mod 2 ^ 64).

(** a list cut in pieces of [n] items ([k] pieces at most) *)
Fixpoint chunks {A} (k n : nat) (l : list A) : list (list A) :=
  match k with
  | O => []
  | Datatypes.S k' =>
      match l with
      | [] => []
      | _ => take n l :: chunks k' n (drop n l)
      end
  end.

Definition words (block : list Z) : list Z :=
  map le_word (chunks 16 4 block).

Record state := { sa : Z; sb : Z; sc : Z; sd : Z }.

Definition init : state :=
  {| sa := 0x67452301; sb := 0xefcdab89; sc := 0x98badcfe; sd := 0x10325476 |}.

Definition round (M : list Z) (st : state) (i : nat) : state :=
  let '{| sa := A; sb := B; sc := C; sd := D |} := st in
  let iz := Z.of_nat i in
  let '(F, g) :=
    if iz <? 16 then (Z.lor (Z.land B C) (Z.land (Z.lxor B 0xffffffff) D), iz)
    else if iz <? 32 then
      (Z.lor (Z.land D B) (Z.land (Z.lxor D 0xffffffff) C), (5 * iz + 1) mod 16)
    else if iz <? 48 then (Z.lxor (Z.lxor B C) D, (3 * iz + 5) mod 16)
    else (Z.lxor C (Z.lor B (Z.lxor D 0xffffffff)), (7 * iz) mod 16) in
  let F' := w32 (F + A + nth i K 0 + nth (Z.to_nat g) M 0) in
  {| sa := D; sb := w32 (B + rotl F' (nth i S 0)); sc := B; sd := C |}.

Definition compress (st : state) (block : list Z) : state :=
  let M := words block in
  let st' := foldl (round M) st (seq 0 64) in
  {| sa := w32 (sa st + sa st'); sb := w32 (sb st + sb st');
     sc := w32 (sc st + sc st'); sd := w32 (sd st + sd st') |}.

Definition digest (msg : list Z) : list Z :=
  let p := pad msg in
  let st := foldl compress init (chunks (length p) 64 p) in
  le_bytes 4 (sa st) ++ le_bytes 4 (sb st) ++ le_bytes 4 (sc st)
    ++ le_bytes 4 (sd st).

(** [hashlib.md5(s.encode()).hexdigest()] *)
Definition hexdigest (s : string) : string :=
  foldr (λ b acc, Py.hex_byte (Z.to_N b) +:+ acc) "" (digest (bytes_of_string s)).

End MD5.

(* ===================================================================== *)
(** ** MacroGateDetector *)
(* ===================================================================== *)

Module Detector.

(** A gate parameter as [extract_operations_from_dag] leaves it: a float
    rounded to six digits, kept here as the text [repr] prints for it (the
    only way the detector looks at it), or the [str] of a symbolic value. *)
Inductive param :=
| PFloat (text : string)
| PStr (s : string).

(** An item [(gate_name, qubits, params)] of the operation sequence; the
    qubits are the index strings of [extract_qubit_index]. *)
Record operation := Op {
  gate_name : string;
  qubits : list string;
  params : list param
}.

(** [self] of [MacroGateDetector] *)
Record config := Config {
  min_repetitions : Z;
  max_window_size : Z
}.

Definition str_param (p : param) : string :=
  match p with
  | PFloat text => text
  | PStr s => Py.repr_str s
  end.

(** the triple appended to [normalized]: qubits sorted, the rest as is *)
Definition normalize (item : operation) : operation :=
  {| gate_name := gate_name item;
     qubits := Py.sorted String.ltb (qubits item);
     params := params item |}.

(** [str] of a normalized triple *)
Definition str_item (item : operation) : string :=
  Py.str_tuple
    [ Py.repr_str (gate_name item);
      Py.str_tuple (map Py.repr_str (qubits item));
      Py.str_tuple (map str_param (params item)) ].

Definition hash_sequence (seq : list operation) : string :=
  MD5.hexdigest (Py.str_list (map (λ item, str_item (normalize item)) seq)).

Global Arguments hash_sequence : simpl never.

(** the value stored in [all_patterns] under a hash *)
Record pattern_info := PatternInfo {
  p_sequence : list operation;
  p_positions : list (Z * Z);
  p_window_size : Z;
  p_count : Z
}.

Fixpoint has_key {V} (k : string) (d : list (string * V)) : bool :=
  match d with
  | [] => false
  | (k', _) :: d' => if String.eqb k k' then true else has_key k d'
  end.

(** [d[k].append(v)] on a [defaultdict(list)]: a new key goes last *)
Fixpoint group_append {V} (k : string) (v : V) (d : list (string * list V))
  : list (string * list V) :=
  match d with
  | [] => [(k, [v])]
  | (k', vs) :: d' =>
      if String.eqb k k' then (k', vs ++ [v]) :: d'
      else (k', vs) :: group_append k v d'
  end.

(** the inner loop of [detect_patterns]: every window of one size, grouped
    by hash *)
Definition window_patterns (ops_sequence : list operation) (window_size : Z)
  : list (string * list (Z * Z)) :=
  foldl
    (λ d i,
       let window := Py.slice ops_sequence i (i + Z.to_nat window_size) in
       group_append (hash_sequence window)
         (Z.of_nat i, Z.of_nat i + window_size)%Z d)
    []
    (Py.range (Z.of_nat (length ops_sequence) - window_size + 1)).

(** the filter loop: a group is recorded when it is frequent enough and
    its hash is new; positions are never empty (a group is created by its
    first append), so [positions[0]] is its head *)
Definition record_patterns (self : config) (ops_sequence : list operation)
    (window_size : Z) (all_patterns : list (string * pattern_info))
    (groups : list (string * list (Z * Z)))
  : list (string * pattern_info) :=
  foldl
    (λ all '(pattern_hash, positions),
       if (min_repetitions self <=? Z.of_nat (length positions))%Z
       then
         if negb (has_key pattern_hash all)
         then
           let first := hd (0, 0)%Z positions in
           all ++ [(pattern_hash,
                    {| p_sequence :=
                         Py.slice ops_sequence (Z.to_nat first.1)
                           (Z.to_nat first.2);
                       p_positions := positions;
                       p_window_size := window_size;
                       p_count := Z.of_nat (length positions) |})]
         else all
       else all)
    all_patterns groups.

Definition pattern_key (x : string * pattern_info) : Z * Z :=
  (p_count x.2, p_window_size x.2).

(** [all_patterns] before the final ordering *)
Definition collect_patterns (self : config) (ops_sequence : list operation)
  : list (string * pattern_info) :=
  let n := Z.of_nat (length ops_sequence) in
  foldl
    (λ all window_size,
       record_patterns self ops_sequence window_size all
         (window_patterns ops_sequence window_size))
    []
    (Py.range2 2 (Z.min (max_window_size self + 1) (n / 2 + 1))).

Definition detect_patterns (self : config) (ops_sequence : list operation)
  : list (string * pattern_info) :=
  Py.sorted (Py.descending pattern_key)
    (collect_patterns self ops_sequence).

Record candidate := Candidate {
  c_hash : string;
  c_sequence : list operation;
  c_start : Z;
  c_end : Z;
  c_window_size : Z;
  c_size : Z
}.

Definition all_macro_candidates (patterns : list (string * pattern_info))
  : list candidate :=
  flat_map
    (λ '(pattern_hash, pattern_info),
       map (λ '(start, end_),
              {| c_hash := pattern_hash;
                 c_sequence := p_sequence pattern_info;
                 c_start := start;
                 c_end := end_;
                 c_window_size := p_window_size pattern_info;
                 c_size := (end_ - start)%Z |})
           (p_positions pattern_info))
    patterns.

Definition candidate_key (x : candidate) : Z * Z :=
  (c_size x, (- c_start x)%Z).

(** [all_macro_candidates.sort(key=(size, -start), reverse=True)] *)
Definition sort_candidates (cands : list candidate) : list candidate :=
  Py.sorted (Py.descending candidate_key) cands.

Definition ranges_overlap (start1 end1 start2 end2 : Z) : bool :=
  negb ((end1 <=? start2)%Z || (end2 <=? start1)%Z).

Definition overlaps_used (c : candidate) (used_ranges : list (Z * Z)) : bool :=
  existsb (λ '(used_start, used_end),
             ranges_overlap (c_start c) (c_end c) used_start used_end)
          used_ranges.

(** one turn of the greedy loop on [(selected_macros, used_ranges)] *)
Definition select_step (st : list candidate * list (Z * Z)) (c : candidate)
  : list candidate * list (Z * Z) :=
  if overlaps_used c st.2 then st
  else (st.1 ++ [c], st.2 ++ [(c_start c, c_end c)]).

Definition greedy_select (cands : list candidate)
  : list candidate * list (Z * Z) :=
  foldl select_step ([], []) cands.

(** the value stored in [macros_by_hash] *)
Record macro_info := MacroInfo {
  mi_hash : string;
  mi_sequence : list operation;
  mi_positions : list (Z * Z);
  mi_window_size : Z
}.

Definition add_position (pos : Z * Z) (mi : macro_info) : macro_info :=
  {| mi_hash := mi_hash mi; mi_sequence := mi_sequence mi;
     mi_positions := mi_positions mi ++ [pos];
     mi_window_size := mi_window_size mi |}.

(** one turn of the grouping loop: the entry of the hash is created empty
    when missing, then the position is appended to it *)
Fixpoint group_macro (c : candidate) (d : list (string * macro_info))
  : list (string * macro_info) :=
  match d with
  | [] =>
      [(c_hash c,
        {| mi_hash := c_hash c; mi_sequence := c_sequence c;
           mi_positions := [(c_start c, c_end c)];
           mi_window_size := c_window_size c |})]
  | (k, mi) :: d' =>
      if String.eqb (c_hash c) k
      then (k, add_position (c_start c, c_end c) mi) :: d'
      else (k, mi) :: group_macro c d'
  end.

Definition macros_by_hash (selected : list candidate)
  : list (string * macro_info) :=
  foldl (λ d c, group_macro c d) [] selected.

(** a macro of the returned list *)
Record macro := Macro {
  m_hash : string;
  m_sequence : list operation;
  m_positions : list (Z * Z);
  m_count : Z;
  m_window_size : Z
}.

Definition macro_key (x : macro) : Z * Z := (m_count x, m_window_size x).

Definition final_macros (self : config) (groups : list (string * macro_info))
  : list macro :=
  flat_map
    (λ '(hash_key, mi),
       if (min_repetitions self <=? Z.of_nat (length (mi_positions mi)))%Z
       then [ {| m_hash := hash_key;
                 m_sequence := mi_sequence mi;
                 m_positions := mi_positions mi;
                 m_count := Z.of_nat (length (mi_positions mi));
                 m_window_size := mi_window_size mi |} ]
       else [])
    groups.

Definition find_non_overlapping_macros (self : config)
    (patterns : list (string * pattern_info)) : list macro :=
  let selected := (greedy_select (sort_candidates (all_macro_candidates patterns))).1 in
  Py.sorted (Py.descending macro_key)
    (final_macros self (macros_by_hash selected)).

End Detector.

(* ===================================================================== *)
(** ** SemanticLabeler *)
(* ===================================================================== *)

Module Labeler.

Import Detector.

(** [Counter(items)], read through [get]/[in] only *)
Definition counter_add `{Countable K} (m : gmap K nat) (k : K) : gmap K nat :=
  <[k := S (default 0%nat (m !! k))]> m.

Definition Counter `{Countable K} (items : list K) : gmap K nat :=
  foldl counter_add ∅ items.

(** [counts.get(k, 0)] *)
Definition get0 `{Countable K} (m : gmap K nat) (k : K) : nat :=
  default 0%nat (m !! k).

(** [list(dict.fromkeys(l))]: the keys of a [Counter] in first-seen order *)
Definition first_seen {A} `{EqDecision A} (l : list A) : list A :=
  foldl (λ acc x, if bool_decide (x ∈ acc) then acc else acc ++ [x]) [] l.

(** A qubit of a gate as an integer index.  The items are strings: a string
    of digits is read with [int]; any other string is skipped (in
    [analyze_gate_sequence] no branch adds it, in [_analyze_connectivity]
    [int(extract_qubit_index(q))] raises [ValueError], which is caught). *)
Definition qubit_index (q : string) : option Z :=
  if Py.isdigit q then Some (Py.int_of_str q) else None.

Definition qubit_indices (qs : list string) : list Z :=
  omap qubit_index qs.

(** all pairs [(min(q_i, q_j), max(q_i, q_j))] for [i < j] *)
Fixpoint pairs (l : list Z) : list (Z * Z) :=
  match l with
  | [] => []
  | q1 :: rest => map (λ q2, (Z.min q1 q2, Z.max q1 q2)) rest ++ pairs rest
  end.

Record connectivity := Connectivity {
  connections : list (Z * Z);
  connection_counts : gmap (Z * Z) nat;
  is_linear : bool;
  is_star : bool;
  is_ring : bool;
  max_degree : nat;
  qubit_range : option (Z * Z)
}.

(** the [connections] list of [_analyze_connectivity], with repetitions *)
Definition gate_connections (sequence : list operation) : list (Z * Z) :=
  flat_map
    (λ gate,
       if (2 <=? length (qubits gate))%nat
       then pairs (qubit_indices (qubits gate)) else [])
    sequence.

Definition _analyze_connectivity (sequence : list operation) : connectivity :=
  let conns := gate_connections sequence in
  let counts := Counter conns in
  let all_qubits : gset Z :=
    foldl (λ s conn, s ∪ {[conn.1]} ∪ {[conn.2]}) ∅ conns in
  let qubit_list := Py.sorted Z.ltb (elements all_qubits) in
  let qubit_degree : gmap Z nat :=
    foldl (λ d conn, counter_add (counter_add d conn.1) conn.2) ∅ conns in
  let max_deg := max_list (snd <$> map_to_list qubit_degree) in
  let linear := ((max_deg <=? 2) && (2 <? length qubit_list))%nat in
  let star :=
    (negb (bool_decide (qubit_degree = ∅)) && (2 <? length qubit_list)
     && (length qubit_list - 1 <=? max_deg))%nat in
  let ring :=
    ((3 <=? length qubit_list)
     && forallb (λ q, get0 qubit_degree q =? 2) qubit_list)%nat in
  let range :=
    match qubit_list with
    | [] => None
    | q :: rest => Some (foldl Z.min q rest, foldl Z.max q rest)
    end in
  {| connections := first_seen conns;
     connection_counts := counts;
     is_linear := linear;
     is_star := star;
     is_ring := ring;
     max_degree := max_deg;
     qubit_range := range |}.

Record analysis := Analysis {
  num_qubits : nat;
  num_gates : nat;
  gate_counts : gmap string nat;
  has_entanglement : bool;
  has_rotations : bool;
  has_hadamard : bool;
  is_single_qubit : bool;
  is_two_qubit : bool;
  a_connectivity : connectivity;
  a_qubits : list Z;
  gate_sequence : list string
}.

Definition name_in (names : list string) (g : string) : bool :=
  bool_decide (g ∈ names).

Definition analyze_gate_sequence (sequence : list operation) : analysis :=
  let gate_names := map gate_name sequence in
  let all_qubits : gset Z :=
    foldl (λ s gate, foldl (λ s q, s ∪ {[q]}) s (qubit_indices (qubits gate)))
          ∅ sequence in
  let n := size all_qubits in
  {| num_qubits := n;
     num_gates := length sequence;
     gate_counts := Counter gate_names;
     has_entanglement := existsb (name_in ["cx"; "cz"; "cy"; "swap"]) gate_names;
     has_rotations :=
       existsb (name_in ["ry"; "rz"; "rx"; "u1"; "u2"; "u3"]) gate_names;
     has_hadamard := existsb (String.eqb "h") gate_names;
     is_single_qubit := (n =? 1)%nat;
     is_two_qubit := (n =? 2)%nat;
     a_connectivity := _analyze_connectivity sequence;
     a_qubits := Py.sorted Z.ltb (elements all_qubits);
     gate_sequence := gate_names |}.

(** [a / b > tn / td] for the quotient of two counts against the float
    literal nearest to [tn / td] (0.3 or 0.2 below).  The float quotient of
    two integers is correctly rounded and rounding is monotone, so for
    counts below 2^49 the float test and the exact test on fractions agree:
    [a / b > tn / td] iff [tn * b < td * a]. *)
Definition ratio_gt (a b : nat) (tn td : Z) : bool :=
  (tn * Z.of_nat b <? td * Z.of_nat a)%Z.

Definition sum_counts (counts : gmap string nat) (names : list string) : nat :=
  sum_list (map (get0 counts) names).

Definition phase_gates : list string := ["cp"; "crz"; "cu1"; "cz"; "p"].
Definition rotation_gates : list string := ["ry"; "rz"; "rx"; "u1"; "u2"; "u3"].
Definition axis_rotations : list string := ["ry"; "rz"; "rx"].

(** [[g[0] for g in sequence if g[0] in ['ry', 'rz', 'rx']]] *)
Definition rotation_types (sequence : list operation) : list string :=
  filter (λ g, g ∈ axis_rotations) (map gate_name sequence).

Definition all_named (g : string) (sequence : list operation) : bool :=
  forallb (λ gate, String.eqb (gate_name gate) g) sequence.

Definition match_known_pattern (sequence : list operation) (a : analysis)
  : option string :=
  let gate_names := map gate_name sequence in
  let counts := gate_counts a in
  let n_gates := length sequence in
  let n_qubits := num_qubits a in
  let qft :=
    if bool_decide (is_Some (counts !! "h")) && (2 <=? n_qubits)%nat then
      let cp_count := sum_counts counts phase_gates in
      if ((1 <=? get0 counts "h") && (0 <? cp_count))%nat then
        let cp_ratio_high :=
          if (0 <? n_gates)%nat then ratio_gt cp_count n_gates 3 10 else false in
        if cp_ratio_high then
          let has_swaps := (0 <? get0 counts "swap")%nat in
          let early_h :=
            existsb (λ i, String.eqb (nth i gate_names "") "h")
                    (Py.range (Z.min 3 (Z.of_nat (length gate_names)))) in
          if early_h
          then Some ("QFT Circuit Segment"
                     +:+ (if has_swaps then " (with SWAP Layer)" else ""))
          else None
        else None
      else None
    else None in
  let grover :=
    if ((2 <=? n_qubits) && (3 <=? length sequence))%nat then
      let h_count := get0 counts "h" in
      let cnot_count := get0 counts "cx" in
      let cz_count := get0 counts "cz" in
      if ((2 <=? h_count) && ((0 <? cnot_count) || (0 <? cz_count)))%nat then
        let h_ratio_high :=
          if (0 <? n_gates)%nat then ratio_gt h_count n_gates 1 5 else false in
        let starts_with_h := String.eqb (hd "" gate_names) "h" in
        let ends_with_h := String.eqb (List.last gate_names "") "h" in
        if (starts_with_h || ends_with_h) && h_ratio_high then
          let has_phase :=
            existsb (name_in ["z"; "cz"; "cp"; "crz"]) gate_names in
          if has_phase || (n_qubits <=? cnot_count)%nat
          then Some "Grover Diffusion/Oracle Block"
          else None
        else None
      else None
    else None in
  let cnot_count := get0 counts "cx" in
  let rotation_count := sum_counts counts rotation_gates in
  let rot_type := Py.upper (hd "" (rotation_types sequence)) in
  match qft with
  | Some label => Some label
  | None =>
  match grover with
  | Some label => Some label
  | None =>
  if all_named "cx" sequence && (2 <=? length sequence)%nat then
    if (n_qubits =? 2)%nat then Some "CNOT Pair"
    else if is_linear (a_connectivity a) then Some "CNOT Chain"
    else Some "CNOT Ladder"
  else if all_named "swap" sequence then Some "Swap Network"
  else if all_named "h" sequence && (2 <=? length sequence)%nat then
    if (length sequence =? n_qubits)%nat then Some "Hadamard Layer"
    else Some "Hadamard Ladder"
  else if ((0 <? cnot_count) && (0 <? rotation_count))%nat
          && negb (bool_decide (rotation_types sequence = [])) then
    if ((cnot_count =? 1) && (rotation_count =? 1))%nat
    then Some (rot_type +:+ " Rotation Block")
    else if ((cnot_count =? 2) && (rotation_count =? 1))%nat
    then Some (rot_type +:+ " Rotation with CNOT Pair")
    else if ((2 <=? cnot_count) && (1 <=? rotation_count))%nat
    then Some (rot_type +:+ " Rotation with Entangling Layer")
    else Some "Rotation-Entangling Block"
  else if ((0 <? rotation_count) && (cnot_count =? 0))%nat
          && negb (bool_decide (rotation_types sequence = [])) then
    if (size (list_to_set (rotation_types sequence) : gset string) =? 1)%nat
    then Some (rot_type +:+ " Rotation Block")
    else Some "Mixed Rotation Block"
  else
    let cz_count := get0 counts "cz" in
    if ((0 <? cz_count) && (cnot_count =? 0))%nat then
      if (2 <=? cz_count)%nat then Some "CZ Ladder" else Some "CZ Gate"
    else None
  end end.

Definition _describe_multi_qubit_pattern (a : analysis)
    (sequence : list operation) : string :=
  let counts := gate_counts a in
  let conn := a_connectivity a in
  let n_qubits := num_qubits a in
  let cnot_count := get0 counts "cx" in
  let rotation_count := sum_counts counts rotation_gates in
  let hadamard_count := get0 counts "h" in
  let rot_type := Py.upper (hd "" (rotation_types sequence)) in
  if ((0 <? cnot_count) && (rotation_count =? 0) && (hadamard_count =? 0))%nat
  then
    if (n_qubits =? 2)%nat then "Entangling Pair"
    else if is_linear conn then "Linear Entangling Chain"
    else if is_star conn then "Star Entangling Pattern"
    else if is_ring conn then "Ring Entangling Pattern"
    else "Entangling Block"
  else if (0 <? rotation_count)%nat
          && negb (bool_decide (rotation_types sequence = [])) then
    if (0 <? cnot_count)%nat then
      if is_linear conn
      then rot_type +:+ " Rotation with Linear Entangling"
      else rot_type +:+ " Rotation with Entangling"
    else rot_type +:+ " Rotation Block"
  else if ((0 <? hadamard_count) && (0 <? cnot_count))%nat
  then "Hadamard-Entangling Block"
  else if (3 <=? n_qubits)%nat then "Multi-Qubit Block"
  else if (n_qubits =? 2)%nat then "Two-Qubit Block"
  else "Gate Block".

(** [label_macro(macro, sequence, ...)]; [macro] only feeds
    [earliest_position], which [match_known_pattern] does not read. *)
Definition label_macro (m : macro) (sequence : list operation) : string :=
  let a := analyze_gate_sequence sequence in
  let known_pattern := match_known_pattern sequence a in
  let all_rotations :=
    filter (λ g, g ∈ rotation_gates) (map gate_name sequence) in
  let rot_type := Py.upper (hd "" (rotation_types sequence)) in
  let fallback :=
    if is_single_qubit a then
      if has_rotations a then
        match all_rotations with
        | g :: _ => Py.upper g +:+ " Rotation Block"
        | [] => "Macro Block"
        end
      else if has_hadamard a then "Hadamard Block"
      else "Single Qubit Layer"
    else if is_two_qubit a then
      if has_entanglement a then
        let gate_type :=
          match gate_sequence a with g :: _ => g | [] => "ent" end in
        if String.eqb gate_type "cx" then "CNOT Pair"
        else if String.eqb gate_type "cz" then "CZ Pair"
        else "Entangling Pair"
      else if has_rotations a
              && negb (bool_decide (rotation_types sequence = []))
      then rot_type +:+ " Rotation Pair"
      else "Two-Qubit Block"
    else if (2 <? num_qubits a)%nat then
      _describe_multi_qubit_pattern a sequence
    else if has_rotations a && negb (has_entanglement a) then
      if negb (bool_decide (rotation_types sequence = [])) then
        if (size (list_to_set (rotation_types sequence) : gset string) =? 1)%nat
        then rot_type +:+ " Rotation Block"
        else "Mixed Rotation Block"
      else "Rotation Block"
    else "Macro Block" in
  match known_pattern with
  | Some label => if bool_decide (label = "") then fallback else label
  | None => fallback
  end.

End Labeler.

(* ===================================================================== *)
(** ** Graph builder *)
(* ===================================================================== *)

Module Graph.

Inductive node_type := Init | Gate | End.

Record node := Node {
  n_id : string;
  n_name : string;
  n_type : node_type;
  n_position : Z;
  n_qubits : list string;
  n_layer : Z
}.

Record edge := Edge {
  e_name : string;
  e_from : string;
  e_to : string;
  e_qubit : string
}.

(** [{"name": .., "qubits": ..}] *)
Record gate_ref := GateRef {
  g_name : string;
  g_qubits : list string
}.

Record macro_instance := MacroInstance {
  i_name : string;
  i_gate_ids : list string;
  i_nodes : list gate_ref
}.

Record graph := Graph {
  nodes : list node;
  edges : list edge;
  macros : list macro_instance
}.

(** an item of [dag_flat] *)
Record flat_item := FlatItem {
  f_position : Z;
  f_gate : string;
  f_qubits : list string
}.

(** an item of [dag_hierarchical] *)
Inductive hier_item :=
| HGate (name : string) (qubits : list string) (position : Z)
| HMacro (label : string) (size : Z) (gates : list gate_ref)
         (start_position end_position : Z).

Record position_info := PositionInfo {
  p_start : Z;
  p_end : Z
}.

(** an item of [macros] in the analysis result *)
Record macro_def := MacroDef {
  d_label : string;
  d_count : Z;
  d_window_size : Z;
  d_gates : list gate_ref;
  d_positions : list position_info
}.

(** the integer fields of [statistics] *)
Record statistics := Statistics {
  original_gates : Z;
  transpiled_gates : Z;
  circuit_depth : Z;
  num_qubits : Z;
  num_macros : Z;
  total_macro_instances : Z;
  hierarchical_items : Z;
  dag_nodes : Z;
  dag_edges : Z
}.

Record analysis_result := AnalysisResult {
  dag_flat : list flat_item;
  dag_hierarchical : list hier_item;
  r_macros : list macro_def;
  r_statistics : statistics
}.

(** the locals both builders thread through their loops *)
Record builder := Builder {
  output_nodes : list node;
  output_edges : list edge;
  last_node_on_qubit : gmap string string;
  node_layers : gmap string Z;
  max_gate_layer : Z
}.

Definition empty_builder : builder :=
  {| output_nodes := []; output_edges := [];
     last_node_on_qubit := ∅; node_layers := ∅; max_gate_layer := 0 |}.

(** a loop whose body may raise *)
Fixpoint fold_opt {A B} (f : B → A → option B) (b : B) (l : list A)
  : option B :=
  match l with
  | [] => Some b
  | x :: l' => b' ← f b x; fold_opt f b' l'
  end.

Definition qubit_list (n : Z) : list string :=
  map (λ i, Py.str_int (Z.of_nat i)) (Py.range n).

Definition start_id (q : string) : string := "q_start_" +:+ q.
Definition end_id (q : string) : string := "q_end_" +:+ q.
Definition gate_id (pos : Z) : string := "gate_" +:+ Py.str_int pos.

Definition start_layer : Z := -1.

Definition init_node (q : string) : node :=
  {| n_id := start_id q; n_name := "q" +:+ q +:+ "_init"; n_type := Init;
     n_position := -1; n_qubits := [q]; n_layer := start_layer |}.

Definition add_init_node (b : builder) (q : string) : builder :=
  {| output_nodes := output_nodes b ++ [init_node q];
     output_edges := output_edges b;
     last_node_on_qubit := <[q := start_id q]> (last_node_on_qubit b);
     node_layers := <[start_id q := start_layer]> (node_layers b);
     max_gate_layer := max_gate_layer b |}.

(** the node of a gate before its layer is known *)
Definition gate_node (name : string) (qubits : list string) (pos : Z) : node :=
  {| n_id := gate_id pos; n_name := name; n_type := Gate;
     n_position := pos; n_qubits := qubits; n_layer := 0 |}.

(** one turn of the loop over the qubits of a node: the pair
    [(pred_id, q)] is recorded once, with the layer of [pred_id];
    [node_layers[pred_id]] raises on a missing key *)
Definition add_predecessor (b : builder)
    (acc : list (string * string) * list Z) (q : string)
  : option (list (string * string) * list Z) :=
  match last_node_on_qubit b !! q with
  | Some pred_id =>
      if bool_decide ((pred_id, q) ∈ acc.1) then Some acc
      else
        l ← node_layers b !! pred_id;
        Some (acc.1 ++ [(pred_id, q)], acc.2 ++ [l])
  | None => Some acc
  end.

Definition predecessors (b : builder) (qubits : list string)
  : option (list (string * string) * list Z) :=
  fold_opt (add_predecessor b) ([], []) qubits.

(** [1 + max(predecessor_layers)], or 0 without predecessors *)
Definition layer_of (predecessor_layers : list Z) : Z :=
  match predecessor_layers with
  | [] => 0
  | l :: ls => 1 + foldl Z.max l ls
  end.

Definition with_layer (n : node) (l : Z) : node :=
  {| n_id := n_id n; n_name := n_name n; n_type := n_type n;
     n_position := n_position n; n_qubits := n_qubits n; n_layer := l |}.

Definition edge_to (node_id : string) (p : string * string) : edge :=
  {| e_name := "q" +:+ p.2; e_from := p.1; e_to := node_id; e_qubit := p.2 |}.

(** one turn of the layer loop *)
Definition add_gate_node (b : builder) (n : node) : option builder :=
  preds ← predecessors b (n_qubits n);
  let current_layer := layer_of preds.2 in
  Some {| output_nodes := output_nodes b ++ [with_layer n current_layer];
          output_edges := output_edges b ++ map (edge_to (n_id n)) preds.1;
          last_node_on_qubit :=
            foldl (λ m q, <[q := n_id n]> m) (last_node_on_qubit b) (n_qubits n);
          node_layers := <[n_id n := current_layer]> (node_layers b);
          max_gate_layer := Z.max (max_gate_layer b) current_layer |}.

Definition end_node (q : string) (max_pos end_layer : Z) : node :=
  {| n_id := end_id q; n_name := "q" +:+ q +:+ "_end"; n_type := End;
     n_position := max_pos; n_qubits := [q]; n_layer := end_layer |}.

(** one turn of the loop over the end nodes; [last_node_on_qubit[q]]
    raises on a missing key *)
Definition add_end_node (max_pos end_layer : Z) (b : builder) (q : string)
  : option builder :=
  pred_id ← last_node_on_qubit b !! q;
  Some {| output_nodes := output_nodes b ++ [end_node q max_pos end_layer];
          output_edges := output_edges b ++ [edge_to (end_id q) (pred_id, q)];
          last_node_on_qubit := last_node_on_qubit b;
          node_layers := node_layers b;
          max_gate_layer := max_gate_layer b |}.

(** [(max(positions) if positions else 0) + 1] *)
Definition max_position (hierarchical_nodes : list node) : Z :=
  match map n_position hierarchical_nodes with
  | [] => 0
  | p :: ps => foldl Z.max p ps
  end + 1.

(** sections 1, 3 and 4 of [convert_to_app_circuit_format], which are
    sections 0, 2 and 2.5 of [parse_circuit_dag] *)
Definition build (n_qubits : Z) (hierarchical_nodes : list node)
  : option builder :=
  let b0 := foldl add_init_node empty_builder (qubit_list n_qubits) in
  b1 ← fold_opt add_gate_node b0 hierarchical_nodes;
  fold_opt (add_end_node (max_position hierarchical_nodes)
                         (max_gate_layer b1 + 1))
           b1 (qubit_list n_qubits).

(** the gate ids of the positions [start .. end-1] that are known *)
Definition instance_gate_ids (gate_position_to_id : gmap Z string)
    (start end_ : Z) : list string :=
  omap (λ pos, gate_position_to_id !! pos) (Py.range2 start end_).

Definition convert_macro (gate_position_to_id : gmap Z string)
    (macro_def : macro_def) : list macro_instance :=
  let macro_instances :=
    flat_map
      (λ pos_info,
         let gate_ids :=
           instance_gate_ids gate_position_to_id
             (p_start pos_info) (p_end pos_info) in
         match gate_ids with
         | [] => []
         | _ => [ {| i_name := d_label macro_def; i_gate_ids := gate_ids;
                     i_nodes := d_gates macro_def |} ]
         end)
      (d_positions macro_def) in
  match macro_instances with
  | [] => [ {| i_name := d_label macro_def; i_gate_ids := [];
               i_nodes := d_gates macro_def |} ]
  | _ => macro_instances
  end.

Definition convert_to_app_circuit_format (r : analysis_result)
  : option graph :=
  let hierarchical_nodes :=
    map (λ item, gate_node (f_gate item) (f_qubits item) (f_position item))
        (dag_flat r) in
  let gate_position_to_id : gmap Z string :=
    foldl (λ m item, <[f_position item := gate_id (f_position item)]> m)
          ∅ (dag_flat r) in
  b ← build (num_qubits (r_statistics r)) hierarchical_nodes;
  Some {| nodes := output_nodes b;
          edges := output_edges b;
          macros := flat_map (convert_macro gate_position_to_id) (r_macros r) |}.

Definition parse_macro (gate_position_to_id : gmap Z string)
    (macro_def : macro_def) : list macro_instance :=
  map (λ pos_info,
         {| i_name := d_label macro_def;
            i_gate_ids :=
              instance_gate_ids gate_position_to_id
                (p_start pos_info) (p_end pos_info);
            i_nodes := d_gates macro_def |})
      (d_positions macro_def).

Definition parse_circuit_dag (input_data : analysis_result) : option graph :=
  let gate_position_to_id : gmap Z string :=
    foldl (λ m item,
             if (0 <=? f_position item)%Z
             then <[f_position item := gate_id (f_position item)]> m else m)
          ∅ (dag_flat input_data) in
  let hierarchical_nodes :=
    flat_map (λ item,
                match item with
                | HGate name qubits pos => [gate_node name qubits pos]
                | HMacro _ _ _ _ _ => []
                end)
             (dag_hierarchical input_data) in
  b ← build (num_qubits (r_statistics input_data)) hierarchical_nodes;
  Some {| nodes := output_nodes b;
          edges := output_edges b;
          macros := flat_map (parse_macro gate_position_to_id)
                             (r_macros input_data) |}.

(** [input_data] of [circuit_json_parsing.py] *)
Definition input_data : analysis_result :=
  let u3_cx := [GateRef "u3" ["2"]; GateRef "cx" ["0"; "2"]] in
  {| dag_flat :=
       [ FlatItem 0 "h" ["2"]; FlatItem 1 "cx" ["1"; "2"];
         FlatItem 2 "u3" ["2"]; FlatItem 3 "cx" ["1"; "2"];
         FlatItem 4 "h" ["1"]; FlatItem 5 "u3" ["2"];
         FlatItem 6 "cx" ["0"; "2"]; FlatItem 7 "u3" ["2"];
         FlatItem 8 "cx" ["0"; "2"]; FlatItem 9 "cx" ["0"; "1"];
         FlatItem 10 "u3" ["1"]; FlatItem 11 "cx" ["0"; "1"];
         FlatItem 12 "h" ["0"]; FlatItem 13 "u3" ["1"];
         FlatItem 14 "u3" ["2"] ];
     dag_hierarchical :=
       [ HGate "h" ["2"] 0; HGate "cx" ["1"; "2"] 1;
         HGate "u3" ["2"] 2; HGate "cx" ["1"; "2"] 3;
         HGate "h" ["1"] 4;
         HMacro "EntanglingLayer(2<->0)" 2 u3_cx 5 7;
         HMacro "EntanglingLayer(2<->0)" 2 u3_cx 7 9;
         HGate "cx" ["0"; "1"] 9; HGate "u3" ["1"] 10;
         HGate "cx" ["0"; "1"] 11; HGate "h" ["0"] 12;
         HGate "u3" ["1"] 13; HGate "u3" ["2"] 14 ];
     r_macros :=
       [ {| d_label := "EntanglingLayer(2<->0)"; d_count := 2;
            d_window_size := 2; d_gates := u3_cx;
            d_positions := [PositionInfo 5 7; PositionInfo 7 9] |} ];
     r_statistics :=
       {| original_gates := 15; transpiled_gates := 15; circuit_depth := 12;
          num_qubits := 3; num_macros := 1; total_macro_instances := 2;
          hierarchical_items := 13; dag_nodes := 21; dag_edges := 24 |} |}.

End Graph.

(* ===================================================================== *)
(** ** Vocabulary of the statements *)
(* ===================================================================== *)

Module Spec.

Import Detector.

Definition range_of (c : candidate) : Z * Z := (c_start c, c_end c).

(** no position lies in both half-open ranges *)
Definition disjoint (r1 r2 : Z * Z) : Prop :=
  ∀ p : Z, ¬ ((r1.1 ≤ p < r1.2)%Z ∧ (r2.1 ≤ p < r2.2)%Z).

(** the interval test as the documentation words it *)
Definition apart (r1 r2 : Z * Z) : Prop :=
  (r1.2 ≤ r2.1)%Z ∨ (r2.2 ≤ r1.1)%Z.

(** [R] holds between every two items at different places of the list *)
Fixpoint pairwise {A} (R : A → A → Prop) (l : list A) : Prop :=
  match l with
  | [] => True
  | x :: l' => Forall (R x) l' ∧ pairwise R l'
  end.

(** order of the candidates: larger windows first and, among windows of
    one size, the smaller start first *)
Definition size_then_smaller_start (c1 c2 : candidate) : Prop :=
  (c_size c2 < c_size c1)%Z
  ∨ (c_size c1 = c_size c2 ∧ c_start c1 ≤ c_start c2)%Z.

(** the same with the larger start first *)
Definition size_then_larger_start (c1 c2 : candidate) : Prop :=
  (c_size c2 < c_size c1)%Z
  ∨ (c_size c1 = c_size c2 ∧ c_start c2 ≤ c_start c1)%Z.

(** the order [sorted] leaves a list in: no item has to come strictly
    before one that precedes it *)
Definition not_after {A} (before : A → A → bool) (x y : A) : Prop :=
  before y x = false.

(** every item stands in [R] to every later item *)
Definition ordered_by {A} (R : A → A → Prop) (l : list A) : Prop :=
  ∀ (i j : nat) (x y : A),
    (i < j)%nat → l !! i = Some x → l !! j = Some y → R x y.

(** ranges in left-to-right order of their starts *)
Definition by_start (a b : Z * Z) : Prop := (a.1 < b.1)%Z.

(** a group of windows of size [w] whose starts are below [bound], in
    scan order *)
Definition group_ok (w : Z) (bound : nat) (ps : list (Z * Z)) : Prop :=
  ps ≠ [] ∧ StronglySorted by_start ps
  ∧ ∀ p, p ∈ ps →
      ∃ i : nat, p = (Z.of_nat i, Z.of_nat i + w)%Z ∧ (i < bound)%nat.

(** what [detect_patterns] stores under a hash for the sequence [ops]:
    windows of one size inside the sequence, in scan order, at least
    [min_repetitions] of them, with the slice at the first one as
    template *)
Definition pattern_ok (self : config) (ops : list operation)
    (info : pattern_info) : Prop :=
  ∃ first rest,
    p_positions info = first :: rest
    ∧ p_sequence info = Py.slice ops (Z.to_nat first.1) (Z.to_nat first.2)
    ∧ p_count info = Z.of_nat (length (p_positions info))
    ∧ (min_repetitions self ≤ p_count info)%Z
    ∧ StronglySorted by_start (p_positions info)
    ∧ (2 ≤ p_window_size info)%Z
    ∧ Forall (λ p, (0 ≤ p.1 ∧ p.2 = p.1 + p_window_size info
                    ∧ p.2 ≤ Z.of_nat (length ops))%Z)
             (p_positions info).

(** the candidate made of one position of a pattern *)
Definition candidate_of (h : string) (info : pattern_info) (p : Z * Z)
  : candidate :=
  {| c_hash := h; c_sequence := p_sequence info;
     c_start := p.1; c_end := p.2;
     c_window_size := p_window_size info; c_size := (p.2 - p.1)%Z |}.

(** the candidates of one pattern among [cands], in order *)
Definition group_of (k : string) (cands : list candidate) : list candidate :=
  filter (λ c, c_hash c = k) cands.

(** all the position ranges of a list of macros, in order *)
Definition all_ranges (ms : list macro) : list (Z * Z) :=
  flat_map m_positions ms.

(** the names of the gates of a sequence *)
Definition names (sequence : list operation) : list string :=
  map gate_name sequence.

(** how many gates of the sequence are phase-like (cp, crz, cu1, cz, p) *)
Definition phase_count (sequence : list operation) : nat :=
  length (filter (λ g, g ∈ Labeler.phase_gates) (names sequence)).

(** the three conditions the QFT rule is described with: a Hadamard, more
    than three tenths of phase-like gates, a Hadamard among the first
    three operations *)
Definition qft_conditions (sequence : list operation) : Prop :=
  "h" ∈ names sequence
  ∧ (3 * Z.of_nat (length sequence) < 10 * Z.of_nat (phase_count sequence))%Z
  ∧ "h" ∈ take 3 (names sequence).

Definition qft_label (sequence : list operation) : string :=
  "QFT Circuit Segment"
  +:+ (if bool_decide ("swap" ∈ names sequence)
       then " (with SWAP Layer)" else "").

End Spec.

Module GraphSpec.

Import Graph.

#[global] Instance node_type_eq_dec : EqDecision node_type.
Proof. solve_decision. Defined.

Definition nodes_of_type (t : node_type) (g : graph) : list node :=
  filter (λ nd, n_type nd = t) (nodes g).

(** the nodes of one type that sit on the single qubit [q] *)
Definition boundary_nodes (t : node_type) (q : string) (g : graph) : list node :=
  filter (λ nd, n_type nd = t ∧ n_qubits nd = [q]) (nodes g).

Definition id_layers (t : node_type) (g : graph) : list (string * Z) :=
  map (λ nd, (n_id nd, n_layer nd)) (nodes_of_type t g).

(** the layer of the node with a given id *)
Definition node_layer (g : graph) (id : string) : option Z :=
  n_layer <$> head (filter (λ nd, n_id nd = id) (nodes g)).

(** the edges that arrive at a node *)
Definition incoming (g : graph) (v : node) : list edge :=
  filter (λ e, e_to e = n_id v) (edges g).

(** the layers of the predecessors of a node, edge by edge *)
Definition pred_layers (g : graph) (v : node) : list Z :=
  omap (λ e, node_layer g (e_from e)) (incoming g v).

(** the largest layer of a gate node, 0 when there is none below *)
Definition top_gate_layer (g : graph) : Z :=
  foldl Z.max 0 (map n_layer (nodes_of_type Gate g)).

(** the layers of the gate nodes that touch qubit [q] *)
Definition touching_layers (g : graph) (q : string) : list Z :=
  map n_layer (filter (λ nd, n_type nd = Gate ∧ q ∈ n_qubits nd) (nodes g)).

(** one more than the largest layer of a gate on [q], or than -1 *)
Definition per_qubit_end_layer (g : graph) (q : string) : Z :=
  1 + foldl Z.max (-1) (touching_layers g q).

(** every edge climbs at least one layer *)
Definition edges_climb (g : graph) : Prop :=
  ∀ e, e ∈ edges g →
    ∃ lu lv, node_layer g (e_from e) = Some lu
             ∧ node_layer g (e_to e) = Some lv ∧ (1 + lu ≤ lv)%Z.

(** every last node of a qubit has its layer recorded *)
Definition wf (b : builder) : Prop :=
  ∀ q id, last_node_on_qubit b !! q = Some id → is_Some (node_layers b !! id).

(** the qubits of [qs] all have a last node *)
Definition covers (qs : list string) (b : builder) : Prop :=
  ∀ q, q ∈ qs → is_Some (last_node_on_qubit b !! q).

(** [g] is [h] with its layer filled in *)
Definition layer_filled (g h : node) : Prop := ∃ l, g = with_layer h l.

(** the predecessor pairs found for a node and their layers *)
Definition preds_ok (b : builder) (qubits : list string)
    (preds : list (string * string) * list Z) : Prop :=
  Forall2 (λ p l, node_layers b !! p.1 = Some l) preds.1 preds.2
  ∧ NoDup preds.1
  ∧ ∀ p, p ∈ preds.1 → last_node_on_qubit b !! p.2 = Some p.1 ∧ p.2 ∈ qubits.

(** the bookkeeping of the builder agrees with the nodes and edges emitted
    so far: ids are distinct, [node_layers] holds the layer of exactly the
    emitted nodes, every edge climbs, no layer exceeds [max_gate_layer], and
    a gate node is one layer above the highest of its predecessors *)
Definition layered (b : builder) : Prop :=
  NoDup (map n_id (output_nodes b))
  ∧ (∀ nd, nd ∈ output_nodes b → node_layers b !! n_id nd = Some (n_layer nd))
  ∧ (∀ id, is_Some (node_layers b !! id) → id ∈ map n_id (output_nodes b))
  ∧ (∀ e, e ∈ output_edges b →
       ∃ lu lv, node_layers b !! e_from e = Some lu
                ∧ node_layers b !! e_to e = Some lv ∧ (1 + lu ≤ lv)%Z)
  ∧ (∀ id l, node_layers b !! id = Some l → (l ≤ max_gate_layer b)%Z)
  ∧ (∀ nd, nd ∈ output_nodes b → n_type nd = Gate →
       n_layer nd
       = layer_of (omap (λ e, node_layers b !! e_from e)
                        (filter (λ e, e_to e = n_id nd) (output_edges b)))).

(** the layering of a finished graph: distinct ids, climbing edges, gate
    nodes one layer above the highest of their predecessors (layer 0 without
    predecessor), end nodes one layer above the top gate layer *)
Definition layering_ok (g : graph) : Prop :=
  NoDup (map n_id (nodes g))
  ∧ edges_climb g
  ∧ (∀ v, v ∈ nodes g → n_type v = Gate →
       n_layer v = layer_of (pred_layers g v))
  ∧ (∀ v, v ∈ nodes g → n_type v = End →
       n_layer v = (top_gate_layer g + 1)%Z).

(** the positions of the gate items of [dag_hierarchical] *)
Definition gate_positions (items : list hier_item) : list Z :=
  flat_map (λ item,
              match item with
              | HGate _ _ pos => [pos]
              | HMacro _ _ _ _ _ => []
              end) items.

(** equality along an edge, as stated: whenever the predecessors of the
    target all have one layer, the target is exactly one layer above *)
Definition equality_as_stated (g : graph) : Prop :=
  ∀ e v lu,
    e ∈ edges g → v ∈ nodes g → n_id v = e_to e →
    node_layer g (e_from e) = Some lu →
    (∀ l1 l2, l1 ∈ pred_layers g v → l2 ∈ pred_layers g v → l1 = l2) →
    n_layer v = (1 + lu)%Z.

(** what the sample run is said to give: boundary nodes at layers -1 and 13
    and 21 nodes *)
Definition fixture_as_stated (g : graph) : Prop :=
  id_layers Init g = [("q_start_0", -1); ("q_start_1", -1); ("q_start_2", -1)]%Z
  ∧ id_layers End g = [("q_end_0", 13); ("q_end_1", 13); ("q_end_2", 13)]%Z
  ∧ length (nodes g) = 21%nat.

End GraphSpec.

(* ===================================================================== *)
(** ** Concrete inputs *)
(* ===================================================================== *)

Module Inputs.

Import Detector.

Definition gate (name : string) (qs : list string) : operation :=
  {| gate_name := name; qubits := qs; params := [] |}.

(** one pattern with two occurrences of the same size *)
Definition two_windows : list (string * pattern_info) :=
  [ ("a", {| p_sequence := [gate "h" ["0"]; gate "x" ["0"]];
             p_positions := [(0, 2); (4, 6)]%Z;
             p_window_size := 2; p_count := 2 |}) ].

Definition window_at (start : Z) : candidate :=
  {| c_hash := "a"; c_sequence := [gate "h" ["0"]; gate "x" ["0"]];
     c_start := start; c_end := start + 2; c_window_size := 2; c_size := 2 |}.

(** a window [c c a] that occurs twice and a window [a b] whose first
    occurrence overlaps it *)
Definition shadowed_first : list operation :=
  [ gate "c" ["0"]; gate "c" ["0"]; gate "a" ["0"]; gate "b" ["0"];
    gate "c" ["0"]; gate "c" ["0"]; gate "a" ["0"]; gate "d" ["0"];
    gate "a" ["0"]; gate "b" ["0"]; gate "a" ["0"]; gate "b" ["0"] ].


(** [h(0), cp(0,1), cp(0,2), h(1), cp(1,2), h(2)] *)
Definition qft3 : list operation :=
  [ gate "h" ["0"]; gate "cp" ["0"; "1"]; gate "cp" ["0"; "2"];
    gate "h" ["1"]; gate "cp" ["1"; "2"]; gate "h" ["2"] ].

(** a Hadamard and a phase gate on one qubit *)
Definition h_p_one_qubit : list operation :=
  [ gate "h" ["0"]; gate "p" ["0"] ].

Definition no_macro : macro :=
  {| m_hash := ""; m_sequence := []; m_positions := [];
     m_count := 0; m_window_size := 0 |}.

(** two qubits and a single Hadamard on the first *)
Definition one_gate_two_qubits : Graph.analysis_result :=
  {| Graph.dag_flat := [Graph.FlatItem 0 "h" ["0"]];
     Graph.dag_hierarchical := [Graph.HGate "h" ["0"] 0];
     Graph.r_macros := [];
     Graph.r_statistics :=
       {| Graph.original_gates := 1; Graph.transpiled_gates := 1;
          Graph.circuit_depth := 1; Graph.num_qubits := 2;
          Graph.num_macros := 0; Graph.total_macro_instances := 0;
          Graph.hierarchical_items := 1; Graph.dag_nodes := 5;
          Graph.dag_edges := 3 |} |}.

End Inputs.



(* ===================================================================== *)
(** ** Vocabulary of the further properties *)
(* ===================================================================== *)

Module DetectorSpec.

Import Detector.

(** the starts of the windows of size [w] that hash to [h], left to right *)
Definition window_starts (ops : list operation) (w : Z) (h : string)
  : list nat :=
  filter (λ i, hash_sequence (Py.slice ops i (i + Z.to_nat w)) = h)
         (Py.range (Z.of_nat (length ops) - w + 1)).

Definition window_at (w : Z) (i : nat) : Z * Z :=
  (Z.of_nat i, Z.of_nat i + w)%Z.

(** the position ranges of those windows *)
Definition windows_with_hash (ops : list operation) (w : Z) (h : string)
  : list (Z * Z) :=
  map (window_at w) (window_starts ops w h).

(** order of two keys [(count, window_size)]: the first is not smaller *)
Definition key_not_smaller (a b : Z * Z) : Prop :=
  (b.1 < a.1)%Z ∨ (a.1 = b.1 ∧ b.2 ≤ a.2)%Z.

(** two operations that differ at most in the order of their qubits *)
Definition same_up_to_qubit_order (a b : operation) : Prop :=
  gate_name a = gate_name b ∧ qubits a ≡ₚ qubits b ∧ params a = params b.

End DetectorSpec.


(** ** What the labels are stated against *)

Module LabelerSpec.

Import Detector Labeler.

(** every gate of the sequence is named [g] *)
Definition only_gate (g : string) (seq : list operation) : Prop :=
  Forall (λ gate, gate_name gate = g) seq.

(** the integer qubits the gates of a sequence act on, gate by gate *)
Definition touched (seq : list operation) : list Z :=
  flat_map (λ gate, qubit_indices (qubits gate)) seq.

Definition fixed_labels : list string :=
  [ "QFT Circuit Segment"; "QFT Circuit Segment (with SWAP Layer)";
    "Grover Diffusion/Oracle Block";
    "CNOT Pair"; "CNOT Chain"; "CNOT Ladder"; "Swap Network";
    "Hadamard Layer"; "Hadamard Ladder";
    "Rotation-Entangling Block"; "Mixed Rotation Block";
    "CZ Ladder"; "CZ Gate";
    "Entangling Pair"; "Linear Entangling Chain"; "Star Entangling Pattern";
    "Entangling Block"; "Hadamard-Entangling Block"; "Multi-Qubit Block";
    "Two-Qubit Block";
    "Macro Block"; "Hadamard Block"; "Single Qubit Layer"; "CZ Pair";
    "Rotation Block" ].

Definition axis_suffixes : list string :=
  [ " Rotation Block"; " Rotation with CNOT Pair";
    " Rotation with Entangling Layer"; " Rotation Pair";
    " Rotation with Linear Entangling"; " Rotation with Entangling" ].

(** the labels [label_macro] chooses from: the fixed ones, an axis rotation
    in upper case before one of the rotation suffixes, and any rotation gate
    in upper case before " Rotation Block" *)
Definition vocabulary : list string :=
  fixed_labels
  ++ flat_map (λ r, map (λ s, Py.upper r +:+ s) axis_suffixes) axis_rotations
  ++ map (λ r, Py.upper r +:+ " Rotation Block") rotation_gates.

End LabelerSpec.

(** ** What the graph builders are stated against *)

Module WireSpec.

Import Graph.

(** the pairs of neighbours of a list *)
Fixpoint consecutive {A} (l : list A) : list (A * A) :=
  match l with
  | [] => []
  | x :: rest =>
      match rest with
      | [] => []
      | y :: _ => (x, y) :: consecutive rest
      end
  end.

(** the edges of qubit [q] as pairs of node ids, in output order *)
Definition wire (q : string) (g : graph) : list (string * string) :=
  map (λ e, (e_from e, e_to e)) (filter (λ e, e_qubit e = q) (edges g)).

(** the ids of the nodes that act on [q] *)
Definition gates_on (q : string) (hn : list node) : list string :=
  map n_id (filter (λ nd, q ∈ n_qubits nd) hn).

(** the gate nodes [convert_to_app_circuit_format] starts from *)
Definition flat_nodes (r : analysis_result) : list node :=
  map (λ item, gate_node (f_gate item) (f_qubits item) (f_position item))
      (dag_flat r).

(** the gate nodes [parse_circuit_dag] starts from *)
Definition hier_nodes (r : analysis_result) : list node :=
  flat_map (λ item,
              match item with
              | HGate name qubits pos => [gate_node name qubits pos]
              | HMacro _ _ _ _ _ => []
              end)
           (dag_hierarchical r).

(** the path of a qubit: from its init node through the gates on it to its
    end node; a qubit that is not among the first [n] has neither *)
Definition path (n : Z) (q : string) (hn : list node) : list string :=
  (if decide (q ∈ qubit_list n) then [start_id q] else [])
  ++ gates_on q hn
  ++ (if decide (q ∈ qubit_list n) then [end_id q] else []).

(** the node list of a graph built from the gate nodes [hn]: the init
    nodes, the gate nodes in order with a layer from 0 below the end layer,
    the end nodes at a position beyond every gate *)
Definition laid_out (n : Z) (hn : list node) (g : graph) : Prop :=
  ∃ gl max_pos end_layer,
    nodes g = map init_node (qubit_list n) ++ gl
              ++ map (λ q, end_node q max_pos end_layer) (qubit_list n)
    ∧ Forall2 (λ nd h, nd = with_layer h (n_layer nd)
                       ∧ (0 ≤ n_layer nd < end_layer)%Z
                       ∧ (n_position nd < max_pos)%Z) gl hn.

(** the gate nodes of a graph *)
Definition gate_node_ids (g : graph) : list string :=
  map n_id (filter (λ nd, n_type nd = Gate) (nodes g)).

End WireSpec.

(* ===================================================================== *)
(** ** From the operations to the analysis result *)
(* ===================================================================== *)

Module Pipeline.

Import Detector Graph.

(** a macro of the returned list once [analyze_circuit] has stored its
    label in it *)
Record labelled := Labelled {
  l_macro : macro;
  l_label : string
}.

(** how a loop ends within a number of turns *)
Inductive outcome (A : Type) :=
| Returns (a : A)
| Raises
| OutOfFuel.

Arguments Returns {A} a.
Arguments Raises {A}.
Arguments OutOfFuel {A}.

(** [l[i]]: a negative index counts from the end, an index out of range
    raises *)
Definition py_index {A} (l : list A) (i : Z) : option A :=
  if (0 <=? i)%Z then l !! Z.to_nat i
  else if (- Z.of_nat (length l) <=? i)%Z
       then l !! Z.to_nat (Z.of_nat (length l) + i)
       else None.

(** one turn of the loops that fill [start_to_macro]: a start keeps the
    first of its longest ranges *)
Definition record_start (m : labelled) (d : gmap Z (labelled * Z))
    (pos : Z * Z) : gmap Z (labelled * Z) :=
  match d !! pos.1 with
  | None => <[pos.1 := (m, pos.2)]> d
  | Some known =>
      if (known.2 - pos.1 <? pos.2 - pos.1)%Z
      then <[pos.1 := (m, pos.2)]> d
      else d
  end.

Definition start_to_macro (macros : list labelled) : gmap Z (labelled * Z) :=
  foldl (λ d m, foldl (record_start m) d (m_positions (l_macro m))) ∅ macros.

(** [[{'name': g[0], 'qubits': list(g[1])} for g in sequence]] *)
Definition gate_refs (sequence : list operation) : list gate_ref :=
  map (λ g, GateRef (gate_name g) (qubits g)) sequence.

Definition macro_item (m : labelled) (i macro_end : Z) : hier_item :=
  HMacro (l_label m) (macro_end - i) (gate_refs (m_sequence (l_macro m)))
         i macro_end.

(** the [while] loop of [create_hierarchical_view], for at most [fuel]
    turns *)
Fixpoint view_loop (fuel : nat) (ops_sequence : list operation)
    (start_to_macro : gmap Z (labelled * Z)) (i : Z) (view : list hier_item)
  : outcome (list hier_item) :=
  match fuel with
  | O => OutOfFuel
  | S fuel' =>
      if (i <? Z.of_nat (length ops_sequence))%Z then
        match start_to_macro !! i with
        | Some (m, macro_end) =>
            view_loop fuel' ops_sequence start_to_macro macro_end
                      (view ++ [macro_item m i macro_end])
        | None =>
            match py_index ops_sequence i with
            | Some op =>
                view_loop fuel' ops_sequence start_to_macro (i + 1)
                          (view ++ [HGate (gate_name op) (qubits op) i])
            | None => Raises
            end
        end
      else Returns view
  end.

Definition create_hierarchical_view (fuel : nat)
    (ops_sequence : list operation) (macros : list labelled)
  : outcome (list hier_item) :=
  view_loop fuel ops_sequence (start_to_macro macros) 0 [].

(** step 6 of [analyze_circuit] *)
Definition flat_items (ops_sequence : list operation) : list flat_item :=
  imap (λ i op, FlatItem (Z.of_nat i) (gate_name op) (qubits op)) ops_sequence.

(** step 7 of [analyze_circuit] *)
Definition serialize (m : labelled) : macro_def :=
  {| d_label := l_label m;
     d_count := m_count (l_macro m);
     d_window_size := m_window_size (l_macro m);
     d_gates := gate_refs (m_sequence (l_macro m));
     d_positions :=
       map (λ pos, PositionInfo pos.1 pos.2) (m_positions (l_macro m)) |}.

(** what steps 1 and 2 of [analyze_circuit] take from the transpiled
    circuit besides the operations *)
Record transpiled := Transpiled {
  t_gates : Z;
  t_depth : Z;
  t_num_qubits : Z;
  t_dag_nodes : Z;
  t_dag_edges : Z
}.

(** step 4 of [analyze_circuit] *)
Definition label_macros (macros : list macro) : list labelled :=
  map (λ m, Labelled m (Labeler.label_macro m (m_sequence m))) macros.

(** steps 3 to 8 of [analyze_circuit] on the operations of the transpiled
    circuit; the ratio of the statistics, a float, is left out *)
Definition analyze_circuit (fuel : nat) (t : transpiled)
    (ops_sequence : list operation) (min_repetitions max_window_size : Z)
  : outcome analysis_result :=
  let detector := Config min_repetitions max_window_size in
  let patterns := detect_patterns detector ops_sequence in
  let macros :=
    label_macros (find_non_overlapping_macros detector patterns) in
  match create_hierarchical_view fuel ops_sequence macros with
  | Returns hierarchical_view =>
      Returns
        {| dag_flat := flat_items ops_sequence;
           dag_hierarchical := hierarchical_view;
           r_macros := map serialize macros;
           r_statistics :=
             {| original_gates := Z.of_nat (length ops_sequence);
                transpiled_gates := t_gates t;
                circuit_depth := t_depth t;
                num_qubits := t_num_qubits t;
                num_macros := Z.of_nat (length macros);
                total_macro_instances :=
                  foldl Z.add 0%Z (map (λ m, m_count (l_macro m)) macros);
                hierarchical_items := Z.of_nat (length hierarchical_view);
                dag_nodes := t_dag_nodes t;
                dag_edges := t_dag_edges t |} |}
  | Raises => Raises
  | OutOfFuel => OutOfFuel
  end.

End Pipeline.

(** ** What the pipeline is stated against *)

Module PipelineSpec.

Import Detector Graph Pipeline.

(** the positions an item of the view stands for, as a half-open range *)
Definition span (item : hier_item) : Z * Z :=
  match item with
  | HGate _ _ pos => (pos, pos + 1)%Z
  | HMacro _ _ _ s e => (s, e)
  end.

(** the ranges follow one another from [from] to [to], none empty *)
Fixpoint tiles (from to : Z) (spans : list (Z * Z)) : Prop :=
  match spans with
  | [] => from = to
  | r :: rest => r.1 = from ∧ (r.1 < r.2)%Z ∧ tiles r.2 to rest
  end.

(** the ranges of the macro items of a view, in order *)
Definition macro_spans (view : list hier_item) : list (Z * Z) :=
  flat_map (λ item,
              match item with
              | HGate _ _ _ => []
              | HMacro _ _ _ s e => [(s, e)]
              end) view.

(** every position of every macro is a non-empty range inside the
    sequence *)
Definition positions_inside (len : nat) (macros : list labelled) : Prop :=
  ∀ m p, m ∈ macros → p ∈ m_positions (l_macro m) →
    (0 ≤ p.1)%Z ∧ (p.1 < p.2 ≤ Z.of_nat len)%Z.

(** an item of the view against the operations and the macros: a gate item
    is the operation at its position; a macro item stands for a position of
    a macro that has no longer position at the same start, and carries the
    label and the gates of that macro *)
Definition item_ok (ops : list operation) (macros : list labelled)
    (item : hier_item) : Prop :=
  match item with
  | HGate name qs pos =>
      (0 ≤ pos)%Z
      ∧ ∃ op, ops !! Z.to_nat pos = Some op
              ∧ name = gate_name op ∧ qs = qubits op
  | HMacro label size gates s e =>
      size = (e - s)%Z
      ∧ (∃ m, m ∈ macros ∧ (s, e) ∈ m_positions (l_macro m)
              ∧ label = l_label m
              ∧ gates = gate_refs (m_sequence (l_macro m)))
      ∧ ∀ m' e', m' ∈ macros → (s, e') ∈ m_positions (l_macro m') →
                 (e' ≤ e)%Z
  end.

(** the ranges of the macros, macro after macro *)
Definition macro_ranges (macros : list labelled) : list (Z * Z) :=
  flat_map (λ m, m_positions (l_macro m)) macros.

(** the ranges of the serialized macros *)
Definition def_ranges (defs : list macro_def) : list (Z * Z) :=
  flat_map (λ d, map (λ p, (p_start p, p_end p)) (d_positions d)) defs.

(** the positions a list of ranges takes out of a view: each range
    stands for one item *)
Definition range_savings (ranges : list (Z * Z)) : Z :=
  foldr (λ r acc, (r.2 - r.1 - 1) + acc)%Z 0%Z ranges.

(** the same from the serialized macros: [count] occurrences each
    replace [window_size] gates by one item *)
Definition saved_by (defs : list macro_def) : Z :=
  foldr (λ d acc, d_count d * (d_window_size d - 1) + acc)%Z 0%Z defs.

(** one entry for each position of each macro, listing the gate ids of
    the positions it covers *)
Definition overlay (defs : list macro_def) : list macro_instance :=
  flat_map
    (λ d, map (λ p, {| i_name := d_label d;
                       i_gate_ids :=
                         map gate_id (Py.range2 (p_start p) (p_end p));
                       i_nodes := d_gates d |})
              (d_positions d))
    defs.

(** a serialized macro as the tests of the repository check it, and as
    the detector bounds it *)
Definition def_ok (min_repetitions max_window_size : Z) (len : nat)
    (d : macro_def) : Prop :=
  d_count d = Z.of_nat (length (d_positions d))
  ∧ d_window_size d = Z.of_nat (length (d_gates d))
  ∧ (min_repetitions ≤ d_count d)%Z ∧ (1 ≤ d_count d)%Z
  ∧ (2 ≤ d_window_size d ≤ max_window_size)%Z
  ∧ d_label d ∈ LabelerSpec.vocabulary
  ∧ ∀ p, p ∈ d_positions d →
      (0 ≤ p_start p)%Z ∧ p_end p = (p_start p + d_window_size d)%Z
      ∧ (p_end p ≤ Z.of_nat len)%Z.

(** an analysis result as [analyze_circuit] makes it: the flat items
    stand at the positions 0, 1, ..., the hierarchical view tiles these
    positions, its macro items are the positions of the macros, and every
    macro has a position *)
Definition well_formed (r : analysis_result) : Prop :=
  map f_position (dag_flat r) = map Z.of_nat (seq 0 (length (dag_flat r)))
  ∧ tiles 0 (Z.of_nat (length (dag_flat r))) (map span (dag_hierarchical r))
  ∧ macro_spans (dag_hierarchical r) ≡ₚ def_ranges (r_macros r)
  ∧ ∀ d, d ∈ r_macros r → d_positions d ≠ [].

(** the two graphs of an analysis result: both are layered; both list one
    macro entry per occurrence, with the gate ids of the positions it
    covers; these ids are gate nodes of the first graph and no nodes of the
    second, which leaves the collapsed gates out *)
Definition graphs_of (r : analysis_result) (g g' : graph) : Prop :=
  convert_to_app_circuit_format r = Some g
  ∧ parse_circuit_dag r = Some g'
  ∧ GraphSpec.layering_ok g ∧ GraphSpec.layering_ok g'
  ∧ macros g = overlay (r_macros r) ∧ macros g' = overlay (r_macros r)
  ∧ ∀ inst id, inst ∈ overlay (r_macros r) → id ∈ i_gate_ids inst →
      id ∈ WireSpec.gate_node_ids g ∧ id ∉ map n_id (nodes g').

End PipelineSpec.

Module PipelineInputs.

Import Detector Pipeline.

(** [h x h x y] on one qubit *)
Definition h_x_twice : list operation :=
  [ Inputs.gate "h" ["0"]; Inputs.gate "x" ["0"]; Inputs.gate "h" ["0"];
    Inputs.gate "x" ["0"]; Inputs.gate "y" ["0"] ].

Definition h_x_at (positions : list (Z * Z)) : labelled :=
  {| l_macro :=
       {| m_hash := "b4729e816ac658ca2df2d7b831bf3ea3";
          m_sequence := [Inputs.gate "h" ["0"]; Inputs.gate "x" ["0"]];
          m_positions := positions;
          m_count := Z.of_nat (length positions);
          m_window_size := 2 |};
     l_label := "Hadamard Block" |}.

Definition no_numbers : transpiled :=
  {| t_gates := 5; t_depth := 5; t_num_qubits := 1;
     t_dag_nodes := 7; t_dag_edges := 6 |}.

End PipelineInputs.
Example md5_empty : MD5.hexdigest "" = "d41d8cd98f00b204e9800998ecf8427e".
Proof. vm_compute. reflexivity. Qed.

Example md5_abc : MD5.hexdigest "abc" = "900150983cd24fb0d6963f7d28e17f72".
Proof. vm_compute. reflexivity. Qed.

Example md5_two_blocks :
  MD5.hexdigest
    "aaaaaaaaaaaaaaaaaaaaaaaaaaaaaaaaaaaaaaaaaaaaaaaaaaaaaaaaaaaaaaaaaaaaaa"
  = "0f5c6c4e740bfcc08c3c26ccb2673d46".
Proof. vm_compute. reflexivity. Qed.

(* ===================================================================== *)
(** ** Facts about the Python built-ins *)
(* ===================================================================== *)

Section sorted_facts.

Context {A : Type} (before : A → A → bool).

Lemma insert_stable_perm x l : Py.insert_stable before x l ≡ₚ x :: l.
Proof.
  induction l as [|y l IH]; simpl; [done|].
  destruct (before x y); [done|].
  rewrite IH. apply Permutation_swap.
Qed.

Lemma sorted_from_perm acc l :
  foldl (λ acc x, Py.insert_stable before x acc) acc l ≡ₚ acc ++ l.
Proof.
  revert acc. induction l as [|x l IH]; intros acc; simpl.
  - by rewrite app_nil_r.
  - rewrite IH, insert_stable_perm. simpl. apply Permutation_middle.
Qed.

Lemma sorted_perm l : Py.sorted before l ≡ₚ l.
Proof. unfold Py.sorted. by rewrite sorted_from_perm. Qed.

Lemma sorted_elem_of x l : x ∈ Py.sorted before l ↔ x ∈ l.
Proof. by rewrite sorted_perm. Qed.

Lemma sorted_nil : Py.sorted before [] = [].
Proof. reflexivity. Qed.

Lemma sorted_eq_nil l : Py.sorted before l = [] → l = [].
Proof.
  intros H. apply Permutation_nil_r. rewrite <- H. symmetry. apply sorted_perm.
Qed.

Hypothesis before_asym : ∀ x y, before x y = true → before y x = false.
Hypothesis before_trans :
  ∀ x y z, before x y = true → before y z = true → before x z = true.

Lemma insert_stable_sorted x l :
  StronglySorted (Spec.not_after before) l →
  StronglySorted (Spec.not_after before) (Py.insert_stable before x l).
Proof.
  induction l as [|y l IH]; simpl; intros Hs.
  - repeat constructor.
  - apply StronglySorted_cons in Hs as [Hy Hl].
    destruct (before x y) eqn:Hxy.
    + apply StronglySorted_cons. split.
      * constructor; [by apply before_asym|].
        eapply Forall_impl; [exact Hy|]. intros w Hw. unfold Spec.not_after in *.
        destruct (before w x) eqn:Hwx; [|done].
        by rewrite (before_trans _ _ _ Hwx Hxy) in Hw.
      * apply StronglySorted_cons. by split.
    + apply StronglySorted_cons. split; [|by apply IH].
      rewrite insert_stable_perm. by constructor.
Qed.

Lemma sorted_from_sorted acc l :
  StronglySorted (Spec.not_after before) acc →
  StronglySorted (Spec.not_after before)
    (foldl (λ acc x, Py.insert_stable before x acc) acc l).
Proof.
  revert acc. induction l as [|x l IH]; intros acc Hacc; simpl; [done|].
  by apply IH, insert_stable_sorted.
Qed.

Lemma sorted_sorted l : StronglySorted (Spec.not_after before) (Py.sorted before l).
Proof. apply sorted_from_sorted. constructor. Qed.

End sorted_facts.

Lemma pair_ltb_spec a b :
  Py.pair_ltb a b = true ↔ (a.1 < b.1 ∨ (a.1 = b.1 ∧ a.2 < b.2))%Z.
Proof.
  unfold Py.pair_ltb.
  rewrite orb_true_iff, andb_true_iff, !Z.ltb_lt, Z.eqb_eq. tauto.
Qed.

Lemma pair_ltb_false a b :
  Py.pair_ltb a b = false ↔ (b.1 < a.1 ∨ (a.1 = b.1 ∧ b.2 ≤ a.2))%Z.
Proof.
  destruct (Py.pair_ltb a b) eqn:H.
  - apply pair_ltb_spec in H. split; [done|lia].
  - split; [intros _|done].
    destruct (decide (b.1 < a.1)%Z); [by left|right].
    destruct (decide (a.1 = b.1)%Z) as [Heq|Hne].
    + split; [done|]. destruct (decide (b.2 ≤ a.2)%Z); [done|].
      assert (Py.pair_ltb a b = true) by (apply pair_ltb_spec; lia). congruence.
    + assert (Py.pair_ltb a b = true) by (apply pair_ltb_spec; lia). congruence.
Qed.

Section key_order.

Context {A : Type} (key : A → Z * Z).

Lemma descending_asym x y :
  Py.descending key x y = true → Py.descending key y x = false.
Proof.
  unfold Py.descending. rewrite pair_ltb_spec, pair_ltb_false. lia.
Qed.

Lemma descending_trans x y z :
  Py.descending key x y = true → Py.descending key y z = true →
  Py.descending key x z = true.
Proof. unfold Py.descending. rewrite !pair_ltb_spec. lia. Qed.

Lemma sorted_descending l :
  StronglySorted (λ x y, Py.pair_ltb (key x) (key y) = false)
    (Py.sorted (Py.descending key) l).
Proof.
  apply (sorted_sorted (Py.descending key) descending_asym descending_trans).
Qed.

End key_order.

Lemma StronglySorted_lookup {A} (R : A → A → Prop) (l : list A) i j x y :
  StronglySorted R l → (i < j)%nat → l !! i = Some x → l !! j = Some y → R x y.
Proof.
  intros Hs. revert i j. induction Hs as [|z l Hs IH Hall]; intros i j Hij Hi Hj.
  - done.
  - destruct j as [|j]; [lia|]. destruct i as [|i]; simpl in *.
    + simplify_eq. rewrite Forall_forall in Hall. apply Hall.
      by eapply list_elem_of_lookup_2.
    + eapply (IH i j); [lia|done..].
Qed.

(* ===================================================================== *)
(** ** The greedy selection *)
(* ===================================================================== *)

Import Detector.

Lemma ranges_overlap_false s1 e1 s2 e2 :
  ranges_overlap s1 e1 s2 e2 = false ↔ (e1 ≤ s2 ∨ e2 ≤ s1)%Z.
Proof.
  unfold ranges_overlap.
  rewrite negb_false_iff, orb_true_iff, !Z.leb_le. tauto.
Qed.

Lemma overlaps_used_false c used :
  overlaps_used c used = false ↔ ∀ r, r ∈ used → Spec.apart (Spec.range_of c) r.
Proof.
  unfold overlaps_used, Spec.apart. induction used as [|[us ue] used IH]; simpl.
  - split; [|done]. intros _ r Hr. by apply elem_of_nil in Hr.
  - rewrite orb_false_iff, IH, ranges_overlap_false. split.
    + intros [H1 H2] r Hr. apply elem_of_cons in Hr as [->|Hr]; [done|by apply H2].
    + intros H. split.
      * apply (H (us, ue)). apply elem_of_cons. by left.
      * intros r Hr. apply H. apply elem_of_cons. by right.
Qed.

Lemma overlaps_used_true c used :
  overlaps_used c used = true ↔
  ∃ r, r ∈ used ∧ ¬ Spec.apart (Spec.range_of c) r.
Proof.
  split.
  - intros H. destruct (decide (Forall (λ r,
      (c_end c ≤ r.1 ∨ r.2 ≤ c_start c)%Z) used)) as [Hall|Hex].
    + assert (overlaps_used c used = false) as Hf; [|congruence].
      apply overlaps_used_false. intros r Hr.
      rewrite Forall_forall in Hall. by apply Hall.
    + apply not_Forall_Exists in Hex; [|intros r; apply _].
      apply Exists_exists in Hex as (r & Hr & Hn). by exists r.
  - intros (r & Hr & Hn). destruct (overlaps_used c used) eqn:Hov; [done|].
    exfalso. apply Hn. by eapply overlaps_used_false.
Qed.

Lemma greedy_select_snoc pre c :
  greedy_select (pre ++ [c]) = select_step (greedy_select pre) c.
Proof. unfold greedy_select. by rewrite foldl_snoc. Qed.

Lemma greedy_select_used cands :
  (greedy_select cands).2 = map Spec.range_of (greedy_select cands).1.
Proof.
  induction cands as [|c cands IH] using rev_ind; [done|].
  rewrite greedy_select_snoc. unfold select_step.
  destruct (overlaps_used c _); [done|]. simpl.
  by rewrite IH, map_app.
Qed.

Lemma sort_candidates_ordered cands :
  Spec.ordered_by Spec.size_then_smaller_start (sort_candidates cands).
Proof.
  intros i j x y Hij Hi Hj.
  pose proof (sorted_descending candidate_key cands) as Hs.
  pose proof (StronglySorted_lookup _ _ _ _ _ _ Hs Hij Hi Hj) as H.
  simpl in H. apply pair_ltb_false in H. unfold candidate_key in H.
  simpl in H. unfold Spec.size_then_smaller_start. lia.
Qed.

(** C2 (as the code has it): the candidates are scanned by decreasing size
    and, within one size, by increasing start; a candidate is accepted
    exactly when its range is apart from every range accepted before it. *)
Theorem C2_candidates_by_size_then_smaller_start patterns :
  let cands := all_macro_candidates patterns in
  let scanned := sort_candidates cands in
  scanned ≡ₚ cands
  ∧ Spec.ordered_by Spec.size_then_smaller_start scanned
  ∧ (∀ self, find_non_overlapping_macros self patterns
             = Py.sorted (Py.descending macro_key)
                 (final_macros self (macros_by_hash (greedy_select scanned).1)))
  ∧ ∀ pre c post, scanned = pre ++ c :: post →
      let st := greedy_select pre in
      st.2 = map Spec.range_of st.1
      ∧ ((∀ r, r ∈ st.2 → Spec.apart (Spec.range_of c) r) →
         greedy_select (pre ++ [c]) = (st.1 ++ [c], st.2 ++ [Spec.range_of c]))
      ∧ ((∃ r, r ∈ st.2 ∧ ¬ Spec.apart (Spec.range_of c) r) →
         greedy_select (pre ++ [c]) = st).
Proof.
  intros cands scanned. split; [apply sorted_perm|].
  split; [apply sort_candidates_ordered|]. split; [done|].
  intros pre c post _ st. split; [apply greedy_select_used|].
  rewrite greedy_select_snoc. fold st. unfold select_step. split.
  - intros H. apply overlaps_used_false in H. by rewrite H.
  - intros H. apply overlaps_used_true in H. by rewrite H.
Qed.

Lemma C2_witness :
  sort_candidates (all_macro_candidates Inputs.two_windows)
  = [Inputs.window_at 0; Inputs.window_at 4]
  ∧ Spec.size_then_smaller_start (Inputs.window_at 0) (Inputs.window_at 4)
  ∧ greedy_select ([Inputs.window_at 0] ++ [Inputs.window_at 4])
    = ([Inputs.window_at 0; Inputs.window_at 4], [(0, 2); (4, 6)]%Z).
Proof.
  destruct (C2_candidates_by_size_then_smaller_start Inputs.two_windows)
    as (_ & Hord & _ & Hscan).
  split; [reflexivity|]. split.
  - apply (Hord 0%nat 1%nat); [lia|reflexivity|reflexivity].
  - destruct (Hscan [Inputs.window_at 0] (Inputs.window_at 4) [] eq_refl)
      as (_ & Haccept & _).
    apply Haccept. intros r Hr. apply list_elem_of_singleton in Hr as ->.
    right. simpl. lia.
Defined.

(** C2 as stated fails: with two windows of one size at 0 and at 4 the
    window at 0 is scanned first, so the larger start does not come first. *)
Lemma C2_larger_start_not_first :
  ¬ Spec.ordered_by Spec.size_then_larger_start
      (sort_candidates (all_macro_candidates Inputs.two_windows)).
Proof.
  intros H.
  specialize (H 0%nat 1%nat (Inputs.window_at 0) (Inputs.window_at 4)).
  unfold Spec.size_then_larger_start in H. simpl in H.
  destruct H as [H|[_ H]]; [lia|reflexivity|reflexivity|lia|lia].
Qed.

Section pairwise_facts.

Context {A : Type} (R : A → A → Prop).

Lemma Forall_submseteq (P : A → Prop) (l1 l2 : list A) :
  l1 ⊆+ l2 → Forall P l2 → Forall P l1.
Proof.
  intros Hsub. rewrite !Forall_forall. intros H x Hx.
  apply H. by eapply elem_of_submseteq.
Qed.

Lemma pairwise_submseteq (l1 l2 : list A) :
  (∀ x y, R x y → R y x) →
  l1 ⊆+ l2 → Spec.pairwise R l2 → Spec.pairwise R l1.
Proof.
  intros Hsym Hsub.
  induction Hsub as [|x l1 l2 Hsub IH|x y l|x l1 l2 Hsub IH|l1 l2 l3 _ IH1 _ IH2];
    simpl.
  - done.
  - intros [Hx Hl]. split; [by eapply Forall_submseteq|by apply IH].
  - intros [Hx [Hy Hl]]. apply Forall_cons in Hx as [Hxy Hx].
    repeat split; try done. constructor; [by apply Hsym|done].
  - intros [_ Hl]. by apply IH.
  - intros H. by apply IH1, IH2.
Qed.

Lemma pairwise_perm (l1 l2 : list A) :
  (∀ x y, R x y → R y x) →
  l1 ≡ₚ l2 → Spec.pairwise R l1 → Spec.pairwise R l2.
Proof.
  intros Hsym Hp. apply pairwise_submseteq; [done|].
  by apply Permutation_submseteq.
Qed.

Lemma pairwise_snoc (l : list A) (x : A) :
  Spec.pairwise R l → Forall (λ y, R y x) l → Spec.pairwise R (l ++ [x]).
Proof.
  induction l as [|y l IH]; simpl; [done|].
  intros [Hy Hl] Hx. apply Forall_cons in Hx as [Hyx Hx]. split.
  - apply Forall_app. split; [done|]. by constructor.
  - by apply IH.
Qed.

Lemma pairwise_lookup (l : list A) (i j : nat) (x y : A) :
  (∀ x y, R x y → R y x) →
  Spec.pairwise R l → i ≠ j → l !! i = Some x → l !! j = Some y → R x y.
Proof.
  intros Hsym. revert i j.
  induction l as [|z l IH]; intros i j Hl Hij Hi Hj; [done|].
  destruct Hl as [Hz Hl]. rewrite Forall_forall in Hz.
  destruct i as [|i], j as [|j]; simpl in *; simplify_eq.
  - apply Hz. by eapply list_elem_of_lookup_2.
  - apply Hsym, Hz. by eapply list_elem_of_lookup_2.
  - eapply (IH i j); [done| |done..]. congruence.
Qed.

End pairwise_facts.

Lemma apart_sym r1 r2 : Spec.apart r1 r2 → Spec.apart r2 r1.
Proof. unfold Spec.apart. tauto. Qed.

Lemma apart_disjoint r1 r2 : Spec.apart r1 r2 → Spec.disjoint r1 r2.
Proof. unfold Spec.apart, Spec.disjoint. intros H p. lia. Qed.

Lemma greedy_select_apart cands :
  Spec.pairwise Spec.apart (greedy_select cands).2.
Proof.
  induction cands as [|c cands IH] using rev_ind; [done|].
  rewrite greedy_select_snoc. unfold select_step.
  destruct (overlaps_used c _) eqn:Hov; [done|]. simpl.
  apply pairwise_snoc; [done|].
  apply Forall_forall. intros r Hr. apply apart_sym.
  by eapply overlaps_used_false.
Qed.

Lemma greedy_select_sublist cands : (greedy_select cands).1 `sublist_of` cands.
Proof.
  induction cands as [|c cands IH] using rev_ind; [done|].
  rewrite greedy_select_snoc. unfold select_step.
  destruct (overlaps_used c _); simpl.
  - by apply sublist_inserts_r.
  - by apply sublist_app.
Qed.

(** positions held by a grouping, entry after entry *)
Lemma group_macro_positions c d :
  flat_map (λ x, mi_positions x.2) (group_macro c d)
  ≡ₚ flat_map (λ x, mi_positions x.2) d ++ [Spec.range_of c].
Proof.
  induction d as [|[k mi] d IH]; simpl; [done|].
  destruct (String.eqb (c_hash c) k); simpl.
  - rewrite <- !app_assoc. apply Permutation_app_head, Permutation_app_comm.
  - rewrite IH. by rewrite app_assoc.
Qed.

Lemma macros_by_hash_snoc selected c :
  macros_by_hash (selected ++ [c]) = group_macro c (macros_by_hash selected).
Proof. unfold macros_by_hash. by rewrite foldl_snoc. Qed.

Lemma macros_by_hash_positions selected :
  flat_map (λ x, mi_positions x.2) (macros_by_hash selected)
  ≡ₚ map Spec.range_of selected.
Proof.
  induction selected as [|c selected IH] using rev_ind; [done|].
  by rewrite macros_by_hash_snoc, group_macro_positions, IH, map_app.
Qed.

Lemma final_macros_positions self groups :
  Spec.all_ranges (final_macros self groups)
  ⊆+ flat_map (λ x, mi_positions x.2) groups.
Proof.
  unfold Spec.all_ranges.
  induction groups as [|[k mi] groups IH]; simpl; [done|].
  destruct (_ <=? _)%Z; simpl.
  - by apply submseteq_skips_l.
  - by apply submseteq_inserts_l.
Qed.

Lemma find_non_overlapping_macros_ranges self patterns :
  Spec.all_ranges (find_non_overlapping_macros self patterns)
  ⊆+ (greedy_select (sort_candidates (all_macro_candidates patterns))).2.
Proof.
  unfold find_non_overlapping_macros, Spec.all_ranges.
  rewrite (Permutation_flat_map _ (sorted_perm _ _)).
  etrans; [apply final_macros_positions|].
  rewrite macros_by_hash_positions. by rewrite greedy_select_used.
Qed.

(** C3: two ranges at different places of the returned macro list, of one
    macro or of two, never overlap, so no position lies in both. *)
Theorem C3_returned_ranges_do_not_overlap self patterns i j r1 r2 :
  let ranges := Spec.all_ranges (find_non_overlapping_macros self patterns) in
  i ≠ j → ranges !! i = Some r1 → ranges !! j = Some r2 →
  ranges_overlap r1.1 r1.2 r2.1 r2.2 = false ∧ Spec.disjoint r1 r2.
Proof.
  intros ranges Hij Hi Hj.
  assert (Spec.apart r1 r2) as Hap.
  { eapply (pairwise_lookup Spec.apart ranges i j); [apply apart_sym| |done..].
    eapply pairwise_submseteq;
      [apply apart_sym|apply find_non_overlapping_macros_ranges|].
    apply greedy_select_apart. }
  split; [by apply ranges_overlap_false|by apply apart_disjoint].
Qed.

Lemma C3_witness :
  Spec.all_ranges
    (find_non_overlapping_macros (Config 2 8) Inputs.two_windows)
  = [(0, 2); (4, 6)]%Z
  ∧ ranges_overlap 0 2 4 6 = false ∧ Spec.disjoint (0, 2)%Z (4, 6)%Z.
Proof.
  split; [reflexivity|].
  apply (C3_returned_ranges_do_not_overlap (Config 2 8) Inputs.two_windows
           0%nat 1%nat (0, 2)%Z (4, 6)%Z); [lia|reflexivity|reflexivity].
Defined.

(* ===================================================================== *)
(** ** The windows found by detect_patterns *)
(* ===================================================================== *)

Lemma has_key_spec {V} k (d : list (string * V)) :
  has_key k d = true ↔ k ∈ d.*1.
Proof.
  induction d as [|[k' v] d IH]; csimpl.
  - split; [done|]. intros H. by apply elem_of_nil in H.
  - rewrite elem_of_cons. destruct (String.eqb_spec k k') as [->|Hne].
    + split; [by left|done].
    + rewrite IH. split; [by right|]. by intros [?|?].
Qed.

Lemma has_key_false {V} k (d : list (string * V)) :
  has_key k d = false ↔ k ∉ d.*1.
Proof.
  rewrite <- has_key_spec. destruct (has_key k d); split; try done.
Qed.


Lemma group_append_keys {V} k (v : V) d :
  (group_append k v d).*1 = if has_key k d then d.*1 else d.*1 ++ [k].
Proof.
  induction d as [|[k' vs] d IH]; csimpl; [done|].
  destruct (String.eqb_spec k k') as [->|Hne]; csimpl; [done|].
  rewrite IH. by destruct (has_key k d).
Qed.

Lemma group_append_NoDup {V} k (v : V) d :
  NoDup d.*1 → NoDup (group_append k v d).*1.
Proof.
  intros Hd. rewrite group_append_keys. destruct (has_key k d) eqn:Hk; [done|].
  apply NoDup_app. split; [done|]. split; [|apply NoDup_singleton].
  intros x Hx ->%list_elem_of_singleton. by apply has_key_false in Hk.
Qed.

Lemma group_append_elem {V} h ps k (v : V) d :
  (h, ps) ∈ group_append k v d →
  (h, ps) ∈ d ∨ (h = k ∧ ((∃ ps0, (k, ps0) ∈ d ∧ ps = ps0 ++ [v]) ∨ ps = [v])).
Proof.
  induction d as [|[k' vs] d IH]; simpl.
  - intros ?%list_elem_of_singleton. simplify_eq. right. split; [done|by right].
  - destruct (String.eqb_spec k k') as [->|Hne].
    + intros [?|?]%elem_of_cons.
      * simplify_eq. right. split; [done|]. left. exists vs. split; [|done].
        apply elem_of_cons. by left.
      * left. apply elem_of_cons. by right.
    + intros [?|H]%elem_of_cons.
      * simplify_eq. left. apply elem_of_cons. by left.
      * destruct (IH H) as [?|[Hh [(ps0 & ? & Hps)|Hps]]].
        -- left. apply elem_of_cons. by right.
        -- right. split; [done|]. left. exists ps0. split; [|done].
           apply elem_of_cons. by right.
        -- right. split; [done|by right].
Qed.

Lemma group_ok_mono w n m ps : (n ≤ m)%nat → Spec.group_ok w n ps → Spec.group_ok w m ps.
Proof.
  intros Hnm (Hne & Hs & Hin). repeat split; [done..|].
  intros p Hp. destruct (Hin p Hp) as (i & -> & Hi). exists i. split; [done|lia].
Qed.

Lemma group_ok_snoc w n ps :
  Spec.group_ok w n ps →
  Spec.group_ok w (S n) (ps ++ [(Z.of_nat n, Z.of_nat n + w)%Z]).
Proof.
  intros (Hne & Hs & Hin). repeat split.
  - by destruct ps.
  - apply StronglySorted_app. repeat split; [|done|repeat constructor].
    intros x y Hx ->%list_elem_of_singleton.
    destruct (Hin x Hx) as (i & -> & Hi). unfold Spec.by_start. simpl. lia.
  - intros p [Hp| ->%list_elem_of_singleton]%elem_of_app.
    + destruct (Hin p Hp) as (i & -> & Hi). exists i. split; [done|lia].
    + exists n. split; [done|lia].
Qed.

Lemma group_ok_singleton w n :
  Spec.group_ok w (S n) [(Z.of_nat n, Z.of_nat n + w)%Z].
Proof.
  repeat split; [done|repeat constructor|].
  intros p ->%list_elem_of_singleton. exists n. split; [done|lia].
Qed.

(** the groups after the windows starting below [n] *)
Lemma window_groups_ok ops w n :
  let d :=
    foldl (λ d i,
             group_append
               (hash_sequence (Py.slice ops i (i + Z.to_nat w)))
               (Z.of_nat i, Z.of_nat i + w)%Z d)
          [] (seq 0 n) in
  NoDup d.*1 ∧ ∀ h ps, (h, ps) ∈ d → Spec.group_ok w n ps.
Proof.
  cbv zeta. induction n as [|n IH].
  - split; [constructor|]. intros h ps H. by apply elem_of_nil in H.
  - rewrite seq_S, foldl_snoc. destruct IH as [Hnd Hok]. split.
    + by apply group_append_NoDup.
    + intros h ps Hin. apply group_append_elem in Hin
        as [Hin|[_ [(ps0 & Hin & ->)| ->]]].
      * eapply group_ok_mono; [|by eapply Hok]. lia.
      * apply group_ok_snoc. by eapply Hok.
      * apply group_ok_singleton.
Qed.

Lemma window_patterns_ok ops w :
  NoDup (window_patterns ops w).*1
  ∧ ∀ h ps, (h, ps) ∈ window_patterns ops w →
      Spec.group_ok w (Z.to_nat (Z.of_nat (length ops) - w + 1)) ps.
Proof.
  unfold window_patterns, Py.range.
  exact (window_groups_ok ops w (Z.to_nat (Z.of_nat (length ops) - w + 1))).
Qed.

Lemma slice_length {A} (l : list A) i j :
  (j ≤ length l)%nat → length (Py.slice l i j) = (j - i)%nat.
Proof.
  intros H. unfold Py.slice. rewrite length_take, length_drop. lia.
Qed.

Lemma pattern_ok_length self ops info :
  Spec.pattern_ok self ops info →
  Z.of_nat (length (p_sequence info)) = p_window_size info.
Proof.
  intros (first & rest & Hpos & Hseq & _ & _ & _ & Hw & Hall).
  rewrite Hpos in Hall. apply Forall_cons in Hall as [(H0 & He & Hlen) _].
  rewrite Hseq, slice_length by lia. lia.
Qed.

(** the entry made of one frequent group *)
Lemma group_pattern_ok self ops w ps :
  (2 ≤ w)%Z → (min_repetitions self ≤ Z.of_nat (length ps))%Z →
  Spec.group_ok w (Z.to_nat (Z.of_nat (length ops) - w + 1)) ps →
  Spec.pattern_ok self ops
    {| p_sequence :=
         Py.slice ops (Z.to_nat (hd (0, 0)%Z ps).1) (Z.to_nat (hd (0, 0)%Z ps).2);
       p_positions := ps; p_window_size := w;
       p_count := Z.of_nat (length ps) |}.
Proof.
  intros Hw Hmin (Hne & Hs & Hin). destruct ps as [|first rest]; [done|].
  exists first, rest. simpl. repeat split; try done.
  apply Forall_forall. intros p Hp. destruct (Hin p Hp) as (i & -> & Hi).
  simpl. lia.
Qed.

Lemma record_patterns_ok self ops w groups all :
  (2 ≤ w)%Z →
  (∀ h ps, (h, ps) ∈ groups →
     Spec.group_ok w (Z.to_nat (Z.of_nat (length ops) - w + 1)) ps) →
  NoDup all.*1 → (∀ h info, (h, info) ∈ all → Spec.pattern_ok self ops info) →
  let all' := record_patterns self ops w all groups in
  NoDup all'.*1 ∧ ∀ h info, (h, info) ∈ all' → Spec.pattern_ok self ops info.
Proof.
  intros Hw. unfold record_patterns. revert all.
  induction groups as [|[h ps] groups IH]; intros all Hg Hnd Hall; simpl; [done|].
  assert (∀ h ps, (h, ps) ∈ groups →
     Spec.group_ok w (Z.to_nat (Z.of_nat (length ops) - w + 1)) ps) as Hg'.
  { intros h' ps' Hin. eapply Hg. apply elem_of_cons. by right. }
  destruct (Z.leb_spec (min_repetitions self) (Z.of_nat (length ps)));
    [|by apply IH].
  destruct (has_key h all) eqn:Hk; simpl; [by apply IH|].
  apply IH; [done| |].
  - rewrite fmap_app. apply NoDup_app. split; [done|].
    split; [|apply NoDup_singleton].
    intros x Hx ->%list_elem_of_singleton. by apply has_key_false in Hk.
  - intros h' info [Hin|Hin%list_elem_of_singleton]%elem_of_app;
      [by eapply Hall|]. simplify_eq.
    apply group_pattern_ok; [done..|]. eapply Hg. apply elem_of_cons. by left.
Qed.

Lemma range2_elem a b x : x ∈ Py.range2 a b → (a ≤ x < b)%Z.
Proof.
  unfold Py.range2. rewrite list_elem_of_In, in_map_iff.
  intros (i & <- & Hi). apply in_seq in Hi. lia.
Qed.

Lemma collect_patterns_ok self ops :
  NoDup (collect_patterns self ops).*1
  ∧ ∀ h info, (h, info) ∈ collect_patterns self ops →
      Spec.pattern_ok self ops info.
Proof.
  unfold collect_patterns.
  set (ws := Py.range2 _ _).
  assert (∀ w, w ∈ ws → (2 ≤ w)%Z) as Hws.
  { intros w Hw%range2_elem. lia. }
  clearbody ws. induction ws as [|w ws IH] using rev_ind; simpl.
  - split; [constructor|]. intros h info H. by apply elem_of_nil in H.
  - rewrite foldl_snoc.
    destruct IH as [Hnd Hall].
    { intros w' Hw'. apply Hws, elem_of_app. by left. }
    apply record_patterns_ok; [|apply window_patterns_ok|done..].
    apply Hws, elem_of_app. right. by apply list_elem_of_singleton.
Qed.

Lemma detect_patterns_ok self ops :
  NoDup (detect_patterns self ops).*1
  ∧ ∀ h info, (h, info) ∈ detect_patterns self ops →
      Spec.pattern_ok self ops info.
Proof.
  destruct (collect_patterns_ok self ops) as [Hnd Hall].
  unfold detect_patterns. split.
  - eapply NoDup_Permutation_proper; [|exact Hnd].
    apply fmap_Permutation, sorted_perm.
  - intros h info Hin. apply sorted_elem_of in Hin. exact (Hall h info Hin).
Qed.

(* ===================================================================== *)
(** ** From the patterns to the returned macros *)
(* ===================================================================== *)

Lemma all_macro_candidates_eq patterns :
  all_macro_candidates patterns
  = flat_map (λ x, map (Spec.candidate_of x.1 x.2) (p_positions x.2)) patterns.
Proof.
  unfold all_macro_candidates. induction patterns as [|[h info] patterns IH];
    simpl; [done|].
  rewrite IH. f_equal. apply map_ext. by intros [s e].
Qed.

Lemma all_macro_candidates_elem c patterns :
  c ∈ all_macro_candidates patterns →
  ∃ h info p, (h, info) ∈ patterns ∧ p ∈ p_positions info
              ∧ c = Spec.candidate_of h info p.
Proof.
  rewrite all_macro_candidates_eq, list_elem_of_In, in_flat_map.
  intros ([h info] & Hin & Hc). apply in_map_iff in Hc as (p & <- & Hp).
  exists h, info, p. by rewrite !list_elem_of_In.
Qed.

Lemma group_of_app k l1 l2 :
  Spec.group_of k (l1 ++ l2) = Spec.group_of k l1 ++ Spec.group_of k l2.
Proof. apply filter_app. Qed.

Lemma group_of_candidates_same k info ps :
  Spec.group_of k (map (Spec.candidate_of k info) ps)
  = map (Spec.candidate_of k info) ps.
Proof.
  unfold Spec.group_of. induction ps as [|p ps IH]; simpl; [done|].
  rewrite filter_cons_True by done. by rewrite IH.
Qed.

Lemma group_of_candidates_other k h info ps :
  h ≠ k → Spec.group_of k (map (Spec.candidate_of h info) ps) = [].
Proof.
  intros Hne. unfold Spec.group_of. induction ps as [|p ps IH]; simpl; [done|].
  by rewrite filter_cons_False.
Qed.

Lemma group_of_candidates_absent k patterns :
  k ∉ patterns.*1 → Spec.group_of k (all_macro_candidates patterns) = [].
Proof.
  rewrite all_macro_candidates_eq.
  induction patterns as [|[h info] patterns IH]; csimpl; [done|].
  intros Hk. apply not_elem_of_cons in Hk as [Hne Hk].
  rewrite group_of_app.
  rewrite (group_of_candidates_other k h info) by done. by apply IH.
Qed.

(** with one entry per hash, the candidates of a hash are the positions of
    its pattern, in scan order *)
Lemma group_of_candidates k info patterns :
  NoDup patterns.*1 → (k, info) ∈ patterns →
  Spec.group_of k (all_macro_candidates patterns)
  = map (Spec.candidate_of k info) (p_positions info).
Proof.
  intros Hnd Hin. induction patterns as [|[h info'] patterns IH];
    [by apply elem_of_nil in Hin|].
  csimpl in Hnd. apply NoDup_cons in Hnd as [Hh Hnd].
  rewrite all_macro_candidates_eq. simpl. rewrite group_of_app.
  rewrite <- all_macro_candidates_eq.
  apply elem_of_cons in Hin as [Heq|Hin].
  - assert (h = k ∧ info' = info) as [-> ->] by (by inversion Heq).
    rewrite (group_of_candidates_same k info).
    rewrite (group_of_candidates_absent k patterns) by done. by rewrite app_nil_r.
  - assert (h ≠ k) as Hne.
    { intros ->. apply Hh. apply list_elem_of_fmap. by exists (k, info). }
    rewrite (group_of_candidates_other k h info') by done. by apply IH.
Qed.

Lemma group_macro_keys c d :
  (group_macro c d).*1
  = if has_key (c_hash c) d then d.*1 else d.*1 ++ [c_hash c].
Proof.
  induction d as [|[k mi] d IH]; csimpl; [done|].
  destruct (String.eqb_spec (c_hash c) k) as [Heq|Hne]; csimpl; [done|].
  rewrite IH. by destruct (has_key (c_hash c) d).
Qed.

Lemma group_macro_NoDup c d : NoDup d.*1 → NoDup (group_macro c d).*1.
Proof.
  intros Hd. rewrite group_macro_keys.
  destruct (has_key (c_hash c) d) eqn:Hk; [done|].
  apply NoDup_app. split; [done|]. split; [|apply NoDup_singleton].
  intros x Hx ->%list_elem_of_singleton. by apply has_key_false in Hk.
Qed.

Lemma group_macro_elem k mi c d :
  NoDup d.*1 → (k, mi) ∈ group_macro c d →
  (k ≠ c_hash c ∧ (k, mi) ∈ d)
  ∨ (k = c_hash c
     ∧ ((∃ mi0, (k, mi0) ∈ d ∧ mi = add_position (Spec.range_of c) mi0)
        ∨ (mi = {| mi_hash := c_hash c; mi_sequence := c_sequence c;
                   mi_positions := [Spec.range_of c];
                   mi_window_size := c_window_size c |}
           ∧ k ∉ d.*1))).
Proof.
  induction d as [|[k' mi'] d IH]; csimpl.
  - intros _ ?%list_elem_of_singleton. simplify_eq. right. split; [done|].
    right. split; [done|apply not_elem_of_nil].
  - intros [Hk' Hnd]%NoDup_cons.
    destruct (String.eqb_spec (c_hash c) k') as [<-|Hne].
    + intros [?|Hin]%elem_of_cons.
      * simplify_eq. right. split; [done|]. left. exists mi'. split; [|done].
        apply elem_of_cons. by left.
      * left. split; [|apply elem_of_cons; by right].
        intros ->. apply Hk'. apply list_elem_of_fmap. by exists (c_hash c, mi).
    + intros [?|Hin]%elem_of_cons.
      * simplify_eq. left. split; [done|]. apply elem_of_cons. by left.
      * destruct (IH Hnd Hin)
          as [ [Hk Hd] | [ -> [ (mi0 & Hd & ->) | [-> Hk] ] ] ].
        -- left. split; [done|]. apply elem_of_cons. by right.
        -- right. split; [done|]. left. exists mi0. split; [|done].
           apply elem_of_cons. by right.
        -- right. split; [done|]. right. split; [done|].
           apply not_elem_of_cons. by split.
Qed.

(** an entry of [macros_by_hash] holds the selected candidates of its hash,
    in order, with the template and size of the first of them *)
Lemma macros_by_hash_spec selected :
  NoDup (macros_by_hash selected).*1
  ∧ (∀ c, c ∈ selected → c_hash c ∈ (macros_by_hash selected).*1)
  ∧ ∀ k mi, (k, mi) ∈ macros_by_hash selected →
      ∃ c0 rest,
        Spec.group_of k selected = c0 :: rest
        ∧ mi_hash mi = k
        ∧ mi_sequence mi = c_sequence c0
        ∧ mi_window_size mi = c_window_size c0
        ∧ mi_positions mi = map Spec.range_of (c0 :: rest).
Proof.
  induction selected as [|c selected (Hnd & Hkeys & Hall)] using rev_ind.
  - split; [constructor|]. split.
    + intros c H. by apply elem_of_nil in H.
    + intros k mi H. by apply elem_of_nil in H.
  - rewrite macros_by_hash_snoc. split; [by apply group_macro_NoDup|]. split.
    + intros c' Hc'. rewrite group_macro_keys.
      assert (c' ∈ selected → c_hash c' ∈ (macros_by_hash selected).*1)
        as Hold by apply Hkeys.
      destruct (has_key (c_hash c) (macros_by_hash selected)) eqn:Hk.
      * apply elem_of_app in Hc' as [?| ->%list_elem_of_singleton]; [by apply Hold|].
        by apply has_key_spec.
      * apply elem_of_app. apply elem_of_app in Hc' as [?| ->%list_elem_of_singleton].
        -- left. by apply Hold.
        -- right. by apply list_elem_of_singleton.
    + intros k mi Hin. unfold Spec.group_of in *. rewrite filter_app.
      apply group_macro_elem in Hin
        as [ [Hne Hin] | [ -> [ (mi0 & Hin & ->) | [-> Hfresh] ] ] ]; [| | |done].
      * rewrite (filter_cons_False _ c) by done. rewrite filter_nil, app_nil_r.
        by apply Hall.
      * rewrite (filter_cons_True _ c) by done. rewrite filter_nil.
        destruct (Hall _ _ Hin) as (c0 & rest & -> & ? & ? & ? & Hpos).
        exists c0, (rest ++ [c]). simpl.
        repeat split; try done. rewrite Hpos. simpl. by rewrite map_app.
      * rewrite (filter_cons_True _ c) by done. rewrite filter_nil.
        assert (filter (λ c', c_hash c' = c_hash c) selected = []) as ->.
        { destruct (filter _ selected) as [|c' l] eqn:Hf; [done|].
          assert (c' ∈ filter (λ c', c_hash c' = c_hash c) selected) as Hc'.
          { rewrite Hf. apply elem_of_cons. by left. }
          apply list_elem_of_filter in Hc' as [Heq Hc'].
          destruct Hfresh. rewrite <- Heq. by apply Hkeys. }
        by exists c, [].
Qed.

Lemma final_macros_elem self groups m :
  m ∈ final_macros self groups →
  ∃ mi, (m_hash m, mi) ∈ groups
        ∧ (min_repetitions self ≤ Z.of_nat (length (mi_positions mi)))%Z
        ∧ m_sequence m = mi_sequence mi
        ∧ m_positions m = mi_positions mi
        ∧ m_count m = Z.of_nat (length (mi_positions mi))
        ∧ m_window_size m = mi_window_size mi.
Proof.
  unfold final_macros. rewrite list_elem_of_In, in_flat_map.
  intros ([k mi] & Hin & Hm). apply list_elem_of_In in Hin.
  destruct (Z.leb_spec (min_repetitions self)
              (Z.of_nat (length (mi_positions mi)))); [|done].
  destruct Hm as [<-|[]]. by exists mi.
Qed.

Section sublist_facts.

Context {A : Type}.

Lemma filter_sublist_mono (P : A → Prop) `{∀ x, Decision (P x)} l1 l2 :
  l1 `sublist_of` l2 → filter P l1 `sublist_of` filter P l2.
Proof.
  induction 1 as [|x l1 l2 _ IH|x l1 l2 _ IH]; [done| |].
  - rewrite !filter_cons. destruct (decide (P x)); [by apply sublist_skip|done].
  - rewrite filter_cons. destruct (decide (P x)); [by apply sublist_cons|done].
Qed.

Lemma StronglySorted_sublist (R : A → A → Prop) l1 l2 :
  l1 `sublist_of` l2 → StronglySorted R l2 → StronglySorted R l1.
Proof.
  induction 1 as [|x l1 l2 Hsub IH|x l1 l2 Hsub IH]; [done| |].
  - intros [Hx Hl]%StronglySorted_cons. apply StronglySorted_cons.
    split; [|by apply IH]. eapply Forall_submseteq; [|done].
    by apply sublist_submseteq.
  - intros [_ Hl]%StronglySorted_cons. by apply IH.
Qed.

Lemma map_sublist {B} (f : A → B) l1 l2 :
  l1 `sublist_of` l2 → map f l1 `sublist_of` map f l2.
Proof.
  induction 1; simpl; [done|by apply sublist_skip|by apply sublist_cons].
Qed.

End sublist_facts.

Lemma range_of_candidate_of h info ps :
  map Spec.range_of (map (Spec.candidate_of h info) ps) = ps.
Proof.
  induction ps as [|[s e] ps IH]; simpl; [done|]. by rewrite IH.
Qed.

(** the positions of a pattern give candidates that are already in the
    order of the scan *)
Lemma candidates_of_pattern_sorted self ops h info :
  Spec.pattern_ok self ops info →
  StronglySorted (λ x y, Py.pair_ltb (candidate_key x) (candidate_key y) = false)
    (map (Spec.candidate_of h info) (p_positions info)).
Proof.
  intros (first & rest & _ & _ & _ & _ & Hs & _ & Hall).
  induction Hs as [|p ps Hs IH Hp]; simpl; [constructor|].
  apply Forall_cons in Hall as [(_ & Hp2 & _) Hall].
  apply StronglySorted_cons. split; [|by apply IH].
  apply Forall_forall. intros c Hc.
  apply list_elem_of_In, in_map_iff in Hc as (q & <- & Hq).
  apply list_elem_of_In in Hq.
  rewrite Forall_forall in Hp, Hall. specialize (Hp q Hq).
  destruct (Hall q Hq) as (_ & Hq2 & _). unfold Spec.by_start in Hp.
  apply pair_ltb_false. unfold candidate_key. simpl. lia.
Qed.

(** the scan meets the candidates of a pattern in the order of its
    positions *)
Lemma group_of_sorted_candidates self ops patterns k info :
  NoDup patterns.*1 →
  (∀ h i, (h, i) ∈ patterns → Spec.pattern_ok self ops i) →
  (k, info) ∈ patterns →
  Spec.group_of k (sort_candidates (all_macro_candidates patterns))
  = map (Spec.candidate_of k info) (p_positions info).
Proof.
  intros Hnd Hok Hin.
  pose proof (group_of_candidates k info patterns Hnd Hin) as Hg.
  set (R := λ x y, Py.pair_ltb (candidate_key x) (candidate_key y) = false).
  assert (Spec.group_of k (sort_candidates (all_macro_candidates patterns))
          ≡ₚ map (Spec.candidate_of k info) (p_positions info)) as Hperm.
  { rewrite <- Hg. unfold Spec.group_of. apply filter_Permutation, sorted_perm. }
  apply (StronglySorted_unique_strong R); [| | |exact Hperm].
  - intros x1 x2 Hx1 Hx2 H12 H21. rewrite Hperm in Hx1.
    apply list_elem_of_In, in_map_iff in Hx2 as (p2 & <- & Hp2).
    apply list_elem_of_In, in_map_iff in Hx1 as (p1 & <- & Hp1).
    destruct (Hok _ _ Hin) as (first & rest & _ & _ & _ & _ & _ & _ & Hall).
    rewrite Forall_forall in Hall.
    destruct (Hall p1) as (_ & He1 & _); [by apply list_elem_of_In|].
    destruct (Hall p2) as (_ & He2 & _); [by apply list_elem_of_In|].
    unfold R in *. apply pair_ltb_false in H12, H21.
    unfold candidate_key in *. simpl in *.
    destruct p1 as [s1 e1], p2 as [s2 e2]. simpl in *.
    assert (s1 = s2) as -> by lia. by assert (e1 = e2) as -> by lia.
  - eapply StronglySorted_sublist; [apply sublist_filter|].
    apply sorted_descending.
  - by eapply candidates_of_pattern_sorted, Hok.
Qed.

(** a returned macro is what is left of one detected pattern *)
Lemma returned_macro_of_pattern self ops patterns m :
  NoDup patterns.*1 →
  (∀ h i, (h, i) ∈ patterns → Spec.pattern_ok self ops i) →
  m ∈ find_non_overlapping_macros self patterns →
  ∃ info, (m_hash m, info) ∈ patterns
    ∧ m_sequence m = p_sequence info
    ∧ m_window_size m = p_window_size info
    ∧ m_positions m `sublist_of` p_positions info
    ∧ m_count m = Z.of_nat (length (m_positions m))
    ∧ (min_repetitions self ≤ m_count m)%Z.
Proof.
  intros Hnd Hok Hm. unfold find_non_overlapping_macros in Hm.
  apply sorted_elem_of, final_macros_elem in Hm
    as (mi & Hin & Hmin & Hseq & Hpos & Hcnt & Hw).
  set (scanned := sort_candidates (all_macro_candidates patterns)) in *.
  set (selected := (greedy_select scanned).1) in *.
  destruct (macros_by_hash_spec selected) as (_ & _ & Hall).
  destruct (Hall _ _ Hin) as (c0 & rest & Hg & _ & Hs0 & Hw0 & Hp0).
  assert (c0 ∈ Spec.group_of (m_hash m) selected) as Hc0.
  { rewrite Hg. apply elem_of_cons. by left. }
  apply list_elem_of_filter in Hc0 as [Hh0 Hc0].
  assert (c0 ∈ all_macro_candidates patterns) as Hc.
  { eapply sorted_elem_of, elem_of_sublist; [exact Hc0|].
    apply greedy_select_sublist. }
  apply all_macro_candidates_elem in Hc as (h & info & p & Hi & Hp & ->).
  simpl in Hh0. subst h. exists info.
  pose proof (group_of_sorted_candidates self ops patterns _ info Hnd Hok Hi)
    as Hscan.
  split; [done|]. split; [by rewrite Hseq, Hs0|].
  split; [by rewrite Hw, Hw0|]. split; [|split; [by rewrite Hpos|lia]].
  rewrite Hpos, Hp0, <- Hg.
  rewrite <- (range_of_candidate_of (m_hash m) info (p_positions info)).
  apply map_sublist. rewrite <- Hscan. apply filter_sublist_mono.
  apply greedy_select_sublist.
Qed.

(** C4: in the macros of [detect_patterns] followed by
    [find_non_overlapping_macros], [count] is the number of positions and is
    at least [min_repetitions], and [window_size] is the length of the
    template and the length of every position range. *)
Theorem C4_count_and_window_size_consistent self ops m :
  m ∈ find_non_overlapping_macros self (detect_patterns self ops) →
  m_count m = Z.of_nat (length (m_positions m))
  ∧ (min_repetitions self ≤ m_count m)%Z
  ∧ m_window_size m = Z.of_nat (length (m_sequence m))
  ∧ ∀ s e, (s, e) ∈ m_positions m → (e - s = m_window_size m)%Z.
Proof.
  intros Hm. destruct (detect_patterns_ok self ops) as [Hnd Hok].
  destruct (returned_macro_of_pattern self ops _ m Hnd Hok Hm)
    as (info & Hin & Hseq & Hw & Hsub & Hcnt & Hmin).
  pose proof (Hok _ _ Hin) as Hinfo.
  repeat split; [done..| |].
  - rewrite Hseq, Hw. symmetry. by eapply pattern_ok_length.
  - intros s e Hse.
    destruct Hinfo as (first & rest & _ & _ & _ & _ & _ & _ & Hall).
    rewrite Forall_forall in Hall.
    destruct (Hall (s, e)) as (_ & He & _); [by eapply elem_of_sublist|].
    simpl in He. lia.
Qed.

Lemma C4_witness :
  let m := {| m_hash := "b4729e816ac658ca2df2d7b831bf3ea3";
              m_sequence := [Inputs.gate "h" ["0"]; Inputs.gate "x" ["0"]];
              m_positions := [(0, 2); (2, 4)]%Z;
              m_count := 2; m_window_size := 2 |} in
  m_count m = Z.of_nat (length (m_positions m))
  ∧ (2 ≤ m_count m)%Z
  ∧ m_window_size m = Z.of_nat (length (m_sequence m))
  ∧ ∀ s e, (s, e) ∈ m_positions m → (e - s = m_window_size m)%Z.
Proof.
  intros m.
  apply (C4_count_and_window_size_consistent (Config 2 8)
           [Inputs.gate "h" ["0"]; Inputs.gate "x" ["0"];
            Inputs.gate "h" ["0"]; Inputs.gate "x" ["0"]] m).
  apply (list_elem_of_lookup_2 _ 0%nat). vm_compute. reflexivity.
Defined.

(** C10: the positions of a pattern and of a returned macro are in
    left-to-right order, and the template of a macro is the slice at the
    first occurrence its pattern was detected at; that occurrence need not
    be among the positions the macro keeps. *)
Theorem C10_positions_in_scan_order_and_template_of_first_occurrence :
  (∀ self ops,
     (∀ h info, (h, info) ∈ detect_patterns self ops →
        StronglySorted Spec.by_start (p_positions info)
        ∧ ∃ first rest,
            p_positions info = first :: rest
            ∧ p_sequence info
              = Py.slice ops (Z.to_nat first.1) (Z.to_nat first.2))
     ∧ (∀ m, m ∈ find_non_overlapping_macros self (detect_patterns self ops) →
        StronglySorted Spec.by_start (m_positions m)
        ∧ ∃ info first rest,
            (m_hash m, info) ∈ detect_patterns self ops
            ∧ p_positions info = first :: rest
            ∧ m_positions m `sublist_of` p_positions info
            ∧ m_sequence m
              = Py.slice ops (Z.to_nat first.1) (Z.to_nat first.2)))
  ∧ (∃ self ops m info first rest,
       m ∈ find_non_overlapping_macros self (detect_patterns self ops)
       ∧ (m_hash m, info) ∈ detect_patterns self ops
       ∧ p_positions info = first :: rest
       ∧ first ∉ m_positions m).
Proof.
  split.
  - intros self ops. destruct (detect_patterns_ok self ops) as [Hnd Hok]. split.
    + intros h info Hin.
      destruct (Hok _ _ Hin) as (first & rest & Hpos & Hseq & _ & _ & Hs & _).
      split; [done|]. by exists first, rest.
    + intros m Hm.
      destruct (returned_macro_of_pattern self ops _ m Hnd Hok Hm)
        as (info & Hin & Hseq & _ & Hsub & _).
      destruct (Hok _ _ Hin) as (first & rest & Hpos & Hslice & _ & _ & Hs & _).
      split; [by eapply StronglySorted_sublist|].
      exists info, first, rest. by rewrite Hseq.
  - exists (Config 2 8), Inputs.shadowed_first.
    eexists _, _, (2, 4)%Z, _. split; [|split; [|split]].
    + apply (list_elem_of_lookup_2 _ 1%nat). vm_compute. reflexivity.
    + apply (list_elem_of_lookup_2 _ 0%nat). vm_compute. reflexivity.
    + reflexivity.
    + simpl. intros H.
      repeat (apply elem_of_cons in H as [H|H]; [discriminate H|]).
      by apply elem_of_nil in H.
Qed.

Lemma C10_witness :
  let ops := [Inputs.gate "h" ["0"]; Inputs.gate "x" ["0"];
              Inputs.gate "h" ["0"]; Inputs.gate "x" ["0"]] in
  StronglySorted Spec.by_start [(0, 2); (2, 4)]%Z
  ∧ ∃ info first rest,
      ("b4729e816ac658ca2df2d7b831bf3ea3", info)
        ∈ detect_patterns (Config 2 8) ops
      ∧ p_positions info = first :: rest
      ∧ [(0, 2); (2, 4)]%Z `sublist_of` p_positions info
      ∧ [Inputs.gate "h" ["0"]; Inputs.gate "x" ["0"]]
        = Py.slice ops (Z.to_nat first.1) (Z.to_nat first.2).
Proof.
  intros ops.
  destruct C10_positions_in_scan_order_and_template_of_first_occurrence
    as [Hall _].
  destruct (Hall (Config 2 8) ops) as [_ Hmacros].
  apply (Hmacros {| m_hash := "b4729e816ac658ca2df2d7b831bf3ea3";
                    m_sequence := [Inputs.gate "h" ["0"]; Inputs.gate "x" ["0"]];
                    m_positions := [(0, 2); (2, 4)]%Z;
                    m_count := 2; m_window_size := 2 |}).
  apply (list_elem_of_lookup_2 _ 0%nat). vm_compute. reflexivity.
Defined.

(* ===================================================================== *)
(** ** Configurations that leave nothing to find *)
(* ===================================================================== *)


Lemma find_non_overlapping_macros_nil self :
  find_non_overlapping_macros self [] = [].
Proof. reflexivity. Qed.




(* ===================================================================== *)
(** ** The pattern hash *)
(* ===================================================================== *)

Lemma string_ltb_lt a b : String.ltb a b = true ↔ String_as_OT.lt a b.
Proof.
  unfold String.ltb. rewrite <- String_as_OT.cmp_lt. unfold String_as_OT.cmp.
  by destruct (String.compare a b).
Qed.

Lemma string_ltb_asym a b : String.ltb a b = true → String.ltb b a = false.
Proof.
  pose proof (String_as_OT.cmp_antisym b a) as H.
  unfold String_as_OT.cmp in H. unfold String.ltb. rewrite H.
  by destruct (String.compare a b).
Qed.

Lemma string_ltb_trans a b c :
  String.ltb a b = true → String.ltb b c = true → String.ltb a c = true.
Proof. rewrite !string_ltb_lt. apply String_as_OT.lt_trans. Qed.

Lemma string_ltb_antisym a b :
  String.ltb a b = false → String.ltb b a = false → a = b.
Proof.
  pose proof (String_as_OT.cmp_antisym b a) as H.
  unfold String_as_OT.cmp in H. unfold String.ltb. rewrite H.
  destruct (String.compare a b) eqn:E; try done.
  intros _ _. by apply String_as_OT.cmp_eq.
Qed.

(** [sorted] gives one result for all the orders a tuple of qubits can be
    written in *)
Lemma sorted_qubits_perm (l1 l2 : list string) :
  l1 ≡ₚ l2 → Py.sorted String.ltb l1 = Py.sorted String.ltb l2.
Proof.
  intros Hp.
  apply (StronglySorted_unique_strong (Spec.not_after String.ltb)).
  - intros x1 x2 _ _ H12 H21. by apply string_ltb_antisym.
  - apply sorted_sorted; [apply string_ltb_asym|apply string_ltb_trans].
  - apply sorted_sorted; [apply string_ltb_asym|apply string_ltb_trans].
  - by rewrite !sorted_perm.
Qed.

(** what the hash does ignore: the order of the qubits inside each gate *)
Lemma hash_sequence_ignores_qubit_order (seq1 seq2 : list operation) :
  Forall2 (λ a b, gate_name a = gate_name b ∧ qubits a ≡ₚ qubits b
                  ∧ params a = params b) seq1 seq2 →
  hash_sequence seq1 = hash_sequence seq2.
Proof.
  intros H. unfold hash_sequence. do 2 f_equal.
  induction H as [|a b seq1 seq2 (Hn & Hq & Hp) _ IH]; [done|].
  simpl. rewrite IH. do 2 f_equal. unfold normalize.
  by rewrite Hn, Hp, (sorted_qubits_perm _ _ Hq).
Qed.

(** C1: the documentation of [hash_sequence] promises a hash that ignores
    which qubits a pattern runs on; the code hashes the sorted qubit
    indices, so the same gate on qubit 0 and on qubit 1 gets two hashes and
    a pattern repeated on other qubits is not detected. *)
Theorem C1_hash_depends_on_qubit_identity :
  hash_sequence [Inputs.gate "h" ["0"]] = "4847a284c2ab7a21ccd4db3362e5597b"
  ∧ hash_sequence [Inputs.gate "h" ["1"]] = "344d469b68606e5875abb8e4e1726773"
  ∧ hash_sequence [Inputs.gate "h" ["0"]] ≠ hash_sequence [Inputs.gate "h" ["1"]]
  ∧ hash_sequence [Inputs.gate "cx" ["0"; "1"]]
    = hash_sequence [Inputs.gate "cx" ["1"; "0"]]
  ∧ detect_patterns (Config 2 8)
      [Inputs.gate "h" ["0"]; Inputs.gate "x" ["0"];
       Inputs.gate "h" ["1"]; Inputs.gate "x" ["1"]] = [].
Proof.
  split; [vm_compute; reflexivity|]. split; [vm_compute; reflexivity|].
  split; [vm_compute; discriminate|]. split; vm_compute; reflexivity.
Qed.

(* ===================================================================== *)
(** ** The labeler *)
(* ===================================================================== *)

Import Labeler.

Section counter_facts.

Context `{Countable K}.

Lemma get0_counter_add (m : gmap K nat) (x g : K) :
  get0 (counter_add m x) g
  = (if decide (x = g) then S (get0 m g) else get0 m g).
Proof.
  unfold get0, counter_add. destruct (decide (x = g)) as [->|Hne].
  - by rewrite lookup_insert_eq.
  - by rewrite lookup_insert_ne.
Qed.

Lemma get0_foldl_counter_add (m : gmap K nat) (l : list K) (g : K) :
  get0 (foldl counter_add m l) g
  = (get0 m g + length (filter (λ x, x = g) l))%nat.
Proof.
  revert m. induction l as [|x l IH]; intros m; simpl; [lia|].
  rewrite IH, get0_counter_add, filter_cons.
  destruct (decide (x = g)); simpl; lia.
Qed.

(** [Counter(l).get(g, 0)] is the number of occurrences of [g] *)
Lemma get0_Counter (l : list K) (g : K) :
  get0 (Counter l) g = length (filter (λ x, x = g) l).
Proof. unfold Counter. by rewrite get0_foldl_counter_add. Qed.

Lemma is_Some_foldl_counter_add (m : gmap K nat) (l : list K) (g : K) :
  is_Some (foldl counter_add m l !! g) ↔ is_Some (m !! g) ∨ g ∈ l.
Proof.
  revert m. induction l as [|x l IH]; intros m; simpl.
  - rewrite elem_of_nil. tauto.
  - rewrite IH, elem_of_cons. unfold counter_add.
    destruct (decide (x = g)) as [->|Hne].
    + rewrite lookup_insert_eq. split; [intros _; right; by left|eauto].
    + rewrite lookup_insert_ne by done. split; [tauto|].
      intros [?|[?|?]]; [tauto|congruence|tauto].
Qed.

(** [g in Counter(l)] *)
Lemma is_Some_Counter (l : list K) (g : K) :
  is_Some (Counter l !! g) ↔ g ∈ l.
Proof.
  unfold Counter. rewrite is_Some_foldl_counter_add, lookup_empty.
  split; [intros [[? ?]|?]; done|by right].
Qed.

Lemma filter_eq_length_pos (l : list K) (g : K) :
  g ∈ l ↔ (0 < length (filter (λ x, x = g) l))%nat.
Proof.
  split.
  - intros Hg. assert (g ∈ filter (λ x, x = g) l) as Hf
      by by apply list_elem_of_filter.
    destruct (filter _ l); [by apply elem_of_nil in Hf|simpl; lia].
  - intros Hlen. destruct (filter (λ x, x = g) l) as [|y l'] eqn:Hf;
      [simpl in Hlen; lia|].
    assert (y ∈ filter (λ x, x = g) l) as Hy
      by (rewrite Hf; apply elem_of_cons; by left).
    by apply list_elem_of_filter in Hy as [-> ?].
Qed.

Lemma sum_indicator (x : K) (gs : list K) :
  NoDup gs →
  sum_list (map (λ g, if decide (x = g) then 1 else 0)%nat gs)
  = (if decide (x ∈ gs) then 1 else 0)%nat.
Proof.
  induction 1 as [|g gs Hg Hnd IH]; simpl; [done|].
  rewrite IH. destruct (decide (x = g)) as [->|Hne].
  - rewrite decide_False by done. rewrite decide_True; [done|].
    apply elem_of_cons. by left.
  - destruct (decide (x ∈ gs)).
    + rewrite decide_True; [done|]. apply elem_of_cons. by right.
    + rewrite decide_False; [done|]. by intros [?|?]%elem_of_cons.
Qed.

(** the counts of several different keys add up to the number of items
    that are one of them *)
Lemma sum_get0_Counter (l gs : list K) :
  NoDup gs →
  sum_list (map (get0 (Counter l)) gs) = length (filter (λ x, x ∈ gs) l).
Proof.
  intros Hnd.
  rewrite (map_ext _ (λ g, length (filter (λ x, x = g) l)))
    by (intros g; apply get0_Counter).
  induction l as [|x l IH]; simpl.
  - induction gs; simpl; [done|]. apply NoDup_cons in Hnd as [_ Hnd]. auto.
  - rewrite filter_cons.
    rewrite (map_ext _ (λ g, (if decide (x = g) then 1 else 0)
                             + length (filter (λ x, x = g) l))%nat).
    2:{ intros g. rewrite filter_cons. by destruct (decide (x = g)). }
    assert (∀ (f1 f2 : K → nat) (ks : list K),
      sum_list (map (λ g, f1 g + f2 g)%nat ks)
      = (sum_list (map f1 ks) + sum_list (map f2 ks))%nat) as Hsum.
    { intros f1 f2 ks. induction ks as [|k ks IHk]; simpl; [done|].
      rewrite IHk. lia. }
    rewrite Hsum, IH, sum_indicator by done.
    destruct (decide (x ∈ gs)); simpl; lia.
Qed.

End counter_facts.

Lemma phase_gates_NoDup : NoDup phase_gates.
Proof. apply (bool_decide_unpack _). vm_compute. exact I. Qed.

Lemma early_h_spec (gate_names : list string) :
  "h" ∈ take 3 gate_names →
  existsb (λ i, String.eqb (nth i gate_names "") "h")
    (Py.range (Z.min 3 (Z.of_nat (length gate_names)))) = true.
Proof.
  intros Hh. apply list_elem_of_lookup_1 in Hh as [i Hi].
  pose proof (lookup_lt_Some _ _ _ Hi) as Hlt. rewrite length_take in Hlt.
  rewrite lookup_take_lt in Hi by lia.
  apply existsb_exists. exists i. split.
  - unfold Py.range. apply in_seq. lia.
  - apply String.eqb_eq. apply nth_lookup_Some with (d := "") in Hi.
    by rewrite <- Hi.
Qed.

Lemma qft_label_nonempty seq : Spec.qft_label seq ≠ "".
Proof. unfold Spec.qft_label. by destruct (bool_decide _). Qed.

(** the first rule of [match_known_pattern] *)
Lemma match_known_pattern_qft seq :
  Spec.qft_conditions seq →
  (2 ≤ num_qubits (analyze_gate_sequence seq))%nat →
  match_known_pattern seq (analyze_gate_sequence seq)
  = Some (Spec.qft_label seq).
Proof.
  intros (Hh & Hratio & Hearly) Hq. unfold Spec.names in *.
  set (a := analyze_gate_sequence seq) in *.
  assert (gate_counts a = Counter (map gate_name seq)) as Hcounts by done.
  assert (bool_decide (is_Some (gate_counts a !! "h")) = true) as E1.
  { apply bool_decide_eq_true_2. rewrite Hcounts. by apply is_Some_Counter. }
  assert ((2 <=? num_qubits a)%nat = true) as E2 by by apply Nat.leb_le.
  assert ((1 <=? get0 (gate_counts a) "h")%nat = true) as E3.
  { apply Nat.leb_le. rewrite Hcounts, get0_Counter.
    by apply filter_eq_length_pos in Hh. }
  assert (sum_counts (gate_counts a) phase_gates = Spec.phase_count seq) as E4.
  { unfold sum_counts. rewrite Hcounts.
    apply sum_get0_Counter, phase_gates_NoDup. }
  assert ((0 <? Spec.phase_count seq)%nat = true) as E5
    by (apply Nat.ltb_lt; lia).
  assert (seq ≠ []) as Hne.
  { intros ->. by apply elem_of_nil in Hh. }
  assert ((0 <? length seq)%nat = true) as E6.
  { apply Nat.ltb_lt. destruct seq; [done|simpl; lia]. }
  assert (ratio_gt (Spec.phase_count seq) (length seq) 3 10 = true) as E7
    by by apply Z.ltb_lt.
  pose proof (early_h_spec _ Hearly) as E8.
  assert ((0 <? get0 (gate_counts a) "swap")%nat
          = bool_decide ("swap" ∈ map gate_name seq)) as E9.
  { rewrite Hcounts, get0_Counter.
    destruct (decide ("swap" ∈ map gate_name seq)) as [Hs|Hs].
    - rewrite bool_decide_eq_true_2 by done. apply Nat.ltb_lt.
      by apply filter_eq_length_pos.
    - rewrite bool_decide_eq_false_2 by done. apply Nat.ltb_ge.
      rewrite filter_eq_length_pos in Hs. lia. }
  unfold match_known_pattern. cbv zeta.
  rewrite E1, E2. cbv beta iota delta [andb].
  rewrite E4, E3, E5. cbv beta iota delta [andb].
  rewrite E6, E7, E9, E8. reflexivity.
Qed.

(** C8 (as the code has it): a sequence with a Hadamard, more than three
    tenths of phase-like gates and a Hadamard among its first three
    operations is labeled "QFT Circuit Segment", with the SWAP suffix exactly
    when it has a swap gate, provided its gates touch at least two qubits. *)
Theorem C8_qft_label_needs_two_qubits m seq :
  Spec.qft_conditions seq →
  (2 ≤ num_qubits (analyze_gate_sequence seq))%nat →
  label_macro m seq = Spec.qft_label seq.
Proof.
  intros Hc Hq. unfold label_macro. cbv zeta.
  rewrite (match_known_pattern_qft seq Hc Hq).
  by rewrite bool_decide_eq_false_2 by apply qft_label_nonempty.
Qed.

Lemma C8_witness :
  label_macro Inputs.no_macro Inputs.qft3 = "QFT Circuit Segment".
Proof.
  apply (C8_qft_label_needs_two_qubits Inputs.no_macro Inputs.qft3).
  - split; [|split].
    + apply (list_elem_of_lookup_2 _ 0%nat). reflexivity.
    + vm_compute. reflexivity.
    + apply (list_elem_of_lookup_2 _ 0%nat). reflexivity.
  - vm_compute. lia.
Defined.

(** C8 as stated fails: a Hadamard and a phase gate on one qubit meet the
    three conditions and are labeled "Hadamard Block". *)
Lemma C8_one_qubit_not_qft :
  ¬ (∀ m seq, Spec.qft_conditions seq → label_macro m seq = Spec.qft_label seq).
Proof.
  intros H. specialize (H Inputs.no_macro Inputs.h_p_one_qubit).
  assert (label_macro Inputs.no_macro Inputs.h_p_one_qubit = "Hadamard Block")
    as Hl by (vm_compute; reflexivity).
  assert (Spec.qft_label Inputs.h_p_one_qubit = "QFT Circuit Segment")
    as Hq by (vm_compute; reflexivity).
  assert (Spec.qft_conditions Inputs.h_p_one_qubit) as Hc.
  { split; [|split].
    - apply (list_elem_of_lookup_2 _ 0%nat). reflexivity.
    - vm_compute. reflexivity.
    - apply (list_elem_of_lookup_2 _ 0%nat). reflexivity. }
  specialize (H Hc).
  discriminate (eq_trans (eq_sym Hl) (eq_trans H Hq)).
Qed.

(* ===================================================================== *)
(** ** The graph of the sample run *)
(* ===================================================================== *)

Import Graph GraphSpec.

(** C7 (as the code has it): the sample [input_data] has one macro with
    count 2 and window size 2; [convert_to_app_circuit_format] builds from
    its 15 flat gates a graph of 21 nodes, with the init nodes at layer -1
    and the end nodes at layer 12, one above the top gate layer 11 of a
    circuit of depth 12; [parse_circuit_dag] leaves out the four gates
    inside the two macro spans and builds 17 nodes with the end nodes at
    layer 9. *)
Theorem C7_sample_graph :
  num_macros (r_statistics input_data) = 1
  ∧ map (λ d, (d_count d, d_window_size d, d_positions d)) (r_macros input_data)
    = [(2, 2, [PositionInfo 5 7; PositionInfo 7 9])]%Z
  ∧ circuit_depth (r_statistics input_data) = 12
  ∧ (∃ g, convert_to_app_circuit_format input_data = Some g
          ∧ id_layers Init g
            = [("q_start_0", -1); ("q_start_1", -1); ("q_start_2", -1)]%Z
          ∧ id_layers End g
            = [("q_end_0", 12); ("q_end_1", 12); ("q_end_2", 12)]%Z
          ∧ top_gate_layer g = 11
          ∧ length (nodes_of_type Gate g) = 15%nat
          ∧ length (nodes g) = 21%nat
          ∧ map i_gate_ids (macros g)
            = [["gate_5"; "gate_6"]; ["gate_7"; "gate_8"]])
  ∧ (∃ g, parse_circuit_dag input_data = Some g
          ∧ id_layers Init g
            = [("q_start_0", -1); ("q_start_1", -1); ("q_start_2", -1)]%Z
          ∧ id_layers End g
            = [("q_end_0", 9); ("q_end_1", 9); ("q_end_2", 9)]%Z
          ∧ length (nodes_of_type Gate g) = 11%nat
          ∧ length (nodes g) = 17%nat).
Proof.
  split; [reflexivity|]. split; [reflexivity|]. split; [reflexivity|]. split.
  - eexists. split; [vm_compute; reflexivity|].
    repeat split; vm_compute; reflexivity.
  - eexists. split; [vm_compute; reflexivity|].
    repeat split; vm_compute; reflexivity.
Qed.

(** C7 as stated fails: neither builder puts the end nodes of the sample at
    layer 13. *)
Lemma C7_end_nodes_not_at_13 :
  ¬ (∃ g, convert_to_app_circuit_format input_data = Some g
          ∧ fixture_as_stated g)
  ∧ ¬ (∃ g, parse_circuit_dag input_data = Some g ∧ fixture_as_stated g).
Proof.
  split; intros (g & Hg & _ & Hend & _); vm_compute in Hg;
    injection Hg as <-; vm_compute in Hend; discriminate Hend.
Qed.

(* ===================================================================== *)
(** ** The graph builder *)
(* ===================================================================== *)

Lemma fold_opt_snoc {A B} (f : B → A → option B) b l x :
  fold_opt f b (l ++ [x]) = fold_opt f b l ≫= λ b', f b' x.
Proof.
  revert b. induction l as [|y l IH]; intros b; simpl.
  - by destruct (f b x).
  - destruct (f b y) as [b'|]; simpl; [apply IH|done].
Qed.

(** a loop whose body keeps an invariant and never raises under it *)
Lemma fold_opt_invariant {A B} (P : B → Prop) (f : B → A → option B) l b :
  P b →
  (∀ b x, P b → x ∈ l → ∃ b', f b x = Some b' ∧ P b') →
  ∃ b', fold_opt f b l = Some b' ∧ P b'.
Proof.
  revert b. induction l as [|x l IH]; intros b Hb Hstep; simpl; [by exists b|].
  destruct (Hstep b x Hb) as (b1 & -> & Hb1); [apply elem_of_cons; by left|].
  simpl. apply IH; [done|]. intros b2 y Hb2 Hy. apply Hstep; [done|].
  apply elem_of_cons. by right.
Qed.

Lemma lookup_foldl_insert (m : gmap string string) (qs : list string) id q :
  foldl (λ m q, <[q := id]> m) m qs !! q
  = if decide (q ∈ qs) then Some id else m !! q.
Proof.
  revert m. induction qs as [|q' qs IH]; intros m; cbn [foldl].
  - rewrite decide_False; [done|apply not_elem_of_nil].
  - rewrite IH. destruct (decide (q ∈ qs)) as [Hq|Hq].
    + rewrite decide_True; [done|]. apply elem_of_cons. by right.
    + destruct (decide (q = q')) as [->|Hne].
      * rewrite lookup_insert_eq. rewrite decide_True; [done|].
        apply elem_of_cons. by left.
      * rewrite lookup_insert_ne by done. rewrite decide_False; [done|].
        by intros [?|?]%elem_of_cons.
Qed.

(** the builder after the init nodes *)
Lemma init_phase qs :
  let b0 := foldl add_init_node empty_builder qs in
  output_nodes b0 = map init_node qs
  ∧ output_edges b0 = []
  ∧ max_gate_layer b0 = 0
  ∧ (∀ q, q ∈ qs → last_node_on_qubit b0 !! q = Some (start_id q))
  ∧ (∀ q id, last_node_on_qubit b0 !! q = Some id → id = start_id q ∧ q ∈ qs)
  ∧ (∀ q, q ∈ qs → node_layers b0 !! start_id q = Some start_layer)
  ∧ (∀ id l, node_layers b0 !! id = Some l →
       l = start_layer ∧ ∃ q, q ∈ qs ∧ id = start_id q).
Proof.
  cbv zeta. induction qs as [|q qs IH] using rev_ind.
  - simpl. repeat split; try done.
    + intros q H. by apply elem_of_nil in H.
    + intros q H. by apply elem_of_nil in H.
  - rewrite foldl_snoc.
    destruct IH as (Hn & He & Hm & Hlast & Hlast' & Hlay & Hlay').
    set (b := foldl add_init_node empty_builder qs) in *.
    simpl. split; [by rewrite Hn, map_app|]. split; [done|]. split; [done|].
    split; [|split; [|split]].
    + intros q' [Hq'| ->%list_elem_of_singleton]%elem_of_app.
      * destruct (decide (q = q')) as [->|Hne];
          [by rewrite lookup_insert_eq|].
        rewrite lookup_insert_ne by done. by apply Hlast.
      * by rewrite lookup_insert_eq.
    + intros q' id. destruct (decide (q = q')) as [->|Hne].
      * rewrite lookup_insert_eq. intros [= <-]. split; [done|].
        apply elem_of_app. right. by apply list_elem_of_singleton.
      * rewrite lookup_insert_ne by done. intros Hq'.
        destruct (Hlast' _ _ Hq') as [-> ?]. split; [done|].
        apply elem_of_app. by left.
    + intros q' Hq'. destruct (decide (start_id q = start_id q')) as [->|Hne];
        [by rewrite lookup_insert_eq|].
      rewrite lookup_insert_ne by done.
      apply elem_of_app in Hq' as [Hq'| ->%list_elem_of_singleton];
        [by apply Hlay|done].
    + intros id l. destruct (decide (start_id q = id)) as [<-|Hne].
      * rewrite lookup_insert_eq. intros [= <-]. split; [done|].
        exists q. split; [|done]. apply elem_of_app. right.
        by apply list_elem_of_singleton.
      * rewrite lookup_insert_ne by done. intros Hid.
        destruct (Hlay' _ _ Hid) as (-> & q' & Hq' & ->). split; [done|].
        exists q'. split; [|done]. apply elem_of_app. by left.
Qed.

Lemma init_phase_wf qs :
  wf (foldl add_init_node empty_builder qs)
  ∧ covers qs (foldl add_init_node empty_builder qs).
Proof.
  destruct (init_phase qs) as (_ & _ & _ & Hlast & Hlast' & Hlay & _). split.
  - intros q id Hq. destruct (Hlast' _ _ Hq) as [-> Hin].
    rewrite (Hlay _ Hin). by eexists.
  - intros q Hq. rewrite (Hlast _ Hq). by eexists.
Qed.

(** the loop over the qubits of a node never raises on a well-formed
    builder *)
Lemma predecessors_total b qubits :
  wf b → ∃ preds, predecessors b qubits = Some preds ∧ preds_ok b qubits preds.
Proof.
  intros Hwf. unfold predecessors.
  assert (∃ preds, fold_opt (add_predecessor b) ([], []) qubits = Some preds
                   ∧ preds_ok b qubits preds ) as H; [|done].
  apply (fold_opt_invariant (preds_ok b qubits)).
  - split; [constructor|]. split; [constructor|].
    intros p Hp. by apply elem_of_nil in Hp.
  - intros acc q (Hlayers & Hnd & Hlast) Hq. unfold add_predecessor.
    destruct (last_node_on_qubit b !! q) as [pred_id|] eqn:Hl;
      [|by exists acc].
    destruct (decide ((pred_id, q) ∈ acc.1)) as [Hin|Hin].
    + rewrite bool_decide_eq_true_2 by done. by exists acc.
    + rewrite bool_decide_eq_false_2 by done.
      destruct (Hwf _ _ Hl) as [l Hlay]. rewrite Hlay. simpl.
      eexists. split; [done|]. simpl. split; [|split].
      * apply Forall2_app; [done|]. by repeat constructor.
      * apply NoDup_app. split; [done|]. split; [|apply NoDup_singleton].
        intros x Hx ->%list_elem_of_singleton. done.
      * intros p [Hp| ->%list_elem_of_singleton]%elem_of_app; [by apply Hlast|].
        done.
Qed.

(** one turn of the layer loop on a well-formed builder *)
Lemma add_gate_node_total b n :
  wf b →
  ∃ preds,
    preds_ok b (n_qubits n) preds
    ∧ add_gate_node b n
      = Some {| output_nodes := output_nodes b ++ [with_layer n (layer_of preds.2)];
                output_edges := output_edges b ++ map (edge_to (n_id n)) preds.1;
                last_node_on_qubit :=
                  foldl (λ m q, <[q := n_id n]> m) (last_node_on_qubit b)
                        (n_qubits n);
                node_layers := <[n_id n := layer_of preds.2]> (node_layers b);
                max_gate_layer := Z.max (max_gate_layer b) (layer_of preds.2) |}.
Proof.
  intros Hwf. destruct (predecessors_total b (n_qubits n) Hwf) as (preds & Hp & Hok).
  exists preds. split; [done|]. unfold add_gate_node. by rewrite Hp.
Qed.

Lemma add_gate_node_wf qs b n b' :
  wf b → covers qs b → add_gate_node b n = Some b' → wf b' ∧ covers qs b'.
Proof.
  intros Hwf Hcov Hstep.
  destruct (add_gate_node_total b n Hwf) as (preds & _ & Heq).
  rewrite Heq in Hstep. injection Hstep as <-. split.
  - intros q id. simpl. rewrite lookup_foldl_insert.
    destruct (decide (q ∈ n_qubits n)).
    + intros [= <-]. rewrite lookup_insert_eq. by eexists.
    + intros Hq. destruct (Hwf _ _ Hq) as [l Hl].
      destruct (decide (n_id n = id)) as [->|Hne].
      * rewrite lookup_insert_eq. by eexists.
      * rewrite lookup_insert_ne by done. by eexists.
  - intros q Hq. simpl. rewrite lookup_foldl_insert.
    destruct (decide (q ∈ n_qubits n)); [by eexists|by apply Hcov].
Qed.

(** the builder after the gate nodes: nothing is raised, the gates are
    appended with their layers, and [max_gate_layer] is the largest of them
    and of its start value *)
Lemma gate_phase qs hn b0 :
  wf b0 → covers qs b0 →
  ∃ b1 gl,
    fold_opt add_gate_node b0 hn = Some b1
    ∧ wf b1 ∧ covers qs b1
    ∧ output_nodes b1 = output_nodes b0 ++ gl
    ∧ Forall2 layer_filled gl hn
    ∧ max_gate_layer b1 = foldl Z.max (max_gate_layer b0) (map n_layer gl).
Proof.
  revert b0. induction hn as [|n hn IH]; intros b0 Hwf Hcov; simpl.
  - exists b0, []. rewrite app_nil_r. repeat split; try done; constructor.
  - destruct (add_gate_node_total b0 n Hwf) as (preds & _ & Heq).
    destruct (add_gate_node_wf qs b0 n _ Hwf Hcov Heq) as [Hwf' Hcov'].
    rewrite Heq. simpl.
    destruct (IH _ Hwf' Hcov') as (b1 & gl & Hfold & Hwf1 & Hcov1 & Hn & Hgl & Hm).
    exists b1, (with_layer n (layer_of preds.2) :: gl).
    split; [done|]. split; [done|]. split; [done|].
    split; [by rewrite Hn; simpl; rewrite <- app_assoc|].
    split; [constructor; [by eexists|done]|]. by rewrite Hm.
Qed.

(** the builder after the end nodes *)
Lemma end_phase max_pos end_layer qs b1 :
  covers qs b1 →
  ∃ b2 es,
    fold_opt (add_end_node max_pos end_layer) b1 qs = Some b2
    ∧ output_nodes b2
      = output_nodes b1 ++ map (λ q, end_node q max_pos end_layer) qs
    ∧ output_edges b2 = output_edges b1 ++ es
    ∧ Forall2 (λ e q, ∃ pred_id, last_node_on_qubit b1 !! q = Some pred_id
                                 ∧ e = edge_to (end_id q) (pred_id, q)) es qs
    ∧ node_layers b2 = node_layers b1
    ∧ max_gate_layer b2 = max_gate_layer b1.
Proof.
  revert b1. induction qs as [|q qs IH]; intros b1 Hcov.
  - exists b1, []. simpl. rewrite !app_nil_r. repeat split; try done; constructor.
  - destruct (Hcov q) as [pred_id Hq]; [apply elem_of_cons; by left|].
    set (b := {| output_nodes := output_nodes b1 ++ [end_node q max_pos end_layer];
                 output_edges :=
                   output_edges b1 ++ [edge_to (end_id q) (pred_id, q)];
                 last_node_on_qubit := last_node_on_qubit b1;
                 node_layers := node_layers b1;
                 max_gate_layer := max_gate_layer b1 |}).
    assert (add_end_node max_pos end_layer b1 q = Some b) as Hstep.
    { unfold add_end_node. by rewrite Hq. }
    destruct (IH b) as (b2 & es & Hfold & Hn & He & Hes & Hl & Hm).
    { intros q' Hq'. simpl. apply Hcov, elem_of_cons. by right. }
    exists b2, (edge_to (end_id q) (pred_id, q) :: es).
    split; [cbn [fold_opt]; by rewrite Hstep|].
    split; [by rewrite Hn; simpl; rewrite <- app_assoc|].
    split; [by rewrite He; simpl; rewrite <- app_assoc|].
    split; [|done]. constructor; [by exists pred_id|done].
Qed.

Lemma build_nodes n hn :
  ∃ b gl,
    build n hn = Some b
    ∧ Forall2 layer_filled gl hn
    ∧ output_nodes b
      = map init_node (qubit_list n) ++ gl
        ++ map (λ q, end_node q (max_position hn)
                       (foldl Z.max 0 (map n_layer gl) + 1))
               (qubit_list n).
Proof.
  unfold build. set (qs := qubit_list n).
  destruct (init_phase qs) as (Hn0 & _ & Hm0 & _).
  destruct (init_phase_wf qs) as [Hwf0 Hcov0].
  set (b0 := foldl add_init_node empty_builder qs) in *.
  destruct (gate_phase qs hn b0 Hwf0 Hcov0)
    as (b1 & gl & Hfold & Hwf1 & Hcov1 & Hn1 & Hgl & Hm1).
  rewrite Hfold. simpl.
  destruct (end_phase (max_position hn) (max_gate_layer b1 + 1) qs b1 Hcov1)
    as (b2 & es & Hfold2 & Hn2 & _).
  exists b2, gl. split; [done|]. split; [done|].
  by rewrite Hn2, Hn1, Hn0, Hm1, Hm0, <- app_assoc.
Qed.

Section filter_facts.

Context {A : Type} (P : A → Prop) `{∀ x, Decision (P x)}.

Lemma filter_none (l : list A) : (∀ x, x ∈ l → ¬ P x) → filter P l = [].
Proof.
  induction l as [|x l IH]; intros Hl; [done|].
  rewrite filter_cons_False; [|apply Hl, elem_of_cons; by left].
  apply IH. intros y Hy. apply Hl, elem_of_cons. by right.
Qed.

Lemma filter_all (l : list A) : (∀ x, x ∈ l → P x) → filter P l = l.
Proof.
  induction l as [|x l IH]; intros Hl; [done|].
  rewrite filter_cons_True; [|apply Hl, elem_of_cons; by left].
  f_equal. apply IH. intros y Hy. apply Hl, elem_of_cons. by right.
Qed.

Lemma filter_map_unique {B} (f : B → A) (l : list B) (x : B) :
  NoDup l → x ∈ l → P (f x) → (∀ y, y ∈ l → P (f y) → y = x) →
  filter P (map f l) = [f x].
Proof.
  induction 1 as [|y l Hy Hnd IH]; intros Hx HPx Huniq;
    [by apply elem_of_nil in Hx|].
  simpl. apply elem_of_cons in Hx as [->|Hx].
  - rewrite filter_cons_True by done. f_equal. apply filter_none.
    intros z Hz HPz. apply list_elem_of_In, in_map_iff in Hz as (w & <- & Hw).
    apply list_elem_of_In in Hw.
    assert (w = y) as -> by (apply Huniq; [apply elem_of_cons; by right|done]).
    done.
  - rewrite filter_cons_False.
    + apply IH; [done..|]. intros z Hz. apply Huniq, elem_of_cons. by right.
    + intros HPy. assert (y = x) as -> by (apply Huniq; [apply elem_of_cons; by left|done]).
      done.
Qed.

End filter_facts.

Lemma qubit_list_NoDup n : NoDup (qubit_list n).
Proof.
  unfold qubit_list, Py.range, Py.str_int.
  change (NoDup ((λ i : nat, pretty (Z.of_nat i)) <$> seq 0 (Z.to_nat n))).
  apply NoDup_fmap_2; [|apply NoDup_seq].
  intros i j Hij. apply (inj pretty) in Hij. lia.
Qed.

Lemma qubit_list_elem n i :
  (0 ≤ i < n)%Z → Py.str_int i ∈ qubit_list n.
Proof.
  intros Hi. unfold qubit_list, Py.range.
  apply list_elem_of_In, in_map_iff. exists (Z.to_nat i). split.
  - f_equal. lia.
  - apply in_seq. lia.
Qed.

Lemma layer_filled_fields g h :
  layer_filled g h →
  n_id g = n_id h ∧ n_type g = n_type h ∧ n_qubits g = n_qubits h
  ∧ n_position g = n_position h.
Proof. by intros [l ->]. Qed.

Lemma Forall2_layer_filled_types gl hn :
  Forall2 layer_filled gl hn → Forall (λ h, n_type h = Gate) hn →
  ∀ g, g ∈ gl → n_type g = Gate.
Proof.
  intros H2 Hall g Hg.
  apply list_elem_of_lookup_1 in Hg as [i Hi].
  destruct (Forall2_lookup_l _ _ _ _ _ H2 Hi) as (h & Hh & Hf).
  apply layer_filled_fields in Hf as (_ & -> & _).
  rewrite Forall_forall in Hall. apply Hall. by eapply list_elem_of_lookup_2.
Qed.

(** the three parts of the node list of a graph built from gate nodes *)
Lemma built_nodes_by_type n hn (g : graph) gl max_pos top :
  Forall (λ h, n_type h = Gate) hn → Forall2 layer_filled gl hn →
  nodes g = map init_node (qubit_list n) ++ gl
            ++ map (λ q, end_node q max_pos top) (qubit_list n) →
  nodes_of_type Gate g = gl
  ∧ (∀ q, q ∈ qubit_list n → boundary_nodes Init q g = [init_node q])
  ∧ (∀ q, q ∈ qubit_list n → boundary_nodes End q g = [end_node q max_pos top]).
Proof.
  intros Hhn Hgl Hg.
  pose proof (Forall2_layer_filled_types gl hn Hgl Hhn) as Hgates.
  pose proof (qubit_list_NoDup n) as Hnd.
  assert (∀ t (x : node), t ≠ Init →
            x ∈ map init_node (qubit_list n) → ¬ (n_type x = t)) as Hinit.
  { intros t x Ht Hx Hx'.
    apply list_elem_of_In, in_map_iff in Hx as (q' & <- & _). by destruct Ht. }
  assert (∀ t (x : node), t ≠ End →
            x ∈ map (λ q, end_node q max_pos top) (qubit_list n) →
            ¬ (n_type x = t)) as Hend.
  { intros t x Ht Hx Hx'.
    apply list_elem_of_In, in_map_iff in Hx as (q' & <- & _). by destruct Ht. }
  unfold nodes_of_type, boundary_nodes. rewrite Hg. split; [|split].
  - rewrite !filter_app.
    rewrite (filter_none _ (map init_node _)) by (intros x Hx; by apply (Hinit Gate)).
    rewrite (filter_all _ gl) by done.
    rewrite filter_none by (intros x Hx; by apply (Hend Gate)).
    by rewrite app_nil_r.
  - intros q Hq. rewrite !filter_app.
    rewrite (filter_map_unique _ init_node _ q); [|done..|].
    2:{ intros q' _ [_ Hq']. simpl in Hq'. by injection Hq'. }
    rewrite (filter_none _ gl).
    2:{ intros x Hx [Ht _]. by rewrite (Hgates x Hx) in Ht. }
    rewrite filter_none; [done|].
    intros x Hx [Ht _]. by apply (Hend Init x).
  - intros q Hq. rewrite !filter_app.
    rewrite (filter_none _ (map init_node _)).
    2:{ intros x Hx [Ht _]. by apply (Hinit End x). }
    rewrite (filter_none _ gl).
    2:{ intros x Hx [Ht _]. by rewrite (Hgates x Hx) in Ht. }
    rewrite (filter_map_unique _ (λ q, end_node q max_pos top) _ q); [done..|].
    intros q' _ [_ Hq']. simpl in Hq'. by injection Hq'.
Qed.

Lemma gate_nodes_are_gates (items : list flat_item) :
  Forall (λ h, n_type h = Gate)
    (map (λ item, gate_node (f_gate item) (f_qubits item) (f_position item))
         items).
Proof. apply Forall_forall. intros h Hh.
  by apply list_elem_of_In, in_map_iff in Hh as (item & <- & _).
Qed.

(** C5 (as the code has it): for every qubit below [num_qubits] the graph
    has exactly one init node, at layer -1, and exactly one end node, and
    every end node is one layer above the top gate layer of the whole graph
    (0 when there is no gate), whatever gates touch its qubit. *)
Theorem C5_boundary_nodes_and_common_end_layer r i :
  (0 ≤ i < num_qubits (r_statistics r))%Z →
  ∃ g, convert_to_app_circuit_format r = Some g
       ∧ boundary_nodes Init (Py.str_int i) g = [init_node (Py.str_int i)]
       ∧ n_layer (init_node (Py.str_int i)) = (-1)%Z
       ∧ ∃ max_pos,
           boundary_nodes End (Py.str_int i) g
           = [end_node (Py.str_int i) max_pos (top_gate_layer g + 1)].
Proof.
  intros Hi. unfold convert_to_app_circuit_format. cbv zeta.
  set (hn := map _ (dag_flat r)).
  destruct (build_nodes (num_qubits (r_statistics r)) hn)
    as (b & gl & Hb & Hgl & Hnodes).
  rewrite Hb. simpl. eexists. split; [done|].
  set (g := {| nodes := output_nodes b |}).
  pose proof (qubit_list_elem _ _ Hi) as Hq.
  destruct (built_nodes_by_type _ hn g gl _ _ (gate_nodes_are_gates _) Hgl Hnodes)
    as (Hgates & Hinit & Hend).
  split; [by apply Hinit|]. split; [done|].
  exists (max_position hn). rewrite (Hend _ Hq).
  unfold top_gate_layer. by rewrite Hgates.
Qed.

Lemma C5_witness :
  ∃ g, convert_to_app_circuit_format input_data = Some g
       ∧ boundary_nodes Init "1" g = [init_node "1"]
       ∧ n_layer (init_node "1") = (-1)%Z
       ∧ ∃ max_pos,
           boundary_nodes End "1" g
           = [end_node "1" max_pos (top_gate_layer g + 1)].
Proof.
  apply (C5_boundary_nodes_and_common_end_layer input_data 1). simpl. lia.
Defined.

(** C5 as stated fails: with two qubits and one Hadamard on qubit 0, no gate
    touches qubit 1, yet its end node is at layer 1 and not at 0. *)
Lemma C5_end_layer_not_per_qubit :
  ¬ (∀ r g q nd,
       convert_to_app_circuit_format r = Some g →
       nd ∈ boundary_nodes End q g →
       n_layer nd = per_qubit_end_layer g q).
Proof.
  intros H.
  assert (∃ g, convert_to_app_circuit_format Inputs.one_gate_two_qubits = Some g)
    as [g Hg] by (eexists; vm_compute; reflexivity).
  specialize (H Inputs.one_gate_two_qubits g "1" (end_node "1" 1 1) Hg).
  vm_compute in Hg. injection Hg as <-.
  assert (end_node "1" 1 1 ∈ boundary_nodes End "1"
            {| nodes := [init_node "0"; init_node "1";
                         with_layer (gate_node "h" ["0"] 0) 0;
                         end_node "0" 1 1; end_node "1" 1 1];
               edges := [edge_to "gate_0" ("q_start_0", "0");
                         edge_to "q_end_0" ("gate_0", "0");
                         edge_to "q_end_1" ("q_start_1", "1")];
               macros := [] |}) as Hin.
  { apply (list_elem_of_lookup_2 _ 0%nat). vm_compute. reflexivity. }
  specialize (H Hin). vm_compute in H. discriminate H.
Qed.

(* ===================================================================== *)
(** ** Layers along the edges *)
(* ===================================================================== *)

Lemma start_id_inj q1 q2 : start_id q1 = start_id q2 → q1 = q2.
Proof. unfold start_id. simpl. intros [= H]. exact H. Qed.

Lemma end_id_inj q1 q2 : end_id q1 = end_id q2 → q1 = q2.
Proof. unfold end_id. simpl. intros [= H]. exact H. Qed.

Lemma gate_id_inj p1 p2 : gate_id p1 = gate_id p2 → p1 = p2.
Proof.
  unfold gate_id, Py.str_int. simpl. intros [= Hp].
  apply (inj pretty). exact Hp.
Qed.

Lemma start_id_not_end q1 q2 : start_id q1 ≠ end_id q2.
Proof. unfold start_id, end_id. simpl. by intros [=]. Qed.

Lemma gate_id_not_start p q : gate_id p ≠ start_id q.
Proof. unfold start_id, gate_id. simpl. by intros [=]. Qed.

Lemma gate_id_not_end p q : gate_id p ≠ end_id q.
Proof. unfold end_id, gate_id. simpl. by intros [=]. Qed.

Lemma foldl_max_le (l : list Z) (x y : Z) :
  (y ≤ x)%Z ∨ y ∈ l → (y ≤ foldl Z.max x l)%Z.
Proof.
  revert x. induction l as [|z l IH]; intros x; simpl.
  - intros [?|H]; [done|by apply elem_of_nil in H].
  - intros [?|[->|?]%elem_of_cons]; apply IH; (left; lia) || by right.
Qed.

Lemma layer_of_above (ls : list Z) (l : Z) : l ∈ ls → (1 + l ≤ layer_of ls)%Z.
Proof.
  destruct ls as [|l0 ls]; [by intros H%elem_of_nil|]. simpl.
  intros [->|Hl]%elem_of_cons.
  - pose proof (foldl_max_le ls l0 l0 (or_introl (Z.le_refl _))). lia.
  - pose proof (foldl_max_le ls l0 l (or_intror Hl)). lia.
Qed.

Lemma map_n_id_elem (l : list node) (nd : node) :
  nd ∈ l → n_id nd ∈ map n_id l.
Proof. intros H. apply list_elem_of_In, in_map. by apply list_elem_of_In. Qed.

Lemma init_phase_layered qs :
  NoDup qs → layered (foldl add_init_node empty_builder qs).
Proof.
  intros Hnd.
  destruct (init_phase qs) as (Hn & He & Hm & Hlast & Hlast' & Hlay & Hlay').
  unfold layered. rewrite Hn, He, Hm. split; [|split; [|split; [|split; [|split]]]].
  - rewrite map_map. simpl.
    change (NoDup (start_id <$> qs)).
    apply NoDup_fmap_2_strong; [|done]. intros ?? _ _. apply start_id_inj.
  - intros nd Hnode. apply list_elem_of_In, in_map_iff in Hnode as (q & <- & Hq).
    apply Hlay. by apply list_elem_of_In.
  - intros id [l Hl]. destruct (Hlay' _ _ Hl) as (_ & q & Hq & ->).
    rewrite map_map. simpl. apply list_elem_of_In, in_map_iff.
    exists q. split; [done|]. by apply list_elem_of_In.
  - intros e H. by apply elem_of_nil in H.
  - intros id l Hl. destruct (Hlay' _ _ Hl) as (-> & _). done.
  - intros nd Hnode Ht.
    by apply list_elem_of_In, in_map_iff in Hnode as (q & <- & _).
Qed.

Lemma omap_ext_in {A B} (f g : A → option B) (l : list A) :
  (∀ x, x ∈ l → f x = g x) → omap f l = omap g l.
Proof.
  induction l as [|x l IH]; intros H; [done|]. csimpl.
  rewrite (H x) by (apply elem_of_cons; by left).
  rewrite IH; [done|]. intros y Hy. apply H, elem_of_cons. by right.
Qed.

Lemma omap_pred_layers (m : gmap string Z) id ps ls :
  Forall2 (λ (p : string * string) l, m !! p.1 = Some l) ps ls →
  omap (λ e, m !! e_from e) (map (edge_to id) ps) = ls.
Proof.
  induction 1 as [|p l ps ls Hp _ IH]; [done|]. csimpl. rewrite Hp. csimpl.
  by rewrite IH.
Qed.

Lemma Forall2_elem_l {A B} (R : A → B → Prop) l k x :
  Forall2 R l k → x ∈ l → ∃ y, y ∈ k ∧ R x y.
Proof.
  intros H2 [i Hi]%list_elem_of_lookup_1.
  destruct (Forall2_lookup_l _ _ _ _ _ H2 Hi) as (y & Hy & HR).
  exists y. split; [by eapply list_elem_of_lookup_2|done].
Qed.

(** one turn of the layer loop keeps the bookkeeping right when the id of
    the node is new *)
Lemma add_gate_node_layered b n b' :
  wf b → layered b → n_id n ∉ map n_id (output_nodes b) →
  add_gate_node b n = Some b' → layered b'.
Proof.
  intros Hwf (L1 & L2 & L3 & L4 & L5 & L6) Hfresh Hstep.
  destruct (add_gate_node_total b n Hwf) as (preds & (Hlayers & _ & _) & Heq).
  rewrite Heq in Hstep. injection Hstep as <-.
  set (id := n_id n) in *. set (cur := layer_of preds.2).
  assert (∀ id', is_Some (node_layers b !! id') → id' ≠ id) as Hold.
  { intros id' Hsome ->. by apply Hfresh, L3. }
  assert (∀ e, e ∈ output_edges b → e_from e ≠ id ∧ e_to e ≠ id) as Hedges.
  { intros e He. destruct (L4 e He) as (lu & lv & Hu & Hv & _).
    split; apply Hold; by eexists. }
  assert (∀ p, p ∈ preds.1 → ∃ l, l ∈ preds.2 ∧ node_layers b !! p.1 = Some l)
    as Hpreds.
  { intros p Hp.
    exact (Forall2_elem_l (λ (p : string * string) l,
                             node_layers b !! p.1 = Some l) _ _ p Hlayers Hp). }
  unfold layered. simpl.
  split; [|split; [|split; [|split; [|split]]]].
  - rewrite map_app. simpl. apply NoDup_app. split; [done|].
    split; [|apply NoDup_singleton].
    intros x Hx ->%list_elem_of_singleton. done.
  - intros nd [Hnode| ->%list_elem_of_singleton]%elem_of_app.
    + rewrite lookup_insert_ne; [by apply L2|].
      intros Heq'. apply Hfresh. rewrite Heq'. by apply map_n_id_elem.
    + simpl. by rewrite lookup_insert_eq.
  - intros id' Hsome. rewrite map_app. apply elem_of_app.
    destruct (decide (id = id')) as [<-|Hne].
    + right. simpl. by apply list_elem_of_singleton.
    + left. apply L3. by rewrite lookup_insert_ne in Hsome.
  - intros e [He|He]%elem_of_app.
    + destruct (L4 e He) as (lu & lv & Hu & Hv & Hle).
      destruct (Hedges e He) as [Hf Ht]. exists lu, lv.
      by rewrite !lookup_insert_ne.
    + apply list_elem_of_In, in_map_iff in He as (p & <- & Hp).
      apply list_elem_of_In in Hp. destruct (Hpreds p Hp) as (l & Hl & Hpl).
      exists l, cur. simpl. split; [|split].
      * rewrite lookup_insert_ne; [done|]. apply not_eq_sym, Hold. by eexists.
      * by rewrite lookup_insert_eq.
      * by apply layer_of_above.
  - intros id' l. destruct (decide (id = id')) as [<-|Hne].
    + rewrite lookup_insert_eq. intros [= <-]. lia.
    + rewrite lookup_insert_ne by done. intros Hl. specialize (L5 _ _ Hl). lia.
  - intros nd Hnode Ht. rewrite filter_app.
    apply elem_of_app in Hnode as [Hnode| ->%list_elem_of_singleton].
    + assert (n_id nd ≠ id) as Hne.
      { intros Heq'. apply Hfresh. fold id. rewrite <- Heq'.
        by apply map_n_id_elem. }
      rewrite (filter_none _ (map _ _)).
      2:{ intros e He Hto. apply list_elem_of_In, in_map_iff in He as (p & <- & _).
          simpl in Hto. congruence. }
      rewrite app_nil_r, (L6 nd Hnode Ht). f_equal. apply omap_ext_in.
      intros e [_ He]%list_elem_of_filter.
      destruct (Hedges e He) as [Hf _]. by rewrite lookup_insert_ne.
    + simpl. rewrite (filter_none _ (output_edges b)).
      2:{ intros e He Hto. destruct (Hedges e He) as [_ Hne]. done. }
      rewrite filter_all.
      2:{ intros e He. by apply list_elem_of_In, in_map_iff in He as (p & <- & _). }
      simpl. f_equal. symmetry. apply omap_pred_layers.
      eapply Forall2_impl; [exact Hlayers|]. intros p l Hpl. simpl in *.
      rewrite lookup_insert_ne; [done|]. apply not_eq_sym, Hold. by eexists.
Qed.

(** the layer loop keeps the bookkeeping right when the ids of the nodes
    are new and distinct *)
Lemma gate_phase_layered qs hn b0 b1 :
  wf b0 → covers qs b0 → layered b0 →
  NoDup (map n_id hn) →
  (∀ h, h ∈ hn → n_id h ∉ map n_id (output_nodes b0)) →
  fold_opt add_gate_node b0 hn = Some b1 → layered b1.
Proof.
  revert b0. induction hn as [|n hn IH]; intros b0 Hwf Hcov Hlay Hnd Hfresh Hfold.
  - simpl in Hfold. by injection Hfold as <-.
  - simpl in Hnd. apply NoDup_cons in Hnd as [Hn Hnd].
    destruct (add_gate_node_total b0 n Hwf) as (preds & _ & Heq).
    cbn [fold_opt] in Hfold. rewrite Heq in Hfold. cbn [mbind option_bind] in Hfold.
    destruct (add_gate_node_wf qs b0 n _ Hwf Hcov Heq) as [Hwf' Hcov'].
    eapply (IH _ Hwf' Hcov'); [|done| |exact Hfold].
    + eapply add_gate_node_layered; [exact Hwf|exact Hlay| |exact Heq].
      apply Hfresh, elem_of_cons. by left.
    + intros h Hh. simpl. rewrite map_app. simpl.
      intros [Hin|Heq'%list_elem_of_singleton]%elem_of_app.
      * eapply Hfresh; [|exact Hin]. apply elem_of_cons. by right.
      * apply Hn. rewrite <- Heq'. by apply map_n_id_elem.
Qed.

Lemma node_layer_spec (g : graph) (nd : node) :
  NoDup (map n_id (nodes g)) → nd ∈ nodes g →
  node_layer g (n_id nd) = Some (n_layer nd).
Proof.
  unfold node_layer. generalize (nodes g). intros l Hnd Hin.
  induction l as [|x l IH]; [by apply elem_of_nil in Hin|].
  simpl in Hnd. apply NoDup_cons in Hnd as [Hx Hnd].
  rewrite filter_cons. destruct (decide (n_id x = n_id nd)) as [Heq|Hne].
  - simpl. apply elem_of_cons in Hin as [->|Hin]; [done|].
    destruct Hx. rewrite Heq. by apply map_n_id_elem.
  - apply elem_of_cons in Hin as [->|Hin]; [done|]. by apply IH.
Qed.

Lemma layer_filled_ids gl hn :
  Forall2 layer_filled gl hn → map n_id gl = map n_id hn.
Proof.
  induction 1 as [|g h gl hn Hgh _ IH]; [done|]. simpl.
  apply layer_filled_fields in Hgh as (-> & _). by rewrite IH.
Qed.

(** the graph built from gate nodes with new, distinct ids is well
    layered *)
Lemma build_layering n hn :
  Forall (λ h, n_type h = Gate) hn →
  NoDup (map n_id hn) →
  (∀ h q, h ∈ hn → n_id h ≠ start_id q ∧ n_id h ≠ end_id q) →
  ∃ b, build n hn = Some b
       ∧ ∀ g, nodes g = output_nodes b → edges g = output_edges b →
              layering_ok g.
Proof.
  intros Hgates Hnd Hids. unfold build. set (qs := qubit_list n).
  destruct (init_phase qs) as (Hn0 & _ & Hm0 & _).
  destruct (init_phase_wf qs) as [Hwf0 Hcov0].
  pose proof (init_phase_layered qs (qubit_list_NoDup n)) as Hlay0.
  set (b0 := foldl add_init_node empty_builder qs) in *.
  destruct (gate_phase qs hn b0 Hwf0 Hcov0)
    as (b1 & gl & Hfold & Hwf1 & Hcov1 & Hn1 & Hgl & Hm1).
  assert (layered b1) as (L1 & L2 & L3 & L4 & L5 & L6).
  { eapply (gate_phase_layered qs hn b0 b1); try done.
    intros h Hh. rewrite Hn0, map_map. simpl.
    intros Hin. apply list_elem_of_In, in_map_iff in Hin as (q & Hq & _).
    by destruct (Hids h q Hh) as [Hne _]. }
  rewrite Hfold. cbn [mbind option_bind].
  set (top := max_gate_layer b1 + 1).
  destruct (end_phase (max_position hn) top qs b1 Hcov1)
    as (b2 & es & Hfold2 & Hn2 & He2 & Hes & _ & _).
  exists b2. split; [done|]. intros g Hgn Hge.
  rewrite Hn2 in Hgn. rewrite He2 in Hge.
  set (ends := map (λ q, end_node q (max_position hn) top) qs) in *.
  assert (map n_id (output_nodes b1) = map start_id qs ++ map n_id hn) as Hids1.
  { rewrite Hn1, Hn0, map_app, map_map. simpl.
    by rewrite (layer_filled_ids gl hn Hgl). }
  assert (∀ q, end_id q ∉ map n_id (output_nodes b1)) as Hfresh.
  { intros q. rewrite Hids1.
    intros [Hin|Hin]%elem_of_app;
      apply list_elem_of_In, in_map_iff in Hin as (x & Hx & Hin).
    - by apply (start_id_not_end x q).
    - apply list_elem_of_In in Hin. by destruct (Hids x q Hin) as [_ Hne]. }
  assert (NoDup (map n_id (nodes g))) as F1.
  { rewrite Hgn, map_app. apply NoDup_app. split; [done|]. split.
    - intros x Hx Hin. unfold ends in Hin. rewrite map_map in Hin. simpl in Hin.
      apply list_elem_of_In, in_map_iff in Hin as (q & <- & _).
      by apply (Hfresh q).
    - unfold ends. rewrite map_map. simpl. change (NoDup (end_id <$> qs)).
      apply NoDup_fmap_2_strong; [|apply qubit_list_NoDup].
      intros ?? _ _. apply end_id_inj. }
  assert (∀ id l, node_layers b1 !! id = Some l → node_layer g id = Some l)
    as Hnl.
  { intros id l Hl.
    assert (id ∈ map n_id (output_nodes b1)) as Hin by (apply L3; by eexists).
    apply list_elem_of_In, in_map_iff in Hin as (nd & <- & Hin).
    apply list_elem_of_In in Hin. rewrite (L2 nd Hin) in Hl. injection Hl as <-.
    apply node_layer_spec; [done|]. rewrite Hgn. apply elem_of_app. by left. }
  assert (nodes g = map init_node (qubit_list n) ++ gl ++ ends) as Hparts.
  { by rewrite Hgn, Hn1, Hn0, <- app_assoc. }
  destruct (built_nodes_by_type n hn g gl _ _ Hgates Hgl Hparts) as (Hgl' & _ & _).
  split; [done|]. split; [|split].
  - intros e. rewrite Hge. intros [He|He]%elem_of_app.
    + destruct (L4 e He) as (lu & lv & Hu & Hv & Hle). exists lu, lv.
      split; [by apply Hnl|]. split; [by apply Hnl|done].
    + destruct (Forall2_elem_l
                  (λ e q, ∃ pred_id, last_node_on_qubit b1 !! q = Some pred_id
                                     ∧ e = edge_to (end_id q) (pred_id, q))
                  es qs e Hes He) as (q & Hq & pred_id & Hlast & ->).
      destruct (Hwf1 _ _ Hlast) as [lu Hlu]. exists lu, top. simpl.
      split; [by apply Hnl|]. split.
      * apply (node_layer_spec g (end_node q (max_position hn) top) F1).
        rewrite Hgn. apply elem_of_app. right. unfold ends.
        apply list_elem_of_In, in_map_iff. exists q. split; [done|].
        by apply list_elem_of_In.
      * specialize (L5 _ _ Hlu). unfold top. lia.
  - intros v Hv Ht. rewrite Hgn in Hv. apply elem_of_app in Hv as [Hv|Hv].
    2:{ unfold ends in Hv.
        by apply list_elem_of_In, in_map_iff in Hv as (q & <- & _). }
    rewrite (L6 v Hv Ht). f_equal. unfold pred_layers, incoming.
    rewrite Hge, filter_app. rewrite (filter_none _ es).
    2:{ intros e He Hto.
        destruct (Forall2_elem_l
                    (λ e q, ∃ pred_id, last_node_on_qubit b1 !! q = Some pred_id
                                       ∧ e = edge_to (end_id q) (pred_id, q))
                    es qs e Hes He) as (q & Hq & pred_id & Hlast & ->).
        simpl in Hto. apply (Hfresh q). rewrite Hto. by apply map_n_id_elem. }
    rewrite app_nil_r. apply omap_ext_in.
    intros e [_ He]%list_elem_of_filter.
    destruct (L4 e He) as (lu & lv & Hu & _). rewrite Hu. symmetry. by apply Hnl.
  - intros v Hv Ht. rewrite Hgn in Hv. apply elem_of_app in Hv as [Hv|Hv].
    + rewrite Hn1, Hn0 in Hv. apply elem_of_app in Hv as [Hv|Hv].
      * by apply list_elem_of_In, in_map_iff in Hv as (q & <- & _).
      * by rewrite (Forall2_layer_filled_types gl hn Hgl Hgates v Hv) in Ht.
    + unfold ends in Hv.
      apply list_elem_of_In, in_map_iff in Hv as (q & <- & _). simpl.
      unfold top_gate_layer. rewrite Hgl'. unfold top. by rewrite Hm1, Hm0.
Qed.

Lemma gate_nodes_fresh_ids (hn : list node) (ps : list Z) :
  map n_id hn = map gate_id ps → NoDup ps →
  NoDup (map n_id hn)
  ∧ ∀ h q, h ∈ hn → n_id h ≠ start_id q ∧ n_id h ≠ end_id q.
Proof.
  intros Hids Hnd. rewrite Hids. split.
  - change (NoDup (gate_id <$> ps)).
    apply NoDup_fmap_2_strong; [|done]. intros ?? _ _. apply gate_id_inj.
  - intros h q Hh. apply map_n_id_elem in Hh. rewrite Hids in Hh.
    apply list_elem_of_In, in_map_iff in Hh as (p & <- & _).
    split; [apply gate_id_not_start|apply gate_id_not_end].
Qed.

Lemma hierarchical_gate_nodes items :
  let hn := flat_map (λ item,
                        match item with
                        | HGate name qubits pos => [gate_node name qubits pos]
                        | HMacro _ _ _ _ _ => []
                        end) items in
  Forall (λ h, n_type h = Gate) hn
  ∧ map n_id hn = map gate_id (gate_positions items).
Proof.
  cbv zeta. induction items as [|item items [IH1 IH2]]; simpl.
  - split; [constructor|done].
  - destruct item; simpl; [|done]. split; [by constructor|by rewrite IH2].
Qed.

(** C6 (as the code has it): when the gate positions are distinct, every
    edge of the built graph climbs at least one layer; a gate node is
    exactly one layer above the highest of its predecessors; an end node is
    one layer above the top gate layer of the whole graph, so the edge into
    it may climb more than one layer although it is the only one. *)
Theorem C6_layers_climb_along_edges r :
  (NoDup (map f_position (dag_flat r)) →
   ∃ g, convert_to_app_circuit_format r = Some g ∧ layering_ok g)
  ∧ (NoDup (gate_positions (dag_hierarchical r)) →
     ∃ g, parse_circuit_dag r = Some g ∧ layering_ok g).
Proof.
  split; intros Hnd.
  - unfold convert_to_app_circuit_format. cbv zeta.
    set (hn := map _ (dag_flat r)).
    assert (map n_id hn = map gate_id (map f_position (dag_flat r))) as Hids.
    { unfold hn. by rewrite !map_map. }
    destruct (gate_nodes_fresh_ids hn _ Hids Hnd) as [Hnd' Hfresh].
    destruct (build_layering (num_qubits (r_statistics r)) hn
                (gate_nodes_are_gates _) Hnd' Hfresh) as (b & Hb & Hok).
    rewrite Hb. cbn [mbind option_bind]. eexists. split; [done|].
    by apply Hok.
  - unfold parse_circuit_dag. cbv zeta.
    destruct (hierarchical_gate_nodes (dag_hierarchical r)) as [Hgates Hids].
    set (hn := flat_map _ (dag_hierarchical r)) in *.
    destruct (gate_nodes_fresh_ids hn _ Hids Hnd) as [Hnd' Hfresh].
    destruct (build_layering (num_qubits (r_statistics r)) hn
                Hgates Hnd' Hfresh) as (b & Hb & Hok).
    rewrite Hb. cbn [mbind option_bind]. eexists. split; [done|].
    by apply Hok.
Qed.

Lemma C6_witness :
  (∃ g, convert_to_app_circuit_format input_data = Some g ∧ layering_ok g)
  ∧ (∃ g, parse_circuit_dag input_data = Some g ∧ layering_ok g).
Proof.
  destruct (C6_layers_climb_along_edges input_data) as [Hflat Hhier].
  split; [apply Hflat|apply Hhier];
    apply (bool_decide_unpack _); vm_compute; exact I.
Defined.

(** C6 as stated fails on the equality: with two qubits and one Hadamard on
    qubit 0, the end node of qubit 1 has the init node as its only
    predecessor and sits two layers above it. *)
Lemma C6_end_edge_climbs_two_layers :
  ¬ (∀ r g, NoDup (map f_position (dag_flat r)) →
            convert_to_app_circuit_format r = Some g → equality_as_stated g).
Proof.
  intros H.
  assert (∃ g, convert_to_app_circuit_format Inputs.one_gate_two_qubits = Some g)
    as [g Hg] by (eexists; vm_compute; reflexivity).
  assert (NoDup (map f_position (dag_flat Inputs.one_gate_two_qubits))) as Hnd
    by (apply (bool_decide_unpack _); vm_compute; exact I).
  specialize (H _ g Hnd Hg
                (edge_to "q_end_1" ("q_start_1", "1")) (end_node "1" 1 1) (-1)%Z).
  vm_compute in Hg. injection Hg as <-.
  assert (end_node "1" 1 1 = end_node "1" 1 1 → False) as Habs; [|by apply Habs].
  intros _.
  assert (n_layer (end_node "1" 1 1) = (1 + -1)%Z) as Hl; [|discriminate Hl].
  apply H.
  - apply (list_elem_of_lookup_2 _ 2%nat). reflexivity.
  - apply (list_elem_of_lookup_2 _ 4%nat). reflexivity.
  - reflexivity.
  - vm_compute. reflexivity.
  - intros l1 l2 H1 H2.
    change (l1 ∈ [(-1)%Z]) in H1. change (l2 ∈ [(-1)%Z]) in H2.
    apply list_elem_of_singleton in H1, H2. congruence.
Qed.


(* ===================================================================== *)
(** * Further properties of the detector *)
(* ===================================================================== *)

Import DetectorSpec.

Lemma group_append_elem_strong {V} h ps k (v : V) d :
  NoDup d.*1 → (h, ps) ∈ group_append k v d →
  (h ≠ k ∧ (h, ps) ∈ d)
  ∨ (h = k ∧ ((∃ ps0, (k, ps0) ∈ d ∧ ps = ps0 ++ [v])
              ∨ (ps = [v] ∧ k ∉ d.*1))).
Proof.
  induction d as [|[k' vs] d IH]; csimpl.
  - intros _ ?%list_elem_of_singleton. simplify_eq. right. split; [done|].
    right. split; [done|apply not_elem_of_nil].
  - intros [Hk' Hnd]%NoDup_cons.
    destruct (String.eqb_spec k k') as [<-|Hne].
    + intros [?|Hin]%elem_of_cons.
      * simplify_eq. right. split; [done|]. left. exists vs. split; [|done].
        apply elem_of_cons. by left.
      * left. split; [|apply elem_of_cons; by right].
        intros ->. apply Hk'. apply list_elem_of_fmap. by exists (k, ps).
    + intros [?|Hin]%elem_of_cons.
      * simplify_eq. left. split; [done|]. apply elem_of_cons. by left.
      * destruct (IH Hnd Hin)
          as [ [Hk Hd] | [ -> [ (ps0 & Hd & ->) | [-> Hk] ] ] ].
        -- left. split; [done|]. apply elem_of_cons. by right.
        -- right. split; [done|]. left. exists ps0. split; [|done].
           apply elem_of_cons. by right.
        -- right. split; [done|]. right. split; [done|].
           apply not_elem_of_cons. by split.
Qed.

(** the groups after the windows starting below [n]: each holds exactly the
    windows with its hash, and a hash without group has no window *)
Lemma window_groups_exact ops w n :
  let hash_at := λ i, hash_sequence (Py.slice ops i (i + Z.to_nat w)) in
  let d :=
    foldl (λ d i, group_append (hash_at i) (window_at w i) d) [] (seq 0 n) in
  NoDup d.*1
  ∧ (∀ h ps, (h, ps) ∈ d →
       ps = map (window_at w) (filter (λ i, hash_at i = h) (seq 0 n)))
  ∧ (∀ h, h ∉ d.*1 → filter (λ i, hash_at i = h) (seq 0 n) = []).
Proof.
  cbv zeta. induction n as [|n (Hnd & Hin & Hout)].
  - split; [constructor|]. split; [|done]. intros h ps H. by apply elem_of_nil in H.
  - rewrite seq_S, foldl_snoc. cbn [Nat.add].
    set (d := foldl _ [] (seq 0 n)) in *.
    set (k := hash_sequence (Py.slice ops n (n + Z.to_nat w))).
    split; [by apply group_append_NoDup|]. split.
    + intros h ps Hps. rewrite filter_app, map_app.
      apply (group_append_elem_strong _ _ _ _ _ Hnd) in Hps
        as [ [Hne Hps] | [ -> [ (ps0 & Hps & ->) | [-> Hk] ] ] ].
      * rewrite (filter_cons_False _ n) by (fold k; congruence).
        rewrite filter_nil, app_nil_r. by apply Hin.
      * rewrite (filter_cons_True _ n) by done. rewrite filter_nil. simpl.
        by rewrite <- (Hin _ _ Hps).
      * rewrite (filter_cons_True _ n) by done. rewrite filter_nil. simpl.
        by rewrite (Hout _ Hk).
    + intros h Hh. rewrite group_append_keys in Hh. rewrite filter_app.
      destruct (has_key k d) eqn:Hk.
      * rewrite (Hout _ Hh). rewrite filter_cons_False; [done|].
        fold k. intros <-. by apply Hh, has_key_spec.
      * apply not_elem_of_app in Hh as [Hh Hk'].
        rewrite (Hout _ Hh). rewrite filter_cons_False; [done|].
        fold k. intros <-. apply Hk'. by apply list_elem_of_singleton.
Qed.

Lemma window_patterns_exact ops w h ps :
  (h, ps) ∈ window_patterns ops w → ps = windows_with_hash ops w h.
Proof.
  intros Hin.
  destruct (window_groups_exact ops w
              (Z.to_nat (Z.of_nat (length ops) - w + 1))) as (_ & Hex & _).
  exact (Hex h ps Hin).
Qed.

(** whatever holds of every frequent group of every tried window size holds
    of every recorded pattern *)
Lemma record_patterns_forall self ops w (Q : string → pattern_info → Prop)
    groups all :
  (∀ h ps, (h, ps) ∈ groups →
     (min_repetitions self ≤ Z.of_nat (length ps))%Z →
     Q h {| p_sequence :=
              Py.slice ops (Z.to_nat (hd (0, 0)%Z ps).1)
                (Z.to_nat (hd (0, 0)%Z ps).2);
            p_positions := ps; p_window_size := w;
            p_count := Z.of_nat (length ps) |}) →
  (∀ h info, (h, info) ∈ all → Q h info) →
  ∀ h info, (h, info) ∈ record_patterns self ops w all groups → Q h info.
Proof.
  unfold record_patterns. revert all.
  induction groups as [|[k ps] groups IH]; intros all Hg Hall; simpl; [done|].
  assert (∀ h ps, (h, ps) ∈ groups →
            (min_repetitions self ≤ Z.of_nat (length ps))%Z →
            Q h {| p_sequence :=
                     Py.slice ops (Z.to_nat (hd (0, 0)%Z ps).1)
                       (Z.to_nat (hd (0, 0)%Z ps).2);
                   p_positions := ps; p_window_size := w;
                   p_count := Z.of_nat (length ps) |}) as Hg'.
  { intros h' ps' Hin. apply Hg. apply elem_of_cons. by right. }
  destruct (Z.leb_spec (min_repetitions self) (Z.of_nat (length ps)));
    [|by apply IH].
  destruct (has_key k all); simpl; [by apply IH|].
  apply IH; [done|].
  intros h' info [Hin|Hin%list_elem_of_singleton]%elem_of_app; [by apply Hall|].
  simplify_eq. apply Hg; [|done]. apply elem_of_cons. by left.
Qed.

Lemma collect_patterns_forall self ops (Q : string → pattern_info → Prop) :
  (∀ w h ps,
     (2 ≤ w < Z.min (max_window_size self + 1)
                    (Z.of_nat (length ops) / 2 + 1))%Z →
     (h, ps) ∈ window_patterns ops w →
     (min_repetitions self ≤ Z.of_nat (length ps))%Z →
     Q h {| p_sequence :=
              Py.slice ops (Z.to_nat (hd (0, 0)%Z ps).1)
                (Z.to_nat (hd (0, 0)%Z ps).2);
            p_positions := ps; p_window_size := w;
            p_count := Z.of_nat (length ps) |}) →
  ∀ h info, (h, info) ∈ collect_patterns self ops → Q h info.
Proof.
  intros HQ. unfold collect_patterns.
  set (ws := Py.range2 _ _).
  assert (∀ w, w ∈ ws →
            (2 ≤ w < Z.min (max_window_size self + 1)
                           (Z.of_nat (length ops) / 2 + 1))%Z) as Hws
    by (intros w Hw; by apply range2_elem).
  clearbody ws. induction ws as [|w ws IH] using rev_ind.
  - intros h info H. by apply elem_of_nil in H.
  - rewrite foldl_snoc. apply record_patterns_forall.
    + intros h ps Hin Hmin. apply HQ; [|done..].
      apply Hws, elem_of_app. right. by apply list_elem_of_singleton.
    + apply IH. intros w' Hw'. apply Hws, elem_of_app. by left.
Qed.

(** X1: a pattern of [detect_patterns] has a window size between 2 and
    [max_window_size] that fits twice in the sequence, and its positions are
    exactly the windows of that size whose hash is the pattern's hash, from
    left to right. *)
Theorem X1_pattern_positions_are_the_windows_with_its_hash self ops h info :
  (h, info) ∈ detect_patterns self ops →
  (2 ≤ p_window_size info ≤ max_window_size self)%Z
  ∧ (2 * p_window_size info ≤ Z.of_nat (length ops))%Z
  ∧ p_positions info = windows_with_hash ops (p_window_size info) h
  ∧ p_count info = Z.of_nat (length (p_positions info)).
Proof.
  intros Hin. unfold detect_patterns in Hin. apply sorted_elem_of in Hin.
  revert h info Hin. apply collect_patterns_forall.
  intros w h ps Hw Hps Hmin. simpl.
  assert (Z.of_nat (length ops) / 2 * 2 ≤ Z.of_nat (length ops))%Z
    by (rewrite Z.mul_comm; apply Z.mul_div_le; lia).
  split; [lia|]. split; [lia|]. split; [|done].
  by apply window_patterns_exact.
Qed.

Lemma X1_witness :
  let ops := [Inputs.gate "h" ["0"]; Inputs.gate "x" ["0"];
              Inputs.gate "h" ["0"]; Inputs.gate "x" ["0"]] in
  let info := {| p_sequence := [Inputs.gate "h" ["0"]; Inputs.gate "x" ["0"]];
                 p_positions := [(0, 2); (2, 4)]%Z;
                 p_window_size := 2; p_count := 2 |} in
  (2 ≤ 2 ≤ 8)%Z ∧ (2 * 2 ≤ 4)%Z
  ∧ [(0, 2); (2, 4)]%Z
    = windows_with_hash ops 2 "b4729e816ac658ca2df2d7b831bf3ea3"
  ∧ 2%Z = Z.of_nat 2.
Proof.
  intros ops info.
  apply (X1_pattern_positions_are_the_windows_with_its_hash (Config 2 8) ops
           "b4729e816ac658ca2df2d7b831bf3ea3" info).
  apply (list_elem_of_lookup_2 _ 0%nat). vm_compute. reflexivity.
Defined.

(** X2: [detect_patterns] lists the patterns, and
    [find_non_overlapping_macros] the macros, by decreasing count and, for
    equal counts, by decreasing window size. *)
Theorem X2_results_by_count_then_window_size self ops patterns :
  Spec.ordered_by (λ x y, key_not_smaller (pattern_key x) (pattern_key y))
    (detect_patterns self ops)
  ∧ Spec.ordered_by (λ x y, key_not_smaller (macro_key x) (macro_key y))
      (find_non_overlapping_macros self patterns).
Proof.
  split; intros i j x y Hij Hi Hj.
  - pose proof (sorted_descending pattern_key (collect_patterns self ops)) as Hs.
    pose proof (StronglySorted_lookup _ _ _ _ _ _ Hs Hij Hi Hj) as H.
    simpl in H. by apply pair_ltb_false in H.
  - unfold find_non_overlapping_macros in Hi, Hj.
    set (ms := final_macros self _) in *.
    pose proof (sorted_descending macro_key ms) as Hs.
    pose proof (StronglySorted_lookup _ _ _ _ _ _ Hs Hij Hi Hj) as H.
    simpl in H. by apply pair_ltb_false in H.
Qed.

Lemma final_macros_hashes self groups :
  map m_hash (final_macros self groups) `sublist_of` groups.*1.
Proof.
  induction groups as [|[k mi] groups IH]; csimpl; [done|].
  destruct (_ <=? _)%Z; simpl; [by apply sublist_skip|by apply sublist_cons].
Qed.

(** X3: no hash occurs twice, neither among the patterns of
    [detect_patterns] nor among the macros that
    [find_non_overlapping_macros] makes of any pattern map. *)
Theorem X3_one_entry_per_hash self ops patterns :
  NoDup (detect_patterns self ops).*1
  ∧ NoDup (map m_hash (find_non_overlapping_macros self patterns)).
Proof.
  split; [apply detect_patterns_ok|].
  unfold find_non_overlapping_macros.
  set (selected := (greedy_select _).1).
  eapply NoDup_Permutation_proper;
    [apply Permutation_map, sorted_perm|].
  eapply sublist_NoDup; [|apply final_macros_hashes].
  apply macros_by_hash_spec.
Qed.

Lemma greedy_select_used_grows cands c :
  (greedy_select cands).2 `sublist_of` (greedy_select (cands ++ [c])).2.
Proof.
  rewrite greedy_select_snoc. unfold select_step.
  destruct (overlaps_used c _); simpl; [done|]. by apply sublist_inserts_r.
Qed.

Lemma greedy_select_maximal cands c :
  c ∈ cands →
  Spec.range_of c ∈ (greedy_select cands).2
  ∨ ∃ r, r ∈ (greedy_select cands).2 ∧ ¬ Spec.apart (Spec.range_of c) r.
Proof.
  induction cands as [|x cands IH] using rev_ind; [by intros H%elem_of_nil|].
  intros [Hc|Hc%list_elem_of_singleton]%elem_of_app.
  - pose proof (greedy_select_used_grows cands x) as Hsub.
    destruct (IH Hc) as [Hin|(r & Hr & Hov)].
    + left. by eapply elem_of_sublist.
    + right. exists r. split; [by eapply elem_of_sublist|done].
  - subst x. rewrite greedy_select_snoc. unfold select_step.
    destruct (overlaps_used c _) eqn:Hov; simpl.
    + right. by apply overlaps_used_true.
    + left. apply elem_of_app. right. by apply list_elem_of_singleton.
Qed.

(** X4: the greedy selection is maximal: the range of every candidate
    occurrence is either accepted or overlaps an accepted range. *)
Theorem X4_selection_is_maximal patterns c :
  c ∈ all_macro_candidates patterns →
  let used :=
    (greedy_select (sort_candidates (all_macro_candidates patterns))).2 in
  Spec.range_of c ∈ used
  ∨ ∃ r, r ∈ used ∧ ¬ Spec.apart (Spec.range_of c) r.
Proof.
  intros Hc. apply greedy_select_maximal. by apply sorted_elem_of.
Qed.

Lemma X4_witness :
  let used :=
    (greedy_select
       (sort_candidates (all_macro_candidates Inputs.two_windows))).2 in
  Spec.range_of (Inputs.window_at 4) ∈ used
  ∨ ∃ r, r ∈ used ∧ ¬ Spec.apart (Spec.range_of (Inputs.window_at 4)) r.
Proof.
  apply (X4_selection_is_maximal Inputs.two_windows (Inputs.window_at 4)).
  apply (list_elem_of_lookup_2 _ 1%nat). reflexivity.
Defined.

(** X5: [hash_sequence] does not see the order in which a gate lists its
    qubits: two sequences whose operations differ at most in that order
    have the same hash. *)
Theorem X5_hash_ignores_qubit_order_within_a_gate seq1 seq2 :
  Forall2 same_up_to_qubit_order seq1 seq2 →
  hash_sequence seq1 = hash_sequence seq2.
Proof. apply hash_sequence_ignores_qubit_order. Qed.

Lemma X5_witness :
  hash_sequence [Inputs.gate "cx" ["0"; "1"]; Inputs.gate "h" ["1"]]
  = hash_sequence [Inputs.gate "cx" ["1"; "0"]; Inputs.gate "h" ["1"]].
Proof.
  apply X5_hash_ignores_qubit_order_within_a_gate.
  constructor; [|constructor; [|constructor]].
  - split; [reflexivity|]. split; [apply Permutation_swap|reflexivity].
  - split; [reflexivity|]. split; reflexivity.
Defined.

Lemma normalize_idempotent op : normalize (normalize op) = normalize op.
Proof.
  unfold normalize. simpl. f_equal. apply sorted_qubits_perm, sorted_perm.
Qed.

(** X6: normalizing is idempotent: hashing a sequence whose operations are
    already normalized (qubits sorted) gives the hash of the original. *)
Theorem X6_hash_of_normalized_sequence seq :
  hash_sequence (map normalize seq) = hash_sequence seq.
Proof.
  unfold hash_sequence. do 2 f_equal. rewrite map_map. apply map_ext.
  intros op. by rewrite normalize_idempotent.
Qed.

Lemma record_patterns_keys_mono self ops w groups all k :
  k ∈ all.*1 → k ∈ (record_patterns self ops w all groups).*1.
Proof.
  unfold record_patterns. revert all.
  induction groups as [|[h ps] groups IH]; intros all Hk; simpl; [done|].
  destruct (_ <=? _)%Z; [|by apply IH].
  destruct (has_key h all); simpl; [by apply IH|].
  apply IH. rewrite fmap_app. apply elem_of_app. by left.
Qed.

Lemma record_patterns_adds self ops w groups all h ps :
  (h, ps) ∈ groups → (min_repetitions self ≤ Z.of_nat (length ps))%Z →
  h ∈ (record_patterns self ops w all groups).*1.
Proof.
  unfold record_patterns. revert all.
  induction groups as [|[k qs] groups IH]; intros all Hin Hmin;
    [by apply elem_of_nil in Hin|].
  simpl. apply elem_of_cons in Hin as [Heq|Hin].
  - injection Heq as <- <-.
    destruct (Z.leb_spec (min_repetitions self) (Z.of_nat (length ps))); [|lia].
    destruct (has_key h all) eqn:Hk; simpl.
    + apply (record_patterns_keys_mono self ops w). by apply has_key_spec.
    + apply (record_patterns_keys_mono self ops w).
      rewrite fmap_app. apply elem_of_app. right. by apply list_elem_of_singleton.
  - by apply IH.
Qed.

Lemma range2_elem_of a b x : (a ≤ x < b)%Z → x ∈ Py.range2 a b.
Proof.
  intros Hx. unfold Py.range2. apply list_elem_of_In, in_map_iff.
  exists (Z.to_nat (x - a)). split; [lia|]. apply in_seq. lia.
Qed.

Lemma window_patterns_group ops w h :
  window_starts ops w h ≠ [] →
  (h, windows_with_hash ops w h) ∈ window_patterns ops w.
Proof.
  intros Hne.
  destruct (window_groups_exact ops w
              (Z.to_nat (Z.of_nat (length ops) - w + 1))) as (_ & Hin & Hout).
  destruct (decide (h ∈ (window_patterns ops w).*1)) as [Hk|Hk].
  - apply list_elem_of_fmap in Hk as ([h' ps] & -> & Hps). simpl.
    by rewrite <- (window_patterns_exact _ _ _ _ Hps).
  - destruct Hne. exact (Hout h Hk).
Qed.

Lemma collect_patterns_complete self ops w h :
  (2 ≤ w < Z.min (max_window_size self + 1)
                 (Z.of_nat (length ops) / 2 + 1))%Z →
  window_starts ops w h ≠ [] →
  (min_repetitions self ≤ Z.of_nat (length (window_starts ops w h)))%Z →
  h ∈ (collect_patterns self ops).*1.
Proof.
  intros Hw Hne Hmin. unfold collect_patterns.
  pose proof (range2_elem_of _ _ _ Hw) as Hin.
  set (ws := Py.range2 _ _) in *. clearbody ws.
  induction ws as [|x ws IH] using rev_ind; [by apply elem_of_nil in Hin|].
  rewrite foldl_snoc.
  apply elem_of_app in Hin as [Hin|Hin%list_elem_of_singleton].
  - apply record_patterns_keys_mono. by apply IH.
  - subst x. eapply record_patterns_adds; [by apply window_patterns_group|].
    unfold windows_with_hash. by rewrite length_map.
Qed.

(** X7: nothing frequent is missed: when at least [min_repetitions] windows
    (and at least one) of a size between 2 and
    [min(max_window_size, len // 2)] share a hash, [detect_patterns] has a
    pattern under that hash. *)
Theorem X7_frequent_hash_is_detected self ops w h :
  (2 ≤ w ≤ max_window_size self)%Z → (2 * w ≤ Z.of_nat (length ops))%Z →
  (1 ≤ length (window_starts ops w h))%nat →
  (min_repetitions self ≤ Z.of_nat (length (window_starts ops w h)))%Z →
  ∃ info, (h, info) ∈ detect_patterns self ops.
Proof.
  intros Hw Hlen H1 Hmin.
  assert (h ∈ (collect_patterns self ops).*1) as Hk.
  { apply (collect_patterns_complete self ops w); [| |done].
    2:{ intros E. rewrite E in H1. simpl in H1. lia. }
    assert (w ≤ Z.of_nat (length ops) / 2)%Z
      by (apply Z.div_le_lower_bound; lia).
    lia. }
  apply list_elem_of_fmap in Hk as ([h' info] & -> & Hin).
  exists info. unfold detect_patterns. by apply sorted_elem_of.
Qed.

Lemma X7_witness :
  ∃ info, ("b4729e816ac658ca2df2d7b831bf3ea3", info)
          ∈ detect_patterns (Config 2 8)
              [Inputs.gate "h" ["0"]; Inputs.gate "x" ["0"];
               Inputs.gate "h" ["0"]; Inputs.gate "x" ["0"]].
Proof.
  apply (X7_frequent_hash_is_detected (Config 2 8) _ 2).
  - simpl. lia.
  - simpl. lia.
  - vm_compute. lia.
  - vm_compute. discriminate.
Defined.

(** X8: for any pattern map, [find_non_overlapping_macros] invents nothing:
    a returned macro has the template and window size of a pattern stored
    under its hash, each of its positions is a position of such a pattern,
    and its count is the number of its positions, at least
    [min_repetitions] and at least one. *)
Theorem X8_macros_come_from_the_patterns self patterns m :
  m ∈ find_non_overlapping_macros self patterns →
  m_count m = Z.of_nat (length (m_positions m))
  ∧ (min_repetitions self ≤ m_count m)%Z
  ∧ (1 ≤ m_count m)%Z
  ∧ (∃ info, (m_hash m, info) ∈ patterns
             ∧ m_sequence m = p_sequence info
             ∧ m_window_size m = p_window_size info)
  ∧ ∀ p, p ∈ m_positions m →
      ∃ info, (m_hash m, info) ∈ patterns ∧ p ∈ p_positions info.
Proof.
  intros Hm. unfold find_non_overlapping_macros in Hm.
  apply sorted_elem_of, final_macros_elem in Hm
    as (mi & Hin & Hmin & Hseq & Hpos & Hcnt & Hw).
  set (selected := (greedy_select _).1) in *.
  destruct (macros_by_hash_spec selected) as (_ & _ & Hall).
  destruct (Hall _ _ Hin) as (c0 & rest & Hg & _ & Hs0 & Hw0 & Hp0).
  assert (∀ c, c ∈ Spec.group_of (m_hash m) selected →
            ∃ info p, (m_hash m, info) ∈ patterns ∧ p ∈ p_positions info
                      ∧ c = Spec.candidate_of (m_hash m) info p) as Hfrom.
  { intros c [Hh Hc]%list_elem_of_filter.
    assert (c ∈ all_macro_candidates patterns) as Hc'.
    { eapply sorted_elem_of, elem_of_sublist; [exact Hc|].
      apply greedy_select_sublist. }
    apply all_macro_candidates_elem in Hc' as (h & info & p & Hi & Hp & ->).
    simpl in Hh. subst h. by exists info, p. }
  split; [by rewrite Hcnt, Hpos|]. split; [lia|]. split; [|split].
  - rewrite Hcnt, Hp0. simpl. lia.
  - destruct (Hfrom c0) as (info & p & Hi & Hp & ->).
    { rewrite Hg. apply elem_of_cons. by left. }
    exists info. split; [done|]. by rewrite Hseq, Hs0, Hw, Hw0.
  - intros p. rewrite Hpos, Hp0, <- Hg.
    intros Hp. apply list_elem_of_In, in_map_iff in Hp as (c & <- & Hc).
    apply list_elem_of_In in Hc.
    destruct (Hfrom c Hc) as (info & q & Hi & Hq & ->).
    exists info. split; [done|]. by destruct q.
Qed.

Lemma X8_witness :
  let m := {| m_hash := "a";
              m_sequence := [Inputs.gate "h" ["0"]; Inputs.gate "x" ["0"]];
              m_positions := [(0, 2); (4, 6)]%Z;
              m_count := 2; m_window_size := 2 |} in
  m_count m = Z.of_nat (length (m_positions m))
  ∧ (2 ≤ m_count m)%Z
  ∧ (1 ≤ m_count m)%Z
  ∧ (∃ info, (m_hash m, info) ∈ Inputs.two_windows
             ∧ m_sequence m = p_sequence info
             ∧ m_window_size m = p_window_size info)
  ∧ ∀ p, p ∈ m_positions m →
      ∃ info, (m_hash m, info) ∈ Inputs.two_windows ∧ p ∈ p_positions info.
Proof.
  intros m.
  apply (X8_macros_come_from_the_patterns (Config 2 8) Inputs.two_windows m).
  apply (list_elem_of_lookup_2 _ 0%nat). reflexivity.
Defined.

(** * Further properties of the labeler *)

Import LabelerSpec.

Lemma all_named_spec g seq : all_named g seq = true ↔ only_gate g seq.
Proof.
  unfold all_named, only_gate. induction seq as [|x seq IH]; simpl.
  - split; [constructor|done].
  - rewrite andb_true_iff, IH, Forall_cons, String.eqb_eq. done.
Qed.

Lemma only_gate_not_in g k seq :
  only_gate g seq → k ≠ g → k ∉ map gate_name seq.
Proof.
  intros Hall Hne Hin. apply list_elem_of_In, in_map_iff in Hin as (x & <- & Hx).
  apply list_elem_of_In in Hx. unfold only_gate in Hall.
  rewrite Forall_forall in Hall. by apply Hne, Hall.
Qed.

Lemma get0_only_gate_other g k seq :
  only_gate g seq → k ≠ g →
  get0 (gate_counts (analyze_gate_sequence seq)) k = 0%nat.
Proof.
  intros Hall Hne. cbn [gate_counts analyze_gate_sequence].
  rewrite get0_Counter.
  pose proof (only_gate_not_in g k seq Hall Hne) as Hin.
  rewrite filter_eq_length_pos in Hin. lia.
Qed.

Lemma no_key_only_gate g k seq :
  only_gate g seq → k ≠ g →
  bool_decide (is_Some (gate_counts (analyze_gate_sequence seq) !! k)) = false.
Proof.
  intros Hall Hne. apply bool_decide_eq_false_2.
  cbn [gate_counts analyze_gate_sequence]. rewrite is_Some_Counter.
  by apply (only_gate_not_in g).
Qed.

Lemma all_named_other g k x seq :
  only_gate g (x :: seq) → k ≠ g → all_named k (x :: seq) = false.
Proof.
  intros Hall Hne. apply Forall_cons in Hall as [Hx _]. simpl.
  rewrite Hx. apply andb_false_iff. left. apply String.eqb_neq. congruence.
Qed.

(** X9: a sequence of two or more [cx] gates is labelled by its shape
    alone, never as a QFT or Grover block: "CNOT Pair" on two qubits,
    otherwise "CNOT Chain" when the connectivity is linear and "CNOT Ladder"
    when it is not. *)
Theorem X9_pure_cnot_sequences m seq :
  only_gate "cx" seq → (2 ≤ length seq)%nat →
  label_macro m seq
  = if (Labeler.num_qubits (analyze_gate_sequence seq) =? 2)%nat
    then "CNOT Pair"
    else if is_linear (_analyze_connectivity seq) then "CNOT Chain"
    else "CNOT Ladder".
Proof.
  intros Hall Hlen.
  pose proof (no_key_only_gate "cx" "h" seq Hall ltac:(done)) as E1.
  pose proof (get0_only_gate_other "cx" "h" seq Hall ltac:(done)) as E2.
  pose proof (proj2 (all_named_spec "cx" seq) Hall) as E3.
  assert ((2 <=? length seq)%nat = true) as E4 by by apply Nat.leb_le.
  unfold label_macro, match_known_pattern. cbv zeta.
  change (a_connectivity (analyze_gate_sequence seq))
    with (_analyze_connectivity seq).
  set (a := analyze_gate_sequence seq) in *.
  rewrite E1, E2, E3, E4. cbv beta iota delta [andb Nat.leb].
  destruct (match Labeler.num_qubits a with 0%nat => false | S _ => _ end);
    [destruct (match length seq with 0%nat => false | S _ => _ end)|];
    cbv beta iota;
    by destruct (Labeler.num_qubits a =? 2)%nat,
                (is_linear (_analyze_connectivity seq)).
Qed.

Lemma X9_witness :
  label_macro Inputs.no_macro
    [Inputs.gate "cx" ["0"; "1"]; Inputs.gate "cx" ["1"; "2"]]
  = "CNOT Chain".
Proof.
  refine (eq_trans (X9_pure_cnot_sequences Inputs.no_macro _ _ _) _).
  - by repeat constructor.
  - simpl. lia.
  - vm_compute. reflexivity.
Defined.

(** X10: a sequence of [swap] gates only is labelled "Swap Network"
    whatever its length and qubits; the empty sequence too, since the test
    [all(...)] holds for it. *)
Theorem X10_pure_swap_sequences m seq :
  only_gate "swap" seq → label_macro m seq = "Swap Network".
Proof.
  intros Hall.
  pose proof (no_key_only_gate "swap" "h" seq Hall ltac:(done)) as E1.
  pose proof (get0_only_gate_other "swap" "h" seq Hall ltac:(done)) as E2.
  pose proof (proj2 (all_named_spec "swap" seq) Hall) as E3.
  assert (all_named "cx" seq && (2 <=? length seq)%nat = false) as E4.
  { destruct seq as [|x seq]; [done|].
    by rewrite (all_named_other "swap" "cx" x seq Hall). }
  unfold label_macro, match_known_pattern. cbv zeta.
  set (a := analyze_gate_sequence seq) in *.
  rewrite E1, E2, E3, E4. cbv beta iota delta [andb Nat.leb].
  destruct (match Labeler.num_qubits a with 0%nat => false | S _ => _ end);
    [destruct (match length seq with 0%nat => false | S _ => _ end)|];
    reflexivity.
Qed.

Lemma X10_witness :
  label_macro Inputs.no_macro [] = "Swap Network"
  ∧ label_macro Inputs.no_macro
      [Inputs.gate "swap" ["0"; "1"]; Inputs.gate "swap" ["2"; "3"]]
    = "Swap Network".
Proof.
  split.
  - apply (X10_pure_swap_sequences Inputs.no_macro []). constructor.
  - apply (X10_pure_swap_sequences Inputs.no_macro). by repeat constructor.
Defined.

(** X11: a sequence of two or more Hadamard gates is labelled "Hadamard
    Layer" when it has as many gates as qubits and "Hadamard Ladder"
    otherwise; the QFT and Grover rules never apply to it. *)
Theorem X11_pure_hadamard_sequences m seq :
  only_gate "h" seq → (2 ≤ length seq)%nat →
  label_macro m seq
  = if (length seq =? Labeler.num_qubits (analyze_gate_sequence seq))%nat
    then "Hadamard Layer" else "Hadamard Ladder".
Proof.
  intros Hall Hlen.
  assert (∀ k, k ≠ "h" →
            get0 (gate_counts (analyze_gate_sequence seq)) k = 0%nat) as E0
    by (intros k Hk; by apply (get0_only_gate_other "h")).
  pose proof (proj2 (all_named_spec "h" seq) Hall) as E3.
  assert ((2 <=? length seq)%nat = true) as E4 by by apply Nat.leb_le.
  assert (all_named "cx" seq = false ∧ all_named "swap" seq = false)
    as [E5 E6].
  { destruct seq as [|x seq]; [simpl in Hlen; lia|].
    by rewrite (all_named_other "h" "cx" x seq Hall),
               (all_named_other "h" "swap" x seq Hall). }
  unfold label_macro, match_known_pattern. cbv zeta.
  set (a := analyze_gate_sequence seq) in *.
  unfold sum_counts, phase_gates. cbn [map sum_list sum_list_with].
  rewrite !(E0 "cp"), !(E0 "crz"), !(E0 "cu1"), !(E0 "cz"), !(E0 "p"),
          !(E0 "cx") by done.
  rewrite E3, E4, E5, E6.
  cbv beta iota delta [andb orb Nat.leb Nat.ltb Nat.add id].
  destruct (bool_decide _);
    [destruct (match Labeler.num_qubits a with 0%nat => false | S _ => _ end)|];
    cbv beta iota.
  all: repeat match goal with
       | |- context [match ?x with 0%nat => false | S _ => _ end] =>
           destruct x as [|[|[|?]]]
       end; cbv beta iota.
  all: by repeat match goal with
          | |- context [(?x =? ?y)%nat] => destruct (x =? y)%nat
          end.
Qed.

Lemma X11_witness :
  label_macro Inputs.no_macro
    [Inputs.gate "h" ["0"]; Inputs.gate "h" ["1"]]
  = "Hadamard Layer".
Proof.
  refine (eq_trans (X11_pure_hadamard_sequences Inputs.no_macro _ _ _) _).
  - by repeat constructor.
  - simpl. lia.
  - vm_compute. reflexivity.
Defined.

Section degree_facts.

Context `{Countable K}.

Lemma counter_add_is_Some (m : gmap K nat) (x k : K) :
  is_Some (counter_add m x !! k) ↔ k = x ∨ is_Some (m !! k).
Proof.
  unfold counter_add. destruct (decide (x = k)) as [->|Hne].
  - rewrite lookup_insert_eq. split; [by left|by eexists].
  - rewrite lookup_insert_ne by done. split; [by right|].
    by intros [->|?].
Qed.

End degree_facts.

(** the qubits with a degree are the qubits of the connections *)
Lemma degree_domain (conns : list (Z * Z)) (s : gset Z) (d : gmap Z nat) :
  (∀ k, is_Some (d !! k) ↔ k ∈ s) →
  ∀ k, is_Some (foldl (λ d conn, counter_add (counter_add d conn.1) conn.2)
                      d conns !! k)
       ↔ k ∈ foldl (λ s conn, s ∪ {[conn.1]} ∪ {[conn.2]}) s conns.
Proof.
  revert s d. induction conns as [|c conns IH]; intros s d Hd k; [apply Hd|].
  cbn [foldl]. apply IH. intros k'.
  rewrite !counter_add_is_Some, Hd, !elem_of_union, !elem_of_singleton. tauto.
Qed.

Lemma max_list_le (l : list nat) (n : nat) :
  (∀ x, x ∈ l → (x ≤ n)%nat) → (max_list l ≤ n)%nat.
Proof.
  induction l as [|x l IH]; intros Hl; simpl; [lia|].
  apply Nat.max_lub.
  - apply Hl, elem_of_cons. by left.
  - apply IH. intros y Hy. apply Hl, elem_of_cons. by right.
Qed.

(** a ring is reported as linear too *)
Lemma ring_is_linear seq :
  is_ring (_analyze_connectivity seq) = true →
  is_linear (_analyze_connectivity seq) = true.
Proof.
  unfold _analyze_connectivity. cbv zeta. cbn [is_ring is_linear].
  set (conns := gate_connections seq).
  set (s := foldl (λ s conn, s ∪ {[conn.1]} ∪ {[conn.2]}) ∅ conns).
  set (d := foldl (λ d conn, counter_add (counter_add d conn.1) conn.2) ∅ conns).
  set (ql := Py.sorted Z.ltb (elements s)).
  intros [Hlen Hall]%andb_true_iff. apply andb_true_iff. split.
  - apply Nat.leb_le, max_list_le. intros v Hv.
    apply list_elem_of_fmap in Hv as ([k v'] & -> & Hkv).
    apply elem_of_map_to_list in Hkv. simpl.
    assert (k ∈ ql) as Hk.
    { apply sorted_elem_of, elem_of_elements.
      apply (degree_domain conns ∅ ∅); [|by eexists].
      intros k'. rewrite lookup_empty. split; [by intros [? ?]|set_solver]. }
    rewrite forallb_forall in Hall.
    apply list_elem_of_In, Hall, Nat.eqb_eq in Hk.
    unfold get0 in Hk. rewrite Hkv in Hk. simpl in Hk. lia.
  - apply Nat.ltb_lt. apply Nat.leb_le in Hlen. lia.
Qed.

Lemma rot_type_cases seq :
  rotation_types seq ≠ [] → hd "" (rotation_types seq) ∈ axis_rotations.
Proof.
  unfold rotation_types.
  destruct (filter _ _) as [|g rest] eqn:E; [done|]. intros _. simpl.
  assert (g ∈ filter (λ g, g ∈ axis_rotations) (map gate_name seq)) as Hg
    by (rewrite E; apply elem_of_cons; by left).
  by apply list_elem_of_filter in Hg as [? _].
Qed.

Lemma rot_guard b seq :
  b && negb (bool_decide (rotation_types seq = [])) = true →
  hd "" (rotation_types seq) ∈ axis_rotations.
Proof.
  intros [_ Hne]%andb_true_iff. apply rot_type_cases.
  apply negb_true_iff, bool_decide_eq_false in Hne. exact Hne.
Qed.

Lemma first_rotation_cases seq g rest :
  filter (λ g, g ∈ rotation_gates) (map gate_name seq) = g :: rest →
  g ∈ rotation_gates.
Proof.
  intros E.
  assert (g ∈ filter (λ g, g ∈ rotation_gates) (map gate_name seq)) as Hg
    by (rewrite E; apply elem_of_cons; by left).
  by apply list_elem_of_filter in Hg as [? _].
Qed.

Ltac closed_label :=
  apply (bool_decide_unpack _); vm_compute; exact I.

Ltac each_rotation H :=
  repeat (apply elem_of_cons in H as [->|H]); [..|by apply elem_of_nil in H].

Ltac rotation_label :=
  match goal with
  | H : _ && negb (bool_decide (rotation_types ?s = [])) = true
    |- context [hd _ (rotation_types ?s)] =>
      let Hr := fresh "Hr" in
      pose proof (rot_guard _ _ H) as Hr;
      generalize dependent (hd "" (rotation_types s)); intros r Hr;
      clear - Hr; each_rotation Hr; closed_label
  | H : negb (bool_decide (rotation_types ?s = [])) = true
    |- context [hd _ (rotation_types ?s)] =>
      let Hr := fresh "Hr" in
      pose proof (rot_guard true _ H) as Hr;
      generalize dependent (hd "" (rotation_types s)); intros r Hr;
      clear - Hr; each_rotation Hr; closed_label
  | H : filter _ (map gate_name ?s) = ?g :: _ |- context [Py.upper ?g] =>
      let Hr := fresh "Hr" in
      pose proof (first_rotation_cases _ _ _ H) as Hr;
      clear - Hr; each_rotation Hr; closed_label
  end.

Ltac impossible_counts :=
  exfalso;
  repeat match goal with
         | H : (_ <? _)%nat = true |- _ => apply Nat.ltb_lt in H
         | H : (_ <=? _)%nat = false |- _ => apply Nat.leb_gt in H
         | H : (_ =? _)%nat = false |- _ => apply Nat.eqb_neq in H
         | H : (_ =? _)%nat = true |- _ => apply Nat.eqb_eq in H
         end; lia.

Lemma describe_in_vocabulary seq :
  (2 <? Labeler.num_qubits (analyze_gate_sequence seq))%nat = true →
  _describe_multi_qubit_pattern (analyze_gate_sequence seq) seq ∈ vocabulary.
Proof.
  intros Hq. unfold _describe_multi_qubit_pattern. cbv zeta.
  change (a_connectivity (analyze_gate_sequence seq))
    with (_analyze_connectivity seq).
  pose proof (ring_is_linear seq) as Hring.
  set (a := analyze_gate_sequence seq) in *.
  repeat case_match;
    first [ rotation_label | closed_label | impossible_counts
          | discriminate (Hring eq_refl) ].
Qed.

Lemma match_known_pattern_in_vocabulary seq a label :
  match_known_pattern seq a = Some label → label ∈ vocabulary.
Proof.
  unfold match_known_pattern. cbv zeta. intros Hl.
  repeat case_match; simplify_eq;
    first [ rotation_label | closed_label ].
Qed.

Lemma label_macro_in_vocabulary m seq : label_macro m seq ∈ vocabulary.
Proof.
  unfold label_macro. cbv zeta.
  pose proof (describe_in_vocabulary seq) as Hd.
  pose proof (match_known_pattern_in_vocabulary seq (analyze_gate_sequence seq))
    as Hk.
  set (a := analyze_gate_sequence seq) in *.
  destruct (match_known_pattern seq a) as [label|].
  - destruct (bool_decide_reflect (label = "")) as [->|_]; [|by apply Hk].
    specialize (Hk "" eq_refl). exfalso. revert Hk.
    apply (bool_decide_unpack _). vm_compute. exact I.
  - clear Hk. set (p := _describe_multi_qubit_pattern a seq) in *.
    repeat case_match;
      first [ rotation_label | by apply Hd | closed_label ].
Qed.

(** X12: whatever the sequence, the label of a macro is taken from a fixed
    vocabulary: one of the fixed labels, or a rotation gate in upper case
    before one of the rotation suffixes; in particular it is never empty
    and never "Gate Block". *)
Theorem X12_labels_come_from_a_fixed_vocabulary m seq :
  label_macro m seq ∈ vocabulary
  ∧ label_macro m seq ≠ ""
  ∧ label_macro m seq ≠ "Gate Block".
Proof.
  pose proof (label_macro_in_vocabulary m seq) as Hin.
  split; [done|]. split; intros E; rewrite E in Hin; revert Hin.
  - change (¬ ("" ∈ vocabulary)). apply (bool_decide_unpack _).
    vm_compute. exact I.
  - change (¬ ("Gate Block" ∈ vocabulary)). apply (bool_decide_unpack _).
    vm_compute. exact I.
Qed.

Lemma describe_not_ring seq :
  _describe_multi_qubit_pattern (analyze_gate_sequence seq) seq
  ≠ "Ring Entangling Pattern".
Proof.
  unfold _describe_multi_qubit_pattern. cbv zeta.
  change (a_connectivity (analyze_gate_sequence seq))
    with (_analyze_connectivity seq).
  pose proof (ring_is_linear seq) as Hring.
  set (a := analyze_gate_sequence seq) in *.
  repeat case_match;
    first [ match goal with
            | H : _ && negb (bool_decide (rotation_types ?s = [])) = true
              |- _ =>
                let Hr := fresh "Hr" in
                pose proof (rot_guard _ _ H) as Hr;
                generalize dependent (hd "" (rotation_types s)); intros r Hr;
                clear - Hr; each_rotation Hr; vm_compute; discriminate
            end
          | discriminate
          | discriminate (Hring eq_refl) ].
Qed.

(** X13: a connectivity that is a ring is reported as linear as well, so
    the test for a linear chain always wins and no macro is ever labelled
    "Ring Entangling Pattern". *)
Theorem X13_ring_is_reported_as_linear m seq :
  (is_ring (_analyze_connectivity seq) = true →
   is_linear (_analyze_connectivity seq) = true)
  ∧ _describe_multi_qubit_pattern (analyze_gate_sequence seq) seq
    ≠ "Ring Entangling Pattern"
  ∧ label_macro m seq ≠ "Ring Entangling Pattern".
Proof.
  split; [apply ring_is_linear|]. split; [apply describe_not_ring|].
  pose proof (label_macro_in_vocabulary m seq) as Hin.
  intros E. rewrite E in Hin. revert Hin.
  change (¬ ("Ring Entangling Pattern" ∈ vocabulary)).
  apply (bool_decide_unpack _). vm_compute. exact I.
Qed.

Lemma X13_witness :
  let ring := [Inputs.gate "cx" ["0"; "1"]; Inputs.gate "cx" ["1"; "2"];
               Inputs.gate "cx" ["2"; "0"]] in
  is_ring (_analyze_connectivity ring) = true
  ∧ is_linear (_analyze_connectivity ring) = true
  ∧ label_macro Inputs.no_macro ring ≠ "Ring Entangling Pattern".
Proof.
  intros ring.
  destruct (X13_ring_is_reported_as_linear Inputs.no_macro ring)
    as (Hlin & _ & Hlabel).
  assert (is_ring (_analyze_connectivity ring) = true) as Hring
    by (vm_compute; reflexivity).
  split; [exact Hring|]. split; [exact (Hlin Hring)|exact Hlabel].
Defined.

Lemma union_fold_elem (l : list Z) (s : gset Z) q :
  q ∈ foldl (λ s q, s ∪ {[q]}) s l ↔ q ∈ s ∨ q ∈ l.
Proof.
  revert s. induction l as [|x l IH]; intros s; cbn [foldl].
  - split; [by left|]. intros [?|Hq]; [done|by apply elem_of_nil in Hq].
  - rewrite IH, elem_of_union, elem_of_singleton, elem_of_cons. tauto.
Qed.

Lemma all_qubits_elem seq (s : gset Z) q :
  q ∈ foldl (λ s gate, foldl (λ s q, s ∪ {[q]}) s
                             (qubit_indices (qubits gate))) s seq
  ↔ q ∈ s ∨ q ∈ touched seq.
Proof.
  revert s. induction seq as [|g seq IH]; intros s; cbn [foldl].
  - split; [by left|]. intros [?|Hq]; [done|by apply elem_of_nil in Hq].
  - rewrite IH, union_fold_elem. unfold touched. cbn [flat_map].
    rewrite elem_of_app. tauto.
Qed.

Lemma StronglySorted_strict (l : list Z) :
  StronglySorted (Spec.not_after Z.ltb) l → NoDup l → StronglySorted Z.lt l.
Proof.
  induction 1 as [|x l Hl IH Hx]; intros Hnd; [constructor|].
  apply NoDup_cons in Hnd as [Hnot Hnd]. constructor; [by apply IH|].
  rewrite Forall_forall in Hx |- *. intros y Hy.
  specialize (Hx y Hy). unfold Spec.not_after in Hx.
  apply Z.ltb_ge in Hx. assert (x ≠ y) by (by intros ->). lia.
Qed.

(** X14: the analysis of a sequence lists the integer qubits its gates act
    on in strictly increasing order, each once; [num_qubits] is the length
    of that list, [num_gates] the length of the sequence, and [gate_counts]
    gives for each name the number of gates of that name. *)
Theorem X14_analysis_lists_the_touched_qubits seq :
  let a := analyze_gate_sequence seq in
  StronglySorted Z.lt (a_qubits a)
  ∧ (∀ q, q ∈ a_qubits a ↔ q ∈ touched seq)
  ∧ Labeler.num_qubits a = length (a_qubits a)
  ∧ num_gates a = length seq
  ∧ ∀ g, get0 (gate_counts a) g
         = length (filter (λ x, x = g) (map gate_name seq)).
Proof.
  cbv zeta. cbn [a_qubits Labeler.num_qubits num_gates gate_counts
                 analyze_gate_sequence].
  set (s := foldl _ ∅ seq). split; [|split; [|split; [|split]]].
  - apply StronglySorted_strict.
    + apply sorted_sorted.
      * intros x y Hxy. apply Z.ltb_lt in Hxy. apply Z.ltb_ge. lia.
      * intros x y z Hxy Hyz. apply Z.ltb_lt in Hxy, Hyz. apply Z.ltb_lt. lia.
    + eapply NoDup_Permutation_proper; [apply sorted_perm|].
      apply NoDup_elements.
  - intros q. rewrite sorted_elem_of, elem_of_elements. unfold s.
    rewrite all_qubits_elem. split; [intros [Hq|Hq]; [set_solver|done]|by right].
  - rewrite (Permutation_length (sorted_perm Z.ltb (elements s))). reflexivity.
  - reflexivity.
  - intros g. apply get0_Counter.
Qed.

(** * Further properties of the graph builders *)

Import WireSpec.

Lemma consecutive_snoc {A} (c : list A) (x : A) :
  consecutive (c ++ [x])
  = consecutive c ++ match last c with Some p => [(p, x)] | None => [] end.
Proof.
  induction c as [|a c IH]; [done|].
  destruct c as [|b c]; [done|].
  change (consecutive ((a :: b :: c) ++ [x]))
    with ((a, b) :: consecutive ((b :: c) ++ [x])).
  rewrite IH. reflexivity.
Qed.

Lemma filter_edge_to id q (l : list (string * string)) :
  filter (λ e, e_qubit e = q) (map (edge_to id) l)
  = map (edge_to id) (filter (λ p, p.2 = q) l).
Proof.
  induction l as [|p l IH]; [done|]. cbn [map].
  destruct (decide (p.2 = q)) as [Hp|Hp].
  - rewrite !filter_cons_True by done. cbn [map]. by rewrite IH.
  - rewrite !filter_cons_False by done. exact IH.
Qed.

(** the predecessor pairs of one qubit: the last node of the qubit, once,
    when the node acts on the qubit *)
Lemma decide_elem_snoc {A B} `{EqDecision A} (q x : A) (l : list A) (u v : B) :
  (if decide (q ∈ l ++ [x]) then u else v)
  = if decide (q ∈ l) then u else if decide (q = x) then u else v.
Proof.
  destruct (decide (q ∈ l)) as [Hl|Hl].
  - rewrite decide_True; [done|]. apply elem_of_app. by left.
  - destruct (decide (q = x)) as [->|Hne].
    + rewrite decide_True; [done|]. apply elem_of_app. right.
      by apply list_elem_of_singleton.
    + rewrite decide_False; [done|].
      intros [?|?%list_elem_of_singleton]%elem_of_app; done.
Qed.

Lemma predecessors_on_qubit b qubits preds q :
  predecessors b qubits = Some preds →
  filter (λ p, p.2 = q) preds.1
  = match last_node_on_qubit b !! q with
    | Some id => if decide (q ∈ qubits) then [(id, q)] else []
    | None => []
    end.
Proof.
  unfold predecessors. revert preds.
  induction qubits as [|x qubits IH] using rev_ind; intros preds Hp.
  - injection Hp as <-. cbn [fst]. rewrite filter_nil.
    destruct (_ !! q); [|done].
    rewrite decide_False; [done|apply not_elem_of_nil].
  - rewrite fold_opt_snoc in Hp.
    destruct (fold_opt (add_predecessor b) ([], []) qubits) as [acc|];
      [|done].
    specialize (IH acc eq_refl). cbn [mbind option_bind] in Hp.
    unfold add_predecessor in Hp.
    assert (preds.1
            = acc.1 ++ match last_node_on_qubit b !! x with
                       | Some pid =>
                           if decide ((pid, x) ∈ acc.1) then [] else [(pid, x)]
                       | None => []
                       end) as ->.
    { destruct (last_node_on_qubit b !! x) as [pid|];
        [|injection Hp as <-; by rewrite app_nil_r].
      destruct (decide ((pid, x) ∈ acc.1)).
      - rewrite bool_decide_eq_true_2 in Hp by done. injection Hp as <-.
        by rewrite app_nil_r.
      - rewrite bool_decide_eq_false_2 in Hp by done.
        destruct (node_layers b !! pid); [|done]. by injection Hp as <-. }
    clear Hp. rewrite filter_app, IH.
    destruct (decide (q = x)) as [<-|Hne].
    + destruct (last_node_on_qubit b !! q) as [pid|] eqn:Hq;
        [|by rewrite filter_nil].
      rewrite decide_elem_snoc. rewrite (decide_True (P := q = q)) by done.
      destruct (decide ((pid, q) ∈ acc.1)) as [Hin|Hin].
      * rewrite filter_nil, app_nil_r.
        destruct (decide (q ∈ qubits)); [done|]. exfalso.
        assert ((pid, q) ∈ filter (λ p, p.2 = q) acc.1) as Hf
          by by apply list_elem_of_filter.
        rewrite IH in Hf. by apply elem_of_nil in Hf.
      * rewrite filter_cons_True by done. rewrite filter_nil.
        destruct (decide (q ∈ qubits)); [|done]. exfalso. apply Hin.
        assert ((pid, q) ∈ filter (λ p, p.2 = q) acc.1) as Hf
          by (rewrite IH; apply elem_of_cons; by left).
        by apply list_elem_of_filter in Hf as [_ ?].
    + assert (filter (λ p : string * string, p.2 = q)
                (match last_node_on_qubit b !! x with
                 | Some pid =>
                     if decide ((pid, x) ∈ acc.1) then [] else [(pid, x)]
                 | None => []
                 end) = []) as ->.
      { destruct (last_node_on_qubit b !! x) as [pid|]; [|apply filter_nil].
        destruct (decide ((pid, x) ∈ acc.1)); [apply filter_nil|].
        rewrite filter_cons_False by (simpl; congruence). apply filter_nil. }
      rewrite app_nil_r. destruct (last_node_on_qubit b !! q); [|done].
      rewrite decide_elem_snoc. rewrite (decide_False (P := q = x)) by done.
      by destruct (decide (q ∈ qubits)).
Qed.

(** one gate node extends the path of each qubit it acts on *)
Lemma add_gate_node_wire q b n b' c :
  add_gate_node b n = Some b' →
  map (λ e, (e_from e, e_to e))
      (filter (λ e, e_qubit e = q) (output_edges b)) = consecutive c →
  last_node_on_qubit b !! q = last c →
  let c' := c ++ (if decide (q ∈ n_qubits n) then [n_id n] else []) in
  map (λ e, (e_from e, e_to e))
      (filter (λ e, e_qubit e = q) (output_edges b')) = consecutive c'
  ∧ last_node_on_qubit b' !! q = last c'.
Proof.
  intros Hstep Hedges Hlast. unfold add_gate_node in Hstep.
  destruct (predecessors b (n_qubits n)) as [preds|] eqn:Hp; [|done].
  cbn [mbind option_bind] in Hstep. injection Hstep as <-.
  cbv zeta. cbn [output_edges last_node_on_qubit].
  rewrite filter_app, map_app, Hedges, filter_edge_to.
  rewrite (predecessors_on_qubit _ _ _ q Hp), lookup_foldl_insert, Hlast.
  destruct (decide (q ∈ n_qubits n)) as [Hq|Hq].
  - rewrite consecutive_snoc, last_snoc. split; [|done].
    by destruct (last c).
  - rewrite !app_nil_r. split; [|done]. destruct (last c); simpl;
      by rewrite app_nil_r.
Qed.

Lemma gates_on_cons q n hn :
  gates_on q (n :: hn)
  = (if decide (q ∈ n_qubits n) then [n_id n] else []) ++ gates_on q hn.
Proof.
  unfold gates_on. destruct (decide (q ∈ n_qubits n)).
  - by rewrite filter_cons_True.
  - by rewrite filter_cons_False.
Qed.

Lemma gate_phase_wire q hn b0 b1 c :
  fold_opt add_gate_node b0 hn = Some b1 →
  map (λ e, (e_from e, e_to e))
      (filter (λ e, e_qubit e = q) (output_edges b0)) = consecutive c →
  last_node_on_qubit b0 !! q = last c →
  map (λ e, (e_from e, e_to e))
      (filter (λ e, e_qubit e = q) (output_edges b1))
  = consecutive (c ++ gates_on q hn)
  ∧ last_node_on_qubit b1 !! q = last (c ++ gates_on q hn).
Proof.
  revert b0 c. induction hn as [|n hn IH]; intros b0 c Hfold Hedges Hlast.
  - injection Hfold as <-. unfold gates_on. simpl. by rewrite app_nil_r.
  - cbn [fold_opt] in Hfold.
    destruct (add_gate_node b0 n) as [b'|] eqn:Hstep; [|done].
    cbn [mbind option_bind] in Hfold.
    destruct (add_gate_node_wire q b0 n b' c Hstep Hedges Hlast) as [He Hl].
    rewrite gates_on_cons, app_assoc. by apply (IH b').
Qed.

Lemma end_edges_on_qubit b1 es qs q :
  NoDup qs →
  Forall2 (λ e q', ∃ pred_id, last_node_on_qubit b1 !! q' = Some pred_id
                              ∧ e = edge_to (end_id q') (pred_id, q')) es qs →
  map (λ e, (e_from e, e_to e)) (filter (λ e, e_qubit e = q) es)
  = if decide (q ∈ qs)
    then match last_node_on_qubit b1 !! q with
         | Some p => [(p, end_id q)]
         | None => []
         end
    else [].
Proof.
  intros Hnd Hes. induction Hes as [|e q' es qs (pid & Hq' & ->) Hes IH].
  - rewrite decide_False; [done|apply not_elem_of_nil].
  - apply NoDup_cons in Hnd as [Hnot Hnd]. specialize (IH Hnd).
    destruct (decide (q' = q)) as [->|Hne].
    + rewrite filter_cons_True by done. cbn [map]. rewrite IH.
      rewrite decide_False by done. rewrite decide_True, Hq'; [done|].
      apply elem_of_cons. by left.
    + rewrite filter_cons_False by done. rewrite IH.
      destruct (decide (q ∈ qs)) as [Hd|Hd].
      * rewrite decide_True; [done|]. apply elem_of_cons. by right.
      * rewrite decide_False; [done|]. by intros [?|?]%elem_of_cons.
Qed.

(** the edges of a qubit, in output order, follow its path *)
Lemma build_wire n hn q :
  ∃ b, build n hn = Some b
       ∧ map (λ e, (e_from e, e_to e))
             (filter (λ e, e_qubit e = q) (output_edges b))
         = consecutive (path n q hn).
Proof.
  unfold build, path. set (qs := qubit_list n).
  destruct (init_phase qs) as (_ & He0 & _ & Hlast & Hlast' & _).
  destruct (init_phase_wf qs) as [Hwf0 Hcov0].
  set (b0 := foldl add_init_node empty_builder qs) in *.
  destruct (gate_phase qs hn b0 Hwf0 Hcov0)
    as (b1 & gl & Hfold & Hwf1 & Hcov1 & _).
  rewrite Hfold. cbn [mbind option_bind].
  destruct (end_phase (max_position hn) (max_gate_layer b1 + 1) qs b1 Hcov1)
    as (b2 & es & Hend & _ & He2 & Hes & _).
  exists b2. split; [done|].
  set (c0 := if decide (q ∈ qs) then [start_id q] else []).
  destruct (gate_phase_wire q hn b0 b1 c0 Hfold) as [He1 Hl1].
  { rewrite He0. unfold c0. by destruct (decide (q ∈ qs)). }
  { unfold c0. destruct (decide (q ∈ qs)) as [Hd|Hd].
    - by rewrite (Hlast _ Hd).
    - destruct (last_node_on_qubit b0 !! q) as [id|] eqn:Hq; [|done].
      by destruct (Hlast' _ _ Hq) as [_ ?]. }
  rewrite He2, filter_app, map_app, He1.
  rewrite (end_edges_on_qubit b1 es qs q (qubit_list_NoDup n) Hes).
  destruct (decide (q ∈ qs)) as [Hd|Hd].
  - rewrite app_assoc, consecutive_snoc. f_equal.
    destruct (Hcov1 q Hd) as [p Hp]. rewrite Hp in Hl1 |- *.
    by rewrite <- Hl1.
  - by rewrite !app_nil_r.
Qed.

(** X15: in the graphs of both builders the edges of each qubit, in output
    order, form one path: from the init node of the qubit through the gate
    nodes that act on it, in order, to its end node; a qubit that is not
    among the first [num_qubits] has no init or end node and its path
    starts at the first gate on it.  Neither builder raises. *)
Theorem X15_edges_of_a_qubit_form_its_path r q :
  let n := Graph.num_qubits (r_statistics r) in
  (∃ g, convert_to_app_circuit_format r = Some g
        ∧ wire q g = consecutive (path n q (flat_nodes r)))
  ∧ (∃ g, parse_circuit_dag r = Some g
          ∧ wire q g = consecutive (path n q (hier_nodes r))).
Proof.
  cbv zeta. split.
  - unfold convert_to_app_circuit_format. cbv zeta.
    destruct (build_wire (Graph.num_qubits (r_statistics r)) (flat_nodes r) q)
      as (b & Hb & Hw).
    unfold flat_nodes in Hb. rewrite Hb. cbn [mbind option_bind].
    eexists. split; [done|]. exact Hw.
  - unfold parse_circuit_dag. cbv zeta.
    destruct (build_wire (Graph.num_qubits (r_statistics r)) (hier_nodes r) q)
      as (b & Hb & Hw).
    unfold hier_nodes in Hb. rewrite Hb. cbn [mbind option_bind].
    eexists. split; [done|]. exact Hw.
Qed.

Lemma layer_of_nonneg (ls : list Z) :
  (∀ l, l ∈ ls → (-1 ≤ l)%Z) → (0 ≤ layer_of ls)%Z.
Proof.
  destruct ls as [|l ls]; intros Hls; simpl; [done|].
  pose proof (foldl_max_le ls l l (or_introl (Z.le_refl _))).
  assert (-1 ≤ l)%Z by (apply Hls, elem_of_cons; by left). lia.
Qed.

(** no layer is below the start layer, and gate nodes start at layer 0 *)
Lemma gate_phase_bands hn b0 b1 :
  wf b0 →
  fold_opt add_gate_node b0 hn = Some b1 →
  (∀ id l, node_layers b0 !! id = Some l → (-1 ≤ l)%Z) →
  ∃ gl, output_nodes b1 = output_nodes b0 ++ gl
        ∧ Forall (λ nd, (0 ≤ n_layer nd)%Z) gl.
Proof.
  revert b0. induction hn as [|n hn IH]; intros b0 Hwf Hfold Hlow.
  - injection Hfold as <-. exists []. by rewrite app_nil_r.
  - cbn [fold_opt] in Hfold.
    destruct (add_gate_node_total b0 n Hwf) as (preds & Hok & Heq).
    assert (covers [] b0) as Hcov
      by (intros q Hq; by apply elem_of_nil in Hq).
    destruct (add_gate_node_wf [] b0 n _ Hwf Hcov Heq) as [Hwf' _].
    rewrite Heq in Hfold. cbn [mbind option_bind] in Hfold.
    assert (0 ≤ layer_of preds.2)%Z as Hpos.
    { apply layer_of_nonneg. intros l Hl.
      destruct Hok as (Hlayers & _).
      apply list_elem_of_lookup_1 in Hl as [i Hi].
      destruct (Forall2_lookup_r _ _ _ _ _ Hlayers Hi) as (p & _ & Hp).
      by apply (Hlow p.1). }
    destruct (IH _ Hwf' Hfold) as (gl & Hgl & Hall).
    { intros id l. cbn [node_layers].
      destruct (decide (n_id n = id)) as [->|Hne].
      - rewrite lookup_insert_eq. intros [= <-]. lia.
      - rewrite lookup_insert_ne by done. apply Hlow. }
    cbn [output_nodes] in Hgl.
    exists (with_layer n (layer_of preds.2) :: gl). split.
    + by rewrite Hgl, <- app_assoc.
    + by constructor.
Qed.

Lemma max_position_above (hn : list node) (h : node) :
  h ∈ hn → (n_position h < max_position hn)%Z.
Proof.
  intros Hh. unfold max_position.
  assert (n_position h ∈ map n_position hn) as Hp
    by (apply list_elem_of_In, in_map; by apply list_elem_of_In).
  destruct (map n_position hn) as [|p ps]; [by apply elem_of_nil in Hp|].
  apply elem_of_cons in Hp as [->|Hp].
  - pose proof (foldl_max_le ps p p (or_introl (Z.le_refl _))). lia.
  - pose proof (foldl_max_le ps p _ (or_intror Hp)). lia.
Qed.

Lemma build_laid_out n hn :
  ∃ b, build n hn = Some b
       ∧ ∀ g, nodes g = output_nodes b → laid_out n hn g.
Proof.
  unfold build. set (qs := qubit_list n).
  destruct (init_phase qs) as (Hn0 & _ & Hm0 & _ & _ & _ & Hlay0).
  destruct (init_phase_wf qs) as [Hwf0 Hcov0].
  set (b0 := foldl add_init_node empty_builder qs) in *.
  destruct (gate_phase qs hn b0 Hwf0 Hcov0)
    as (b1 & gl & Hfold & Hwf1 & Hcov1 & Hn1 & Hgl & Hm1).
  rewrite Hfold. cbn [mbind option_bind].
  destruct (end_phase (max_position hn) (max_gate_layer b1 + 1) qs b1 Hcov1)
    as (b2 & es & Hend & Hn2 & _).
  exists b2. split; [done|]. intros g Hg.
  destruct (gate_phase_bands hn b0 b1 Hwf0 Hfold) as (gl' & Hn1' & Hpos).
  { intros id l Hl. destruct (Hlay0 _ _ Hl) as [-> _]. done. }
  assert (gl' = gl) as -> by (rewrite Hn1 in Hn1'; by apply app_inv_head in Hn1').
  exists gl, (max_position hn), (max_gate_layer b1 + 1)%Z. split.
  - by rewrite Hg, Hn2, Hn1, Hn0, <- app_assoc.
  - rewrite Hm1, Hm0.
    apply Forall2_same_length_lookup_2; [by eapply Forall2_length|].
    intros i nd h Hnd Hh.
    destruct (Forall2_lookup_lr _ _ _ _ _ _ Hgl Hnd Hh) as [l ->].
    rewrite Forall_lookup in Hpos. specialize (Hpos _ _ Hnd).
    split; [done|]. split.
    + split; [done|].
      assert (n_layer (with_layer h l) ∈ map n_layer gl) as Hin.
      { apply list_elem_of_In, in_map, list_elem_of_In.
        by eapply list_elem_of_lookup_2. }
      pose proof (foldl_max_le _ 0 _ (or_intror Hin)). lia.
    + apply (max_position_above hn h). by eapply list_elem_of_lookup_2.
Qed.

(** X16: neither builder raises, whatever the input, and the nodes come out
    as the init nodes of the qubits, then one node for each gate in input
    order, with the name, qubits and position of the gate and a layer from 0
    to below the end layer, then the end nodes of the qubits, all at one
    layer and at a position beyond every gate. *)
Theorem X16_nodes_are_inits_gates_and_ends r :
  let n := Graph.num_qubits (r_statistics r) in
  (∃ g, convert_to_app_circuit_format r = Some g
        ∧ laid_out n (flat_nodes r) g
        ∧ length (nodes g)
          = (length (dag_flat r) + 2 * length (qubit_list n))%nat)
  ∧ (∃ g, parse_circuit_dag r = Some g ∧ laid_out n (hier_nodes r) g).
Proof.
  cbv zeta. split.
  - unfold convert_to_app_circuit_format. cbv zeta.
    destruct (build_laid_out (Graph.num_qubits (r_statistics r)) (flat_nodes r))
      as (b & Hb & Hl).
    unfold flat_nodes in Hb. rewrite Hb. cbn [mbind option_bind].
    eexists. split; [done|]. split; [by apply Hl|].
    destruct (Hl {| nodes := output_nodes b; edges := []; macros := [] |}
                 eq_refl) as (gl & mp & el & Hn & Hgl).
    cbn [nodes] in Hn |- *. rewrite Hn, !length_app, !length_map.
    apply Forall2_length in Hgl. rewrite Hgl.
    unfold flat_nodes. rewrite length_map. lia.
  - unfold parse_circuit_dag. cbv zeta.
    destruct (build_laid_out (Graph.num_qubits (r_statistics r)) (hier_nodes r))
      as (b & Hb & Hl).
    unfold hier_nodes in Hb. rewrite Hb. cbn [mbind option_bind].
    eexists. split; [done|]. by apply Hl.
Qed.

Lemma lookup_position_map (items : list flat_item) (m : gmap Z string) pos id :
  foldl (λ m item, <[f_position item := gate_id (f_position item)]> m)
        m items !! pos = Some id →
  m !! pos = Some id ∨ (id = gate_id pos ∧ pos ∈ map f_position items).
Proof.
  revert m. induction items as [|item items IH]; intros m; cbn [foldl map].
  - by left.
  - intros Hl. destruct (IH _ Hl) as [Hm|[-> Hin]].
    + destruct (decide (f_position item = pos)) as [<-|Hne].
      * rewrite lookup_insert_eq in Hm. injection Hm as <-.
        right. split; [done|]. apply elem_of_cons. by left.
      * rewrite lookup_insert_ne in Hm by done. by left.
    + right. split; [done|]. apply elem_of_cons. by right.
Qed.

Lemma convert_macro_elem m d inst :
  inst ∈ convert_macro m d →
  i_name inst = d_label d ∧ i_nodes inst = d_gates d
  ∧ (i_gate_ids inst = []
     ∨ ∃ p, p ∈ d_positions d
            ∧ i_gate_ids inst = instance_gate_ids m (p_start p) (p_end p)).
Proof.
  unfold convert_macro. cbv zeta.
  set (one := λ pos_info : position_info, _).
  destruct (flat_map one (d_positions d)) as [|i0 rest] eqn:E.
  - intros ->%list_elem_of_singleton. simpl. by auto.
  - rewrite <- E. intros Hin.
    apply list_elem_of_In, in_flat_map in Hin as (p & Hp & Hin).
    apply list_elem_of_In in Hp, Hin. unfold one in Hin.
    destruct (instance_gate_ids m (p_start p) (p_end p)) as [|id ids] eqn:Eg;
      [by apply elem_of_nil in Hin|].
    apply list_elem_of_singleton in Hin as ->. simpl.
    split; [done|]. split; [done|]. right. exists p. by rewrite Eg.
Qed.

Lemma convert_macro_nonempty m d :
  ∃ inst, inst ∈ convert_macro m d
          ∧ i_name inst = d_label d ∧ i_nodes inst = d_gates d.
Proof.
  destruct (convert_macro m d) as [|inst rest] eqn:E.
  - unfold convert_macro in E. cbv zeta in E. by destruct (flat_map _ _).
  - exists inst.
    assert (inst ∈ convert_macro m d) as Hin
      by (rewrite E; apply elem_of_cons; by left).
    split; [by rewrite <- E|].
    by destruct (convert_macro_elem m d inst Hin) as (? & ? & _).
Qed.

(** X17: in the graph of [convert_to_app_circuit_format] every macro entry
    carries the label and gates of a macro of the input, every macro of the
    input has at least one entry, and every gate id an entry lists is the
    id of a gate node of the graph. *)
Theorem X17_macro_entries_point_at_gate_nodes r :
  ∃ g, convert_to_app_circuit_format r = Some g
       ∧ (∀ inst, inst ∈ macros g →
            (∃ d, d ∈ r_macros r
                  ∧ i_name inst = d_label d ∧ i_nodes inst = d_gates d)
            ∧ ∀ id, id ∈ i_gate_ids inst → id ∈ gate_node_ids g)
       ∧ ∀ d, d ∈ r_macros r →
           ∃ inst, inst ∈ macros g
                   ∧ i_name inst = d_label d ∧ i_nodes inst = d_gates d.
Proof.
  unfold convert_to_app_circuit_format. cbv zeta.
  set (hn := map _ (dag_flat r)).
  set (m := foldl _ ∅ (dag_flat r)).
  destruct (build_nodes (Graph.num_qubits (r_statistics r)) hn)
    as (b & gl & Hb & Hgl & Hnodes).
  rewrite Hb. cbn [mbind option_bind]. eexists. split; [done|].
  set (g := {| nodes := output_nodes b |}).
  destruct (built_nodes_by_type (Graph.num_qubits (r_statistics r)) hn g gl
              _ _ (gate_nodes_are_gates _) Hgl Hnodes) as (Hgates & _).
  assert (gate_node_ids g = map gate_id (map f_position (dag_flat r))) as Hids.
  { unfold gate_node_ids. change (filter _ (nodes g)) with (nodes_of_type Gate g).
    rewrite Hgates.
    transitivity (map n_id hn).
    - clear -Hgl. induction Hgl as [|x y gl hn [l ->] _ IH]; [done|].
      cbn [map]. by rewrite IH.
    - unfold hn. by rewrite !map_map. }
  split.
  - intros inst Hin. cbn [macros] in Hin.
    apply list_elem_of_In, in_flat_map in Hin as (d & Hd & Hin).
    apply list_elem_of_In in Hd, Hin.
    destruct (convert_macro_elem m d inst Hin) as (Hname & Hnd & Hg).
    split; [by exists d|]. intros id Hid. rewrite Hids.
    destruct Hg as [Hg|(p & _ & Hg)]; rewrite Hg in Hid;
      [by apply elem_of_nil in Hid|].
    unfold instance_gate_ids in Hid.
    apply list_elem_of_omap in Hid as (pos & _ & Hpos).
    destruct (lookup_position_map _ _ _ _ Hpos) as [He|[-> Hp]];
      [by rewrite lookup_empty in He|].
    apply list_elem_of_In, in_map. by apply list_elem_of_In.
  - intros d Hd. destruct (convert_macro_nonempty m d) as (inst & Hin & Hl).
    exists inst. split; [|done]. cbn [macros].
    apply list_elem_of_In, in_flat_map. exists d.
    split; by apply list_elem_of_In.
Qed.

(** * Further properties of the pipeline *)

Import Pipeline PipelineSpec.

(** the two loops that fill [start_to_macro] as one loop over the
    positions *)
Lemma start_to_macro_pairs macros :
  start_to_macro macros
  = foldl (λ d mp, record_start mp.1 d mp.2) ∅
      (flat_map (λ m, map (pair m) (m_positions (l_macro m))) macros).
Proof.
  unfold start_to_macro. generalize (∅ : gmap Z (labelled * Z)).
  induction macros as [|m macros IH]; intros d; [done|].
  cbn [foldl flat_map]. rewrite foldl_app, IH. f_equal.
  generalize (m_positions (l_macro m)). clear. intros ps. revert d.
  induction ps as [|p ps IH]; intros d; [done|]. cbn [foldl map]. apply IH.
Qed.

Lemma record_start_spec (l : list (labelled * (Z * Z))) :
  let d := foldl (λ d mp, record_start mp.1 d mp.2) ∅ l in
  (∀ s m e, d !! s = Some (m, e) →
     (m, (s, e)) ∈ l ∧ ∀ m' e', (m', (s, e')) ∈ l → (e' ≤ e)%Z)
  ∧ ∀ m p, (m, p) ∈ l → is_Some (d !! p.1).
Proof.
  cbv zeta. induction l as [|[m0 [s0 e0]] l [IH1 IH2]] using rev_ind.
  - split.
    + intros s m e. cbn [foldl]. by rewrite lookup_empty.
    + intros m p H. by apply elem_of_nil in H.
  - rewrite foldl_snoc. set (d := foldl _ ∅ l) in *.
    unfold record_start. cbn [fst snd].
    assert (∀ m' e', (m', (s0, e')) ∈ l ++ [(m0, (s0, e0))] →
              (m', (s0, e')) ∈ l ∨ e' = e0) as Hsplit.
    { intros m' e' [?|Heq%list_elem_of_singleton]%elem_of_app; [by left|].
      right. congruence. }
    assert (∀ s m' e', s ≠ s0 → (m', (s, e')) ∈ l ++ [(m0, (s0, e0))] →
              (m', (s, e')) ∈ l) as Hother.
    { intros s m' e' Hs [?|Heq%list_elem_of_singleton]%elem_of_app; [done|].
      congruence. }
    assert (∀ x, x ∈ l → x ∈ l ++ [(m0, (s0, e0))]) as Hl
      by (intros x Hx; apply elem_of_app; by left).
    assert ((m0, (s0, e0)) ∈ l ++ [(m0, (s0, e0))]) as Hnew
      by (apply elem_of_app; right; by apply list_elem_of_singleton).
    destruct (d !! s0) as [[mk ek]|] eqn:Hs0; cbn [snd].
    + destruct (IH1 _ _ _ Hs0) as [Hin Hmax].
      destruct (Z.ltb_spec (ek - s0) (e0 - s0)) as [Hlt|Hge].
      * split.
        -- intros s m e. destruct (decide (s = s0)) as [->|Hne].
           ++ rewrite lookup_insert_eq. intros [= <- <-]. split; [done|].
              intros m' e' [Hm'| ->]%Hsplit; [|lia].
              specialize (Hmax _ _ Hm'). lia.
           ++ rewrite lookup_insert_ne by done. intros Hd.
              destruct (IH1 _ _ _ Hd) as [Hin' Hmax']. split; [by apply Hl|].
              intros m' e' Hm'. apply (Hmax' m'). by apply (Hother s).
        -- intros m p [Hp|Hp%list_elem_of_singleton]%elem_of_app.
           ++ destruct (decide (p.1 = s0)) as [->|Hne].
              ** rewrite lookup_insert_eq. by eexists.
              ** rewrite lookup_insert_ne by done. by apply (IH2 m).
           ++ injection Hp as -> ->. cbn [fst].
              rewrite lookup_insert_eq. by eexists.
      * split.
        -- intros s m e Hd. destruct (IH1 _ _ _ Hd) as [Hin' Hmax'].
           split; [by apply Hl|]. intros m' e' Hm'.
           destruct (decide (s = s0)) as [->|Hne].
           ++ assert (m = mk ∧ e = ek) as [-> ->] by (split; congruence).
              apply Hsplit in Hm' as [Hm'| ->]; [by apply (Hmax' m')|lia].
           ++ apply (Hmax' m'). by apply (Hother s).
        -- intros m p [Hp|Hp%list_elem_of_singleton]%elem_of_app.
           ++ by apply (IH2 m).
           ++ injection Hp as -> ->. cbn [fst]. rewrite Hs0. by eexists.
    + split.
      * intros s m e. destruct (decide (s = s0)) as [->|Hne].
        -- rewrite lookup_insert_eq. intros [= <- <-]. split; [done|].
           intros m' e' [Hm'| ->]%Hsplit; [|lia].
           destruct (IH2 _ _ Hm') as [? Hsome]. cbn [fst] in Hsome.
           congruence.
        -- rewrite lookup_insert_ne by done. intros Hd.
           destruct (IH1 _ _ _ Hd) as [Hin' Hmax']. split; [by apply Hl|].
           intros m' e' Hm'. apply (Hmax' m'). by apply (Hother s).
      * intros m p [Hp|Hp%list_elem_of_singleton]%elem_of_app.
        -- destruct (decide (p.1 = s0)) as [->|Hne].
           ++ rewrite lookup_insert_eq. by eexists.
           ++ rewrite lookup_insert_ne by done. by apply (IH2 m).
        -- injection Hp as -> ->. cbn [fst].
           rewrite lookup_insert_eq. by eexists.
Qed.

Lemma elem_of_macro_pairs macros m p :
  (m, p) ∈ flat_map (λ m, map (pair m) (m_positions (l_macro m))) macros
  ↔ m ∈ macros ∧ p ∈ m_positions (l_macro m).
Proof.
  rewrite list_elem_of_In, in_flat_map. split.
  - intros (m' & Hm' & Hp). apply in_map_iff in Hp as (p' & [= <- <-] & Hp').
    by rewrite !list_elem_of_In.
  - intros [Hm Hp]. exists m. rewrite <- list_elem_of_In. split; [done|].
    apply in_map. by apply list_elem_of_In.
Qed.

(** what [start_to_macro] holds: under a start, the first macro with a
    longest range at that start; every start of a position is a key *)
Lemma start_to_macro_spec macros :
  (∀ s m e, start_to_macro macros !! s = Some (m, e) →
     m ∈ macros ∧ (s, e) ∈ m_positions (l_macro m)
     ∧ ∀ m' e', m' ∈ macros → (s, e') ∈ m_positions (l_macro m') →
                (e' ≤ e)%Z)
  ∧ ∀ m p, m ∈ macros → p ∈ m_positions (l_macro m) →
      is_Some (start_to_macro macros !! p.1).
Proof.
  rewrite start_to_macro_pairs.
  destruct (record_start_spec
              (flat_map (λ m, map (pair m) (m_positions (l_macro m))) macros))
    as [H1 H2]. split.
  - intros s m e Hd. destruct (H1 _ _ _ Hd) as [Hin Hmax].
    apply elem_of_macro_pairs in Hin as [Hm Hp]. split; [done|].
    split; [done|]. intros m' e' Hm' Hp'. apply (Hmax m').
    by apply elem_of_macro_pairs.
  - intros m p Hm Hp. apply (H2 m). by apply elem_of_macro_pairs.
Qed.

Lemma py_index_inside {A} (l : list A) (i : Z) :
  (0 ≤ i < Z.of_nat (length l))%Z →
  ∃ x, py_index l i = Some x ∧ l !! Z.to_nat i = Some x.
Proof.
  intros Hi. unfold py_index.
  destruct (Z.leb_spec 0 i); [|lia].
  destruct (lookup_lt_is_Some_2 l (Z.to_nat i)) as [x Hx]; [lia|].
  by exists x.
Qed.

Lemma filter_ext_in {A} (P Q : A → Prop) `{∀ x, Decision (P x)}
    `{∀ x, Decision (Q x)} (l : list A) :
  (∀ x, x ∈ l → P x ↔ Q x) → filter P l = filter Q l.
Proof.
  induction l as [|x l IH]; intros Hl; [done|].
  assert (P x ↔ Q x) as Hx by (apply Hl, elem_of_cons; by left).
  assert (filter P l = filter Q l) as Hrest.
  { apply IH. intros y Hy. apply Hl, elem_of_cons. by right. }
  destruct (decide (P x)) as [HP|HP].
  - rewrite !filter_cons_True by tauto. by rewrite Hrest.
  - rewrite !filter_cons_False by tauto. exact Hrest.
Qed.

(** among ranges that are pairwise apart, the ranges that start at or
    after the start of one of them are that range and the ranges that
    start at or after its end *)
Lemma apart_filter_split (R : list (Z * Z)) (x : Z * Z) :
  Spec.pairwise Spec.apart R → (∀ r, r ∈ R → (r.1 < r.2)%Z) → x ∈ R →
  filter (λ r, (x.1 ≤ r.1)%Z) R ≡ₚ x :: filter (λ r, (x.2 ≤ r.1)%Z) R.
Proof.
  induction R as [|y R IH]; intros Hap Hne Hx; [by apply elem_of_nil in Hx|].
  destruct Hap as [Hy Hap]. rewrite Forall_forall in Hy.
  assert (y.1 < y.2)%Z as Hyne by (apply Hne, elem_of_cons; by left).
  assert (∀ r, r ∈ R → (r.1 < r.2)%Z) as Hne'
    by (intros r Hr; apply Hne, elem_of_cons; by right).
  destruct (decide (x = y)) as [->|Hxy].
  - rewrite filter_cons_True by (simpl; lia).
    rewrite (filter_cons_False (λ r, (y.2 ≤ r.1)%Z)) by (simpl; lia).
    apply Permutation_cons; [done|].
    rewrite (filter_ext_in (λ r, (y.1 ≤ r.1)%Z) (λ r, (y.2 ≤ r.1)%Z)); [done|].
    intros r Hr. pose proof (Hy r Hr) as Har. pose proof (Hne' r Hr).
    unfold Spec.apart in Har. simpl. lia.
  - apply elem_of_cons in Hx as [?|Hx]; [done|].
    pose proof (Hy x Hx) as Hax. pose proof (Hne' x Hx) as Hxne.
    unfold Spec.apart in Hax. specialize (IH Hap Hne' Hx).
    destruct (decide (y.2 ≤ x.1)%Z) as [Hle|Hgt].
    + rewrite !filter_cons_False by (simpl; lia). exact IH.
    + rewrite !filter_cons_True by (simpl; lia).
      rewrite IH. apply Permutation_swap.
Qed.

Lemma elem_of_macro_ranges macros r :
  r ∈ macro_ranges macros
  ↔ ∃ m, m ∈ macros ∧ r ∈ m_positions (l_macro m).
Proof.
  unfold macro_ranges. rewrite list_elem_of_In, in_flat_map.
  split; intros (m & Hm & Hr); exists m; by rewrite ?list_elem_of_In in *.
Qed.

(** the loop from position [i] on *)
Lemma view_loop_tiles ops macros fuel i view :
  positions_inside (length ops) macros →
  (0 ≤ i ≤ Z.of_nat (length ops))%Z →
  (Z.to_nat (Z.of_nat (length ops) - i) < fuel)%nat →
  ∃ items,
    view_loop fuel ops (start_to_macro macros) i view = Returns (view ++ items)
    ∧ tiles i (Z.of_nat (length ops)) (map span items)
    ∧ Forall (item_ok ops macros) items
    ∧ (Spec.pairwise Spec.apart (macro_ranges macros) →
       macro_spans items
       ≡ₚ filter (λ r, (i ≤ r.1)%Z) (macro_ranges macros)).
Proof.
  intros Hins. destruct (start_to_macro_spec macros) as [Hd Hkeys].
  assert (∀ r, r ∈ macro_ranges macros →
            (0 ≤ r.1)%Z ∧ (r.1 < r.2 ≤ Z.of_nat (length ops))%Z) as Hr.
  { intros r (m & Hm & Hp)%elem_of_macro_ranges. by apply (Hins m). }
  revert i view. induction fuel as [|fuel IH]; intros i view Hi Hfuel; [lia|].
  cbn [view_loop]. destruct (Z.ltb_spec i (Z.of_nat (length ops))) as [Hlt|Hge].
  - destruct (start_to_macro macros !! i) as [[m e]|] eqn:Hdi.
    + destruct (Hd _ _ _ Hdi) as (Hm & Hp & Hmax).
      destruct (Hins m (i, e) Hm Hp) as [_ Hie]. cbn [fst snd] in Hie.
      destruct (IH e (view ++ [macro_item m i e]))
        as (items & Hv & Ht & Hok & Hperm); [lia|lia|].
      exists (macro_item m i e :: items). split; [|split; [|split]].
      * by rewrite Hv, <- app_assoc.
      * cbn [map tiles span macro_item fst snd]. by repeat split; try lia.
      * constructor; [|done]. cbn [item_ok macro_item].
        split; [done|]. split; [by exists m|done].
      * intros Hap. cbn [macro_spans flat_map macro_item app].
        change (flat_map _ items) with (macro_spans items).
        rewrite (Hperm Hap). symmetry.
        apply (apart_filter_split (macro_ranges macros) (i, e) Hap).
        -- intros r Hin. by destruct (Hr r Hin) as [_ [? _]].
        -- apply elem_of_macro_ranges. by exists m.
    + destruct (py_index_inside ops i) as (op & -> & Hop); [lia|].
      destruct (IH (i + 1)%Z (view ++ [HGate (gate_name op) (qubits op) i]))
        as (items & Hv & Ht & Hok & Hperm); [lia|lia|].
      exists (HGate (gate_name op) (qubits op) i :: items).
      split; [|split; [|split]].
      * by rewrite Hv, <- app_assoc.
      * cbn [map tiles span fst snd]. by repeat split; try lia.
      * constructor; [|done]. cbn [item_ok]. split; [lia|]. by exists op.
      * intros Hap. cbn [macro_spans flat_map app].
        change (flat_map _ items) with (macro_spans items).
        rewrite (Hperm Hap).
        rewrite (filter_ext_in (λ r, (i + 1 ≤ r.1)%Z) (λ r, (i ≤ r.1)%Z));
          [done|].
        intros r (m & Hm & Hp)%elem_of_macro_ranges.
        assert (r.1 ≠ i) as Hne.
        { intros <-. destruct (Hkeys m r Hm Hp) as [? Hsome]. congruence. }
        simpl. lia.
  - exists []. rewrite app_nil_r. split; [done|]. split; [|split; [constructor|]].
    + cbn [map tiles]. lia.
    + intros _. cbn [macro_spans flat_map]. symmetry.
      rewrite filter_none; [done|].
      intros r Hin. destruct (Hr r Hin) as [_ ?]. simpl. lia.
Qed.


(** X19: when the positions of the macros are non-empty ranges inside the
    sequence that are pairwise apart, no occurrence is lost or doubled in
    the view: the ranges of its macro items are the positions of the
    macros, each once. *)
Theorem X19_every_occurrence_is_one_macro_item fuel ops macros :
  positions_inside (length ops) macros →
  Spec.pairwise Spec.apart (macro_ranges macros) →
  (length ops < fuel)%nat →
  ∃ view, create_hierarchical_view fuel ops macros = Returns view
          ∧ macro_spans view ≡ₚ macro_ranges macros.
Proof.
  intros Hins Hap Hfuel. unfold create_hierarchical_view.
  destruct (view_loop_tiles ops macros fuel 0 [] Hins)
    as (items & Hv & _ & _ & Hperm); [lia|lia|].
  exists items. split; [by rewrite Hv|]. rewrite (Hperm Hap).
  rewrite filter_all; [done|].
  intros r (m & Hm & Hp)%elem_of_macro_ranges.
  by destruct (Hins m r Hm Hp) as [? _].
Qed.

Lemma h_x_positions_inside :
  positions_inside (length PipelineInputs.h_x_twice)
    [PipelineInputs.h_x_at [(0, 2); (2, 4)]%Z].
Proof.
  intros m p ->%list_elem_of_singleton Hp. cbn [l_macro m_positions
    PipelineInputs.h_x_at] in Hp.
  repeat (apply elem_of_cons in Hp as [->|Hp]); [simpl; lia..|].
  by apply elem_of_nil in Hp.
Qed.


Lemma X19_witness :
  ∃ view,
    create_hierarchical_view 6 PipelineInputs.h_x_twice
      [PipelineInputs.h_x_at [(0, 2); (2, 4)]%Z] = Returns view
    ∧ macro_spans view ≡ₚ [(0, 2); (2, 4)]%Z.
Proof.
  apply (X19_every_occurrence_is_one_macro_item 6 PipelineInputs.h_x_twice
           [PipelineInputs.h_x_at [(0, 2); (2, 4)]%Z]).
  - exact h_x_positions_inside.
  - split; [|split; [constructor|done]].
    constructor; [|constructor]. left. simpl. lia.
  - simpl. lia.
Defined.

Lemma view_loop_stays_before_start ops macros fuel i view v :
  ops ≠ [] →
  is_Some (start_to_macro macros !! 0%Z) →
  (∀ m p, m ∈ macros → p ∈ m_positions (l_macro m) →
     (p.1 ≤ 0)%Z → (p.2 ≤ 0)%Z) →
  (i ≤ 0)%Z →
  view_loop fuel ops (start_to_macro macros) i view ≠ Returns v.
Proof.
  intros Hops Hzero Hback. destruct (start_to_macro_spec macros) as [Hd _].
  assert (0 < Z.of_nat (length ops))%Z as Hlen
    by (destruct ops; [done|simpl; lia]).
  revert i view. induction fuel as [|fuel IH]; intros i view Hi; [done|].
  cbn [view_loop]. destruct (Z.ltb_spec i (Z.of_nat (length ops))); [|lia].
  destruct (start_to_macro macros !! i) as [[m e]|] eqn:Hdi.
  - destruct (Hd _ _ _ Hdi) as (Hm & Hp & _).
    apply IH. by apply (Hback m (i, e)).
  - assert (i ≠ 0%Z) as Hne by (intros ->; rewrite Hdi in Hzero; by destruct Hzero).
    destruct (py_index ops i); [|done]. apply IH. lia.
Qed.

(** X20: the loop of [create_hierarchical_view] relies on every position
    being a non-empty range.  If the sequence is not empty, some macro has
    a position that starts at 0, and no position that starts at or before 0
    ends after 0, the function never returns: whatever the number of turns
    allowed, the loop is still running or has raised. *)
Theorem X20_empty_range_at_the_start_never_returns fuel ops macros :
  ops ≠ [] →
  (∃ m e, m ∈ macros ∧ (0, e)%Z ∈ m_positions (l_macro m)) →
  (∀ m p, m ∈ macros → p ∈ m_positions (l_macro m) →
     (p.1 ≤ 0)%Z → (p.2 ≤ 0)%Z) →
  ∀ view, create_hierarchical_view fuel ops macros ≠ Returns view.
Proof.
  intros Hops (m & e & Hm & Hp) Hback view. unfold create_hierarchical_view.
  apply view_loop_stays_before_start; [done| |done|lia].
  destruct (start_to_macro_spec macros) as [_ Hkeys].
  exact (Hkeys m (0, e)%Z Hm Hp).
Qed.

Lemma X20_witness :
  PipelineInputs.h_x_twice ≠ []
  ∧ ¬ ∃ view,
        create_hierarchical_view 100 PipelineInputs.h_x_twice
          [PipelineInputs.h_x_at [(0, 0)]%Z] = Returns view.
Proof.
  split; [discriminate|]. intros [view Hview]. revert Hview.
  apply (X20_empty_range_at_the_start_never_returns 100
           PipelineInputs.h_x_twice [PipelineInputs.h_x_at [(0, 0)]%Z]).
  - discriminate.
  - exists (PipelineInputs.h_x_at [(0, 0)]%Z), 0%Z.
    split; apply elem_of_cons; by left.
  - intros m p ->%list_elem_of_singleton Hp _.
    apply list_elem_of_singleton in Hp as ->. simpl. lia.
Defined.

Lemma returned_macro_nonempty self patterns m :
  m ∈ find_non_overlapping_macros self patterns → m_positions m ≠ [].
Proof.
  intros Hm. unfold find_non_overlapping_macros in Hm.
  apply sorted_elem_of, final_macros_elem in Hm
    as (mi & Hin & _ & _ & Hpos & _).
  set (selected := (greedy_select _).1) in *.
  destruct (macros_by_hash_spec selected) as (_ & _ & Hall).
  destruct (Hall _ _ Hin) as (c0 & rest & _ & _ & _ & _ & Hp0).
  by rewrite Hpos, Hp0.
Qed.

Lemma detected_window_size self ops h info :
  (h, info) ∈ detect_patterns self ops →
  (p_window_size info ≤ max_window_size self)%Z.
Proof.
  intros Hin. unfold detect_patterns in Hin. apply sorted_elem_of in Hin.
  revert h info Hin. apply collect_patterns_forall.
  intros w h ps Hw _ _. simpl. lia.
Qed.

(** a macro of the detector run on [ops] *)
Lemma pipeline_macro_ok det ops m :
  m ∈ find_non_overlapping_macros det (detect_patterns det ops) →
  m_count m = Z.of_nat (length (m_positions m))
  ∧ (min_repetitions det ≤ m_count m)%Z
  ∧ m_positions m ≠ []
  ∧ m_window_size m = Z.of_nat (length (m_sequence m))
  ∧ (2 ≤ m_window_size m ≤ max_window_size det)%Z
  ∧ ∀ p, p ∈ m_positions m →
      (0 ≤ p.1)%Z ∧ p.2 = (p.1 + m_window_size m)%Z
      ∧ (p.2 ≤ Z.of_nat (length ops))%Z.
Proof.
  intros Hm. destruct (detect_patterns_ok det ops) as [Hnd Hok].
  destruct (returned_macro_of_pattern det ops _ m Hnd Hok Hm)
    as (info & Hin & Hseq & Hw & Hsub & Hcnt & Hmin).
  pose proof (Hok _ _ Hin) as Hinfo.
  pose proof (pattern_ok_length _ _ _ Hinfo) as Hlen.
  destruct Hinfo as (first & rest & _ & _ & _ & _ & _ & Hw2 & Hall).
  split; [done|]. split; [done|].
  split; [by eapply returned_macro_nonempty|].
  split; [by rewrite Hseq, Hw|]. split.
  - rewrite Hw. split; [done|]. by eapply detected_window_size.
  - intros p Hp. rewrite Forall_forall in Hall. rewrite Hw.
    apply Hall. by eapply elem_of_sublist.
Qed.

Lemma elem_of_label_macros ms m :
  m ∈ label_macros ms →
  l_macro m ∈ ms
  ∧ l_label m = label_macro (l_macro m) (m_sequence (l_macro m)).
Proof.
  unfold label_macros. intros Hm.
  apply list_elem_of_In, in_map_iff in Hm as (m0 & <- & Hm0).
  by apply list_elem_of_In in Hm0.
Qed.

Lemma macro_ranges_label_macros ms :
  macro_ranges (label_macros ms) = Spec.all_ranges ms.
Proof.
  unfold macro_ranges, label_macros, Spec.all_ranges.
  induction ms as [|m ms IH]; [done|]. cbn [map flat_map]. by rewrite IH.
Qed.

Lemma pipeline_positions_inside det ops :
  positions_inside (length ops)
    (label_macros (find_non_overlapping_macros det (detect_patterns det ops))).
Proof.
  intros m p Hm Hp. apply elem_of_label_macros in Hm as [Hm _].
  destruct (pipeline_macro_ok det ops _ Hm) as (_ & _ & _ & _ & Hw & Hpos).
  destruct (Hpos p Hp) as (? & ? & ?). lia.
Qed.

Lemma pipeline_apart det ops :
  Spec.pairwise Spec.apart
    (macro_ranges
       (label_macros
          (find_non_overlapping_macros det (detect_patterns det ops)))).
Proof.
  rewrite macro_ranges_label_macros.
  eapply pairwise_submseteq;
    [apply apart_sym|apply find_non_overlapping_macros_ranges|].
  apply greedy_select_apart.
Qed.

Lemma def_ranges_serialize macros :
  def_ranges (map serialize macros) = macro_ranges macros.
Proof.
  unfold def_ranges, macro_ranges.
  induction macros as [|m macros IH]; [done|]. cbn [map flat_map].
  rewrite IH. f_equal. cbn [d_positions serialize]. rewrite map_map.
  cbn [p_start p_end]. generalize (m_positions (l_macro m)). clear.
  intros ps. induction ps as [|[s e] ps IH]; [done|]. cbn [map fst snd].
  by rewrite IH.
Qed.

Lemma foldl_add_shift (l : list Z) (a : Z) :
  foldl Z.add a l = (a + foldl Z.add 0 l)%Z.
Proof.
  revert a. induction l as [|x l IH]; intros a; cbn [foldl]; [lia|].
  rewrite IH, (IH (0 + x)%Z). lia.
Qed.

Lemma total_instances macros :
  (∀ m, m ∈ macros →
     m_count (l_macro m) = Z.of_nat (length (m_positions (l_macro m)))) →
  foldl Z.add 0%Z (map (λ m, m_count (l_macro m)) macros)
  = Z.of_nat (length (macro_ranges macros)).
Proof.
  unfold macro_ranges. induction macros as [|m macros IH]; intros Hc; [done|].
  cbn [map foldl flat_map]. rewrite foldl_add_shift, IH, length_app.
  - rewrite (Hc m) by (apply elem_of_cons; by left). lia.
  - intros m' Hm'. apply Hc, elem_of_cons. by right.
Qed.

Lemma range_savings_app l1 l2 :
  range_savings (l1 ++ l2) = (range_savings l1 + range_savings l2)%Z.
Proof.
  unfold range_savings. induction l1 as [|r l1 IH]; [done|].
  cbn [app foldr]. rewrite IH. lia.
Qed.

Lemma range_savings_perm l1 l2 :
  l1 ≡ₚ l2 → range_savings l1 = range_savings l2.
Proof.
  unfold range_savings.
  induction 1 as [|x l1 l2 _ IH|x y l|l1 l2 l3 _ IH1 _ IH2];
    cbn [foldr]; [done|by rewrite IH|lia|congruence].
Qed.

Lemma range_savings_same_size (ps : list (Z * Z)) (w : Z) :
  (∀ p, p ∈ ps → p.2 = (p.1 + w)%Z) →
  range_savings ps = (Z.of_nat (length ps) * (w - 1))%Z.
Proof.
  unfold range_savings. induction ps as [|p ps IH]; intros Hw; [done|].
  cbn [foldr length]. rewrite IH.
  - rewrite (Hw p) by (apply elem_of_cons; by left). lia.
  - intros q Hq. apply Hw, elem_of_cons. by right.
Qed.

Lemma saved_by_serialize macros :
  (∀ m, m ∈ macros →
     m_count (l_macro m) = Z.of_nat (length (m_positions (l_macro m)))
     ∧ ∀ p, p ∈ m_positions (l_macro m) →
         p.2 = (p.1 + m_window_size (l_macro m))%Z) →
  saved_by (map serialize macros) = range_savings (macro_ranges macros).
Proof.
  unfold macro_ranges, saved_by.
  induction macros as [|m macros IH]; intros Hok; [done|].
  cbn [map foldr flat_map]. rewrite range_savings_app, IH.
  - destruct (Hok m) as [Hc Hw]; [apply elem_of_cons; by left|].
    rewrite (range_savings_same_size _ _ Hw).
    cbn [d_count d_window_size serialize]. rewrite Hc. lia.
  - intros m' Hm'. apply Hok, elem_of_cons. by right.
Qed.

(** the length of a tiled view and the positions its macro items save *)
Lemma tiles_length (view : list hier_item) (from to : Z) :
  tiles from to (map span view) →
  (to - from)%Z
  = (Z.of_nat (length view) + range_savings (macro_spans view))%Z.
Proof.
  revert from. induction view as [|item view IH]; intros from.
  - cbn [map tiles]. intros ->. simpl. lia.
  - cbn [map tiles]. intros (Hs & Hlt & Ht). specialize (IH _ Ht).
    destruct item as [name qs pos|label size gates s e];
      cbn [span fst snd macro_spans flat_map app length] in *;
      change (flat_map _ view) with (macro_spans view) in *.
    + lia.
    + unfold range_savings in *. cbn [foldr fst snd]. lia.
Qed.

(** X21: on every sequence of operations and for every setting of the
    detector, steps 3 to 8 of [analyze_circuit] return (the loop of the
    view needs at most one turn per operation), and in the result the
    items of the hierarchical view tile the sequence, its macro items are
    the positions of the reported macros, each once,
    [total_macro_instances] is the number of macro items, and
    [hierarchical_items] is [original_gates] less [window_size - 1] for
    each occurrence of each macro. *)
Theorem X21_analysis_returns_a_tiled_view fuel t ops min_repetitions
    max_window_size :
  (length ops < fuel)%nat →
  ∃ r, analyze_circuit fuel t ops min_repetitions max_window_size = Returns r
       ∧ dag_flat r = flat_items ops
       ∧ tiles 0 (Z.of_nat (length ops)) (map span (dag_hierarchical r))
       ∧ macro_spans (dag_hierarchical r) ≡ₚ def_ranges (r_macros r)
       ∧ total_macro_instances (r_statistics r)
         = Z.of_nat (length (macro_spans (dag_hierarchical r)))
       ∧ (hierarchical_items (r_statistics r) + saved_by (r_macros r))%Z
         = original_gates (r_statistics r).
Proof.
  intros Hfuel. unfold analyze_circuit. cbv zeta.
  set (det := Config min_repetitions max_window_size).
  pose proof (pipeline_positions_inside det ops) as Hins.
  pose proof (pipeline_apart det ops) as Hap.
  assert (∀ m, m ∈ find_non_overlapping_macros det (detect_patterns det ops) →
            m_count m = Z.of_nat (length (m_positions m))
            ∧ ∀ p, p ∈ m_positions m → p.2 = (p.1 + m_window_size m)%Z)
    as Hms.
  { intros m Hm.
    destruct (pipeline_macro_ok det ops m Hm) as (Hc & _ & _ & _ & _ & Hp).
    split; [done|]. intros p Hin. by destruct (Hp p Hin) as (_ & ? & _). }
  set (macros := label_macros _) in *.
  assert (∀ m, m ∈ macros →
            m_count (l_macro m) = Z.of_nat (length (m_positions (l_macro m)))
            ∧ ∀ p, p ∈ m_positions (l_macro m) →
                p.2 = (p.1 + m_window_size (l_macro m))%Z) as Hls.
  { intros m Hm. apply elem_of_label_macros in Hm as [Hm _]. by apply Hms. }
  unfold create_hierarchical_view.
  destruct (view_loop_tiles ops macros fuel 0 [] Hins)
    as (view & Hv & Ht & _ & Hperm); [lia|lia|].
  rewrite Hv. cbn [app]. eexists. split; [done|].
  cbn [dag_flat dag_hierarchical r_macros r_statistics total_macro_instances
       hierarchical_items original_gates].
  assert (macro_spans view ≡ₚ macro_ranges macros) as Hspans.
  { rewrite (Hperm Hap). rewrite filter_all; [done|].
    intros r (m & Hm & Hp)%elem_of_macro_ranges.
    by destruct (Hins m r Hm Hp) as [? _]. }
  split; [done|]. split; [done|]. split; [by rewrite def_ranges_serialize|].
  split.
  - rewrite total_instances by (intros m Hm; by apply Hls).
    by rewrite (Permutation_length Hspans).
  - rewrite saved_by_serialize by done.
    rewrite <- (range_savings_perm _ _ Hspans).
    pose proof (tiles_length view 0 _ Ht). lia.
Qed.

Lemma X21_witness :
  ∃ r, analyze_circuit 6 PipelineInputs.no_numbers PipelineInputs.h_x_twice
         2 8 = Returns r
       ∧ dag_flat r = flat_items PipelineInputs.h_x_twice
       ∧ tiles 0 5 (map span (dag_hierarchical r))
       ∧ macro_spans (dag_hierarchical r) ≡ₚ def_ranges (r_macros r)
       ∧ total_macro_instances (r_statistics r)
         = Z.of_nat (length (macro_spans (dag_hierarchical r)))
       ∧ (hierarchical_items (r_statistics r) + saved_by (r_macros r))%Z
         = original_gates (r_statistics r).
Proof.
  apply (X21_analysis_returns_a_tiled_view 6 PipelineInputs.no_numbers
           PipelineInputs.h_x_twice 2 8).
  simpl. lia.
Defined.

(** X22: every macro in the result of [analyze_circuit] is consistent the
    way the tests of the repository check it, [count] being the number of
    positions and [window_size] the number of gates, and is within the
    bounds of the detector: at least [min_repetitions] and at least one
    occurrence, a window size from 2 to [max_window_size], a label of the
    vocabulary, and positions that are windows of that size inside the
    sequence; no two positions of the result overlap. *)
Theorem X22_reported_macros_are_consistent fuel t ops min_repetitions
    max_window_size :
  (length ops < fuel)%nat →
  ∃ r, analyze_circuit fuel t ops min_repetitions max_window_size = Returns r
       ∧ Forall (def_ok min_repetitions max_window_size (length ops))
                (r_macros r)
       ∧ Spec.pairwise Spec.apart (def_ranges (r_macros r))
       ∧ num_macros (r_statistics r) = Z.of_nat (length (r_macros r)).
Proof.
  intros Hfuel. unfold analyze_circuit. cbv zeta.
  set (det := Config min_repetitions max_window_size).
  pose proof (pipeline_positions_inside det ops) as Hins.
  pose proof (pipeline_apart det ops) as Hap.
  pose proof (pipeline_macro_ok det ops) as Hms.
  set (macros := label_macros _) in *.
  unfold create_hierarchical_view.
  destruct (view_loop_tiles ops macros fuel 0 [] Hins)
    as (view & Hv & _); [lia|lia|].
  rewrite Hv. cbn [app]. eexists. split; [done|].
  cbn [r_macros r_statistics num_macros]. split; [|split].
  - apply Forall_forall. intros d Hd.
    apply list_elem_of_In, in_map_iff in Hd as (m & <- & Hm).
    apply list_elem_of_In, elem_of_label_macros in Hm as [Hm Hlabel].
    destruct (Hms _ Hm) as (Hc & Hmin & Hne & Hw & Hw2 & Hpos).
    unfold def_ok. cbn [d_count d_window_size d_gates d_positions d_label
                        serialize].
    unfold gate_refs. rewrite !length_map.
    split; [done|]. split; [done|]. split; [done|]. split.
    { rewrite Hc. destruct (m_positions (l_macro m)); [done|simpl; lia]. }
    split; [done|]. split.
    { rewrite Hlabel. apply label_macro_in_vocabulary. }
    intros p Hp. apply list_elem_of_In, in_map_iff in Hp as (q & <- & Hq).
    apply list_elem_of_In in Hq. cbn [p_start p_end]. by apply Hpos.
  - by rewrite def_ranges_serialize.
  - by rewrite length_map.
Qed.

Lemma X22_witness :
  ∃ r, analyze_circuit 6 PipelineInputs.no_numbers PipelineInputs.h_x_twice
         2 8 = Returns r
       ∧ Forall (def_ok 2 8 5) (r_macros r)
       ∧ Spec.pairwise Spec.apart (def_ranges (r_macros r))
       ∧ num_macros (r_statistics r) = Z.of_nat (length (r_macros r)).
Proof.
  apply (X22_reported_macros_are_consistent 6 PipelineInputs.no_numbers
           PipelineInputs.h_x_twice 2 8).
  simpl. lia.
Defined.

(** the positions of [dag_flat] as [analyze_circuit] builds it *)
Lemma flat_items_positions ops :
  map f_position (flat_items ops) = map Z.of_nat (seq 0 (length ops)).
Proof.
  unfold flat_items.
  change (f_position <$> imap (λ i op, FlatItem (Z.of_nat i) (gate_name op)
                                               (qubits op)) ops
          = Z.of_nat <$> seq 0 (length ops)).
  rewrite fmap_imap. exact (imap_seq_0 ops Z.of_nat).
Qed.

Lemma flat_items_positions_NoDup ops :
  NoDup (map f_position (flat_items ops)).
Proof.
  rewrite flat_items_positions.
  change (NoDup (Z.of_nat <$> seq 0 (length ops))).
  apply NoDup_fmap_2; [|apply NoDup_seq]. intros i j. lia.
Qed.

Lemma flat_items_position_elem ops pos :
  pos ∈ map f_position (flat_items ops)
  ↔ (0 ≤ pos < Z.of_nat (length ops))%Z.
Proof.
  rewrite flat_items_positions, list_elem_of_In, in_map_iff. split.
  - intros (i & <- & Hi). apply in_seq in Hi. lia.
  - intros Hpos. exists (Z.to_nat pos). split; [lia|]. apply in_seq. lia.
Qed.

Lemma lookup_position_map_elem (items : list flat_item) (m : gmap Z string) pos :
  pos ∈ map f_position items →
  foldl (λ m item, <[f_position item := gate_id (f_position item)]> m)
        m items !! pos = Some (gate_id pos).
Proof.
  revert m. induction items as [|item items IH] using rev_ind; intros m Hin.
  - by apply elem_of_nil in Hin.
  - rewrite foldl_snoc. rewrite map_app in Hin.
    destruct (decide (f_position item = pos)) as [<-|Hne].
    + by rewrite lookup_insert_eq.
    + rewrite lookup_insert_ne by done. apply IH.
      apply elem_of_app in Hin as [?|Hin%list_elem_of_singleton]; [done|].
      by destruct Hne.
Qed.

(** [parse_circuit_dag] skips negative positions, of which there are none *)
Lemma guarded_position_map (items : list flat_item) (m : gmap Z string) :
  (∀ item, item ∈ items → (0 ≤ f_position item)%Z) →
  foldl (λ m item,
           if (0 <=? f_position item)%Z
           then <[f_position item := gate_id (f_position item)]> m else m)
        m items
  = foldl (λ m item, <[f_position item := gate_id (f_position item)]> m)
          m items.
Proof.
  revert m. induction items as [|item items IH]; intros m Hpos; [done|].
  cbn [foldl].
  destruct (Z.leb_spec 0 (f_position item)) as [_|Hneg].
  - apply IH. intros it Hit. apply Hpos, elem_of_cons. by right.
  - specialize (Hpos item (list_elem_of_here _ _)). lia.
Qed.

Lemma instance_gate_ids_all (m : gmap Z string) s e :
  (∀ pos, (s ≤ pos < e)%Z → m !! pos = Some (gate_id pos)) →
  instance_gate_ids m s e = map gate_id (Py.range2 s e).
Proof.
  intros Hm. unfold instance_gate_ids.
  assert (∀ pos, pos ∈ Py.range2 s e → m !! pos = Some (gate_id pos)) as Hall
    by (intros pos Hpos; by apply Hm, range2_elem).
  induction (Py.range2 s e) as [|pos l IH]; [done|]. cbn [omap list_omap map].
  rewrite (Hall pos) by (apply elem_of_cons; by left).
  f_equal. apply IH. intros p Hp. apply Hall, elem_of_cons. by right.
Qed.

Lemma range2_nonempty s e : (s < e)%Z → Py.range2 s e ≠ [].
Proof.
  intros Hse. unfold Py.range2.
  destruct (Z.to_nat (e - s)) as [|n] eqn:E; [lia|]. done.
Qed.

(** with all positions known, both builders list one entry per position *)
Lemma macros_are_overlay (m : gmap Z string) len (defs : list macro_def) :
  (∀ pos, (0 ≤ pos < Z.of_nat len)%Z → m !! pos = Some (gate_id pos)) →
  (∀ d, d ∈ defs →
     d_positions d ≠ []
     ∧ ∀ p, p ∈ d_positions d →
         (0 ≤ p_start p)%Z ∧ (p_start p < p_end p ≤ Z.of_nat len)%Z) →
  flat_map (convert_macro m) defs = overlay defs
  ∧ flat_map (parse_macro m) defs = overlay defs.
Proof.
  intros Hm. unfold overlay.
  induction defs as [|d defs IH]; intros Hdefs; [done|].
  destruct IH as [IH1 IH2].
  { intros d' Hd'. apply Hdefs, elem_of_cons. by right. }
  destruct (Hdefs d (list_elem_of_here _ _)) as [Hne Hpos].
  cbn [flat_map]. rewrite IH1, IH2.
  assert (∀ p, p ∈ d_positions d →
            instance_gate_ids m (p_start p) (p_end p)
            = map gate_id (Py.range2 (p_start p) (p_end p))) as Hids.
  { intros p Hp. destruct (Hpos p Hp) as [? ?].
    apply instance_gate_ids_all. intros pos Hin. apply Hm. lia. }
  split; f_equal.
  - unfold convert_macro. cbv zeta.
    set (one := λ pos_info : position_info, _).
    assert (flat_map one (d_positions d)
            = map (λ p, {| i_name := d_label d;
                           i_gate_ids :=
                             map gate_id (Py.range2 (p_start p) (p_end p));
                           i_nodes := d_gates d |}) (d_positions d)) as ->.
    { clear Hne. induction (d_positions d) as [|p ps IHp]; [done|].
      cbn [flat_map map]. rewrite IHp.
      - unfold one at 1. rewrite (Hids p) by (apply elem_of_cons; by left).
        destruct (Hpos p (list_elem_of_here _ _)) as [_ [Hlt _]].
        pose proof (range2_nonempty _ _ Hlt) as Hr.
        by destruct (Py.range2 (p_start p) (p_end p)).
      - intros q Hq. apply Hpos, elem_of_cons. by right.
      - intros q Hq. apply Hids, elem_of_cons. by right. }
    by destruct (d_positions d).
  - unfold parse_macro. apply map_ext_in. intros p Hp.
    apply list_elem_of_In in Hp. by rewrite (Hids p Hp).
Qed.

(** in a tiled view the gate items stand at distinct positions, outside the
    ranges of the macro items *)
Lemma tiles_gate_positions (view : list hier_item) (from to : Z) :
  tiles from to (map span view) →
  (from ≤ to)%Z
  ∧ NoDup (gate_positions view)
  ∧ (∀ pos, pos ∈ gate_positions view → (from ≤ pos < to)%Z)
  ∧ (∀ r, r ∈ macro_spans view → (from ≤ r.1)%Z ∧ (r.1 < r.2 ≤ to)%Z)
  ∧ ∀ pos r, pos ∈ gate_positions view → r ∈ macro_spans view →
             ¬ (r.1 ≤ pos < r.2)%Z.
Proof.
  revert from. induction view as [|item view IH]; intros from.
  - cbn [map tiles]. intros ->. split; [lia|]. split; [constructor|].
    split; [|split].
    + intros ? H. by apply elem_of_nil in H.
    + intros ? H. by apply elem_of_nil in H.
    + intros ? ? H. by apply elem_of_nil in H.
  - cbn [map tiles]. intros (Hs & Hlt & Ht).
    destruct (IH _ Ht) as (Hle & Hnd & Hgp & Hms & Hout).
    destruct item as [name qs pos|label size gates s e];
      cbn [span fst snd] in *.
    + change (gate_positions (HGate name qs pos :: view))
        with (pos :: gate_positions view).
      change (macro_spans (HGate name qs pos :: view))
        with (macro_spans view).
      subst from. split; [lia|]. split; [|split; [|split]].
      * apply NoDup_cons. split; [|done]. intros Hin.
        specialize (Hgp _ Hin). lia.
      * intros p [->|Hp]%elem_of_cons; [lia|]. specialize (Hgp _ Hp). lia.
      * intros r Hr. specialize (Hms _ Hr). lia.
      * intros p r [->|Hp]%elem_of_cons Hr; [|by apply Hout].
        specialize (Hms _ Hr). lia.
    + change (gate_positions (HMacro label size gates s e :: view))
        with (gate_positions view).
      change (macro_spans (HMacro label size gates s e :: view))
        with ((s, e) :: macro_spans view).
      subst from. split; [lia|]. split; [done|]. split; [|split].
      * intros p Hp. specialize (Hgp _ Hp). lia.
      * intros r [->|Hr]%elem_of_cons; [simpl; lia|].
        specialize (Hms _ Hr). lia.
      * intros p r Hp [->|Hr]%elem_of_cons; [|by apply Hout].
        specialize (Hgp _ Hp). simpl. lia.
Qed.

(** the ids of the nodes of a built graph *)
Lemma build_node_ids n hn b :
  build n hn = Some b →
  map n_id (output_nodes b)
  = map start_id (qubit_list n) ++ map n_id hn ++ map end_id (qubit_list n).
Proof.
  intros Hb. destruct (build_nodes n hn) as (b' & gl & Hb' & Hgl & Hnodes).
  rewrite Hb in Hb'. injection Hb' as <-.
  rewrite Hnodes, !map_app, !map_map. f_equal. f_equal.
  clear -Hgl. induction Hgl as [|x y gl hn [l ->] _ IH]; [done|].
  cbn [map]. by rewrite IH.
Qed.

Lemma build_gate_node_ids n hn b :
  build n hn = Some b → Forall (λ h, n_type h = Gate) hn →
  map n_id (filter (λ nd, n_type nd = Gate) (output_nodes b)) = map n_id hn.
Proof.
  intros Hb Hgates.
  destruct (build_nodes n hn) as (b' & gl & Hb' & Hgl & Hnodes).
  rewrite Hb in Hb'. injection Hb' as <-.
  destruct (built_nodes_by_type n hn
              {| nodes := output_nodes b; edges := []; macros := [] |} gl
              _ _ Hgates Hgl Hnodes) as (Hg & _).
  unfold nodes_of_type in Hg. cbn [nodes] in Hg. rewrite Hg.
  clear -Hgl. induction Hgl as [|x y gl hn [l ->] _ IH]; [done|].
  cbn [map]. by rewrite IH.
Qed.

Lemma elem_of_overlay defs inst :
  inst ∈ overlay defs →
  ∃ d p, d ∈ defs ∧ p ∈ d_positions d
         ∧ i_gate_ids inst = map gate_id (Py.range2 (p_start p) (p_end p)).
Proof.
  unfold overlay. rewrite list_elem_of_In, in_flat_map.
  intros (d & Hd & Hin). apply in_map_iff in Hin as (p & <- & Hp).
  exists d, p. by rewrite !list_elem_of_In.
Qed.

Lemma elem_of_def_ranges defs d p :
  d ∈ defs → p ∈ d_positions d → (p_start p, p_end p) ∈ def_ranges defs.
Proof.
  intros Hd Hp. unfold def_ranges. apply list_elem_of_In, in_flat_map.
  exists d. split; [by apply list_elem_of_In|].
  apply in_map_iff. exists p. split; [done|]. by apply list_elem_of_In.
Qed.

(** the two graphs of a well-formed analysis result *)
Lemma graphs_of_well_formed r :
  well_formed r → ∃ g g', graphs_of r g g'.
Proof.
  intros (Hpos & Ht & Hperm & Hne).
  set (len := length (dag_flat r)) in *.
  destruct (tiles_gate_positions _ _ _ Ht) as (_ & Hnd & _ & Hms & Hout).
  assert (∀ pos, pos ∈ map f_position (dag_flat r)
                 ↔ (0 ≤ pos < Z.of_nat len)%Z) as Hin.
  { intros pos. rewrite Hpos, list_elem_of_In, in_map_iff. split.
    - intros (i & <- & Hi). apply in_seq in Hi. lia.
    - intros Hp. exists (Z.to_nat pos). split; [lia|]. apply in_seq. lia. }
  assert (NoDup (map f_position (dag_flat r))) as Hndf.
  { rewrite Hpos. change (NoDup (Z.of_nat <$> seq 0 len)).
    apply NoDup_fmap_2; [|apply NoDup_seq]. intros i j. lia. }
  assert (∀ d p, d ∈ r_macros r → p ∈ d_positions d →
            (0 ≤ p_start p)%Z ∧ (p_start p < p_end p ≤ Z.of_nat len)%Z)
    as Hdefs.
  { intros d p Hd Hp. pose proof (elem_of_def_ranges _ _ _ Hd Hp) as Hr.
    rewrite <- Hperm in Hr. exact (Hms _ Hr). }
  set (m := foldl (λ (m : gmap Z string) item,
                     <[f_position item := gate_id (f_position item)]> m)
                  ∅ (dag_flat r)).
  assert (∀ pos, (0 ≤ pos < Z.of_nat len)%Z → m !! pos = Some (gate_id pos))
    as Hm.
  { intros pos Hp. by apply lookup_position_map_elem, Hin. }
  destruct (macros_are_overlay m len (r_macros r) Hm) as [Hov1 Hov2].
  { intros d Hd. split; [by apply Hne|]. intros p Hp. by apply (Hdefs d). }
  (* the graph of [convert_to_app_circuit_format] *)
  pose proof (gate_nodes_are_gates (dag_flat r)) as Hgates1.
  set (hn1 := map _ (dag_flat r)) in Hgates1.
  assert (map n_id hn1 = map gate_id (map f_position (dag_flat r))) as Hids1.
  { unfold hn1. by rewrite !map_map. }
  destruct (gate_nodes_fresh_ids hn1 _ Hids1 Hndf) as [Hnd1 Hfresh1].
  destruct (build_layering (Graph.num_qubits (r_statistics r)) hn1
              Hgates1 Hnd1 Hfresh1) as (b1 & Hb1 & Hok1).
  (* the graph of [parse_circuit_dag] *)
  destruct (hierarchical_gate_nodes (dag_hierarchical r)) as [Hgates2 Hids2].
  set (hn2 := flat_map _ (dag_hierarchical r)) in *.
  destruct (gate_nodes_fresh_ids hn2 _ Hids2 Hnd) as [Hnd2 Hfresh2].
  destruct (build_layering (Graph.num_qubits (r_statistics r)) hn2
              Hgates2 Hnd2 Hfresh2) as (b2 & Hb2 & Hok2).
  exists {| nodes := output_nodes b1; edges := output_edges b1;
            macros := flat_map (convert_macro m) (r_macros r) |},
         {| nodes := output_nodes b2; edges := output_edges b2;
            macros := flat_map (parse_macro m) (r_macros r) |}.
  split; [|split; [|split; [|split; [|split; [|split]]]]].
  - unfold convert_to_app_circuit_format. cbv zeta. fold hn1 m.
    by rewrite Hb1.
  - unfold parse_circuit_dag. cbv zeta. fold hn2.
    rewrite guarded_position_map.
    + fold m. by rewrite Hb2.
    + intros item Hitem.
      assert (f_position item ∈ map f_position (dag_flat r)) as Hp
        by (apply list_elem_of_In, in_map; by apply list_elem_of_In).
      apply Hin in Hp. lia.
  - by apply Hok1.
  - by apply Hok2.
  - exact Hov1.
  - exact Hov2.
  - intros inst id Hinst Hid.
    apply elem_of_overlay in Hinst as (d & p & Hd & Hp & Hids).
    rewrite Hids in Hid.
    apply list_elem_of_In, in_map_iff in Hid as (pos & <- & Hrange).
    apply list_elem_of_In, range2_elem in Hrange.
    destruct (Hdefs d p Hd Hp) as [Hs He]. split.
    + unfold gate_node_ids. cbn [nodes].
      rewrite (build_gate_node_ids _ _ _ Hb1 Hgates1), Hids1.
      apply list_elem_of_In, in_map, list_elem_of_In, Hin. lia.
    + cbn [nodes]. rewrite (build_node_ids _ _ _ Hb2), Hids2.
      intros [Hi|[Hi|Hi]%elem_of_app]%elem_of_app.
      * apply list_elem_of_In, in_map_iff in Hi as (q & Hq & _).
        symmetry in Hq. by apply gate_id_not_start in Hq.
      * apply list_elem_of_In, in_map_iff in Hi as (pos' & Hq & Hgp).
        apply gate_id_inj in Hq as ->. apply list_elem_of_In in Hgp.
        apply (Hout pos (p_start p, p_end p) Hgp); [|done].
        rewrite Hperm. by apply (elem_of_def_ranges _ d).
      * apply list_elem_of_In, in_map_iff in Hi as (q & Hq & _).
        symmetry in Hq. by apply gate_id_not_end in Hq.
Qed.

(** X23: an analysis result whose flat items stand at the positions
    0, 1, ..., whose hierarchical view tiles them, and whose macros are the
    macro items of the view gives two graphs without error.  Both are
    layered and both list one macro entry per occurrence, with the gate ids
    of the positions it covers.  These ids are gate nodes in the graph of
    [convert_to_app_circuit_format], but none of them is a node in the
    graph of [parse_circuit_dag], which leaves the collapsed gates out. *)
Theorem X23_graphs_of_a_well_formed_result r :
  well_formed r → ∃ g g', graphs_of r g g'.
Proof. apply graphs_of_well_formed. Qed.

Lemma X23_witness : ∃ g g', graphs_of input_data g g'.
Proof.
  apply (X23_graphs_of_a_well_formed_result input_data).
  split; [reflexivity|]. split; [|split].
  - cbn. repeat split; lia.
  - reflexivity.
  - intros d ->%list_elem_of_singleton. discriminate.
Defined.

Lemma analysis_well_formed fuel t ops min_repetitions max_window_size :
  (length ops < fuel)%nat →
  ∃ r, analyze_circuit fuel t ops min_repetitions max_window_size = Returns r
       ∧ well_formed r.
Proof.
  intros Hfuel. unfold analyze_circuit. cbv zeta.
  set (det := Config min_repetitions max_window_size).
  pose proof (pipeline_positions_inside det ops) as Hins.
  pose proof (pipeline_apart det ops) as Hap.
  pose proof (pipeline_macro_ok det ops) as Hms.
  set (macros := label_macros _) in *.
  unfold create_hierarchical_view.
  destruct (view_loop_tiles ops macros fuel 0 [] Hins)
    as (view & Hv & Ht & _ & Hperm); [lia|lia|].
  rewrite Hv. cbn [app]. eexists. split; [done|].
  unfold well_formed.
  cbn [dag_flat dag_hierarchical r_macros].
  assert (length (flat_items ops) = length ops) as Hlen
    by apply length_imap.
  rewrite Hlen. split; [apply flat_items_positions|]. split; [done|]. split.
  - rewrite def_ranges_serialize, (Hperm Hap). rewrite filter_all; [done|].
    intros r (m & Hm & Hp)%elem_of_macro_ranges.
    by destruct (Hins m r Hm Hp) as [? _].
  - intros d Hd. apply list_elem_of_In, in_map_iff in Hd as (m & <- & Hm).
    apply list_elem_of_In, elem_of_label_macros in Hm as [Hm _].
    destruct (Hms _ Hm) as (_ & _ & Hne & _).
    cbn [d_positions serialize]. by destruct (m_positions (l_macro m)).
Qed.

(** X24: end to end, for every sequence of operations and every setting of
    the detector: the result of [analyze_circuit] is well formed, and both
    graph builders turn it into a layered graph with one macro entry per
    occurrence, whose gate ids are gate nodes of the graph of
    [convert_to_app_circuit_format] and missing from the graph of
    [parse_circuit_dag]. *)
Theorem X24_graphs_of_an_analysis fuel t ops min_repetitions max_window_size :
  (length ops < fuel)%nat →
  ∃ r g g',
    analyze_circuit fuel t ops min_repetitions max_window_size = Returns r
    ∧ well_formed r ∧ graphs_of r g g'.
Proof.
  intros Hfuel.
  destruct (analysis_well_formed fuel t ops min_repetitions max_window_size
              Hfuel) as (r & Hr & Hwf).
  destruct (graphs_of_well_formed r Hwf) as (g & g' & Hg).
  by exists r, g, g'.
Qed.

Lemma X24_witness :
  ∃ r g g',
    analyze_circuit 6 PipelineInputs.no_numbers PipelineInputs.h_x_twice 2 8
    = Returns r
    ∧ well_formed r ∧ graphs_of r g g'.
Proof.
  apply (X24_graphs_of_an_analysis 6 PipelineInputs.no_numbers
           PipelineInputs.h_x_twice 2 8).
  simpl. lia.
Defined.
